(** * next-axis: the request pipeline, its hook chains and the client facade

    A shallow embedding of the TypeScript sources of next-axis:

    - the hook registry [Interceptors] with [use], [eject], [runFulfilled]
      and [runRejected], and the helpers [toHeaders], [combine] and
      [makeError] (the utils module);
    - [createHttp] with the pipeline [core], the setters [setBaseURL],
      [setHeader], [removeHeader] and the method shortcuts (the index
      module);
    - the earlier revision of both modules kept under [src/index.ts] and
      [src/utils/index.ts] (one callback per registration, no failure
      chain, every body decoded), in [Module Legacy].

    How the program is modelled:

    - JavaScript values are the type [JsVal]; numbers are integers, strings
      are byte strings, and a plain object is the list of its properties in
      insertion order, so that spreading, [in] and property reads behave as
      in the source whatever value a caller or a hook hands in;
    - [Headers] instances live in a store and are passed by reference, for
      [toHeaders] returns the instance it is given;
    - an [async] function is a computation in the monad [M]: it returns,
      throws, or never settles, and it may change the store and append to a
      log of the calls it makes (transport, body readers, timers, hook
      chains and their callbacks);
    - a hook callback is a function from its argument to its completion;
      what it may do to objects it shares with the caller is not modelled;
    - [JSON.stringify], URL resolution and the transport [fetch] are
      parameters of the pipeline. *)

From Stdlib Require Import ZArith String Ascii List Bool Lia DecimalString Sorted.
From stdpp Require Import base option list gmap strings.

Local Open Scope string_scope.
Local Open Scope Z_scope.
Set Warnings "-register-all".

(** ** Values *)

Inductive Signal : Type :=
| OwnSignal                       (* the signal of the pipeline's own AbortController *)
| CallerSignal (id : nat).        (* a cancellation token supplied by the caller *)

Inductive JsVal : Type :=
| VUndefined
| VNull
| VBool (b : bool)
| VNum (n : Z)
| VStr (s : string)
| VObj (props : list (string * JsVal))
| VArr (items : list JsVal)
| VFun (f : unit -> JsVal)
| VHeaders (ref : nat)
| VFormData (id : nat)
| VBlob (id : nat)
| VArrayBuffer (id : nat)
| VURLSearchParams (query : string)
| VSignal (s : Signal).

(** [v == null]: undefined or null. *)
Definition nullish (v : JsVal) : bool :=
  match v with
  | VUndefined | VNull => true
  | _ => false
  end.

(** [a ?? b] *)
Definition coalesce (a b : JsVal) : JsVal := if nullish a then b else a.
Infix "??" := coalesce (at level 45, left associativity).

(** ToBoolean *)
Definition truthy (v : JsVal) : bool :=
  match v with
  | VUndefined | VNull => false
  | VBool b => b
  | VNum n => negb (n =? 0)
  | VStr s => negb (String.eqb s "")
  | _ => true
  end.

(** [typeof v === "object"] *)
Definition typeof_object (v : JsVal) : bool :=
  match v with
  | VUndefined | VBool _ | VNum _ | VStr _ | VFun _ => false
  | _ => true
  end.

(** Decimal text of an integer, as [String(n)] gives it. *)
Definition Z_to_string (n : Z) : string := NilZero.string_of_int (Z.to_int n).

(** ToString.  An array joins its items with commas; a plain object prints
    as [Object.prototype.toString] does and a platform object with its tag;
    a function, whose source text is not modelled, prints as a native one. *)
Fixpoint ToString (v : JsVal) : string :=
  match v with
  | VUndefined => "undefined"
  | VNull => "null"
  | VBool true => "true"
  | VBool false => "false"
  | VNum n => Z_to_string n
  | VStr s => s
  | VObj _ => "[object Object]"
  | VArr items =>
      (fix join (l : list JsVal) : string :=
         match l with
         | [] => ""
         | x :: r =>
             (match x with VUndefined | VNull => "" | _ => ToString x end)
             ++ match r with [] => "" | _ => "," ++ join r end
         end) items
  | VFun _ => "function () { [native code] }"
  | VHeaders _ => "[object Headers]"
  | VFormData _ => "[object FormData]"
  | VBlob _ => "[object Blob]"
  | VArrayBuffer _ => "[object ArrayBuffer]"
  | VURLSearchParams query => query
  | VSignal _ => "[object AbortSignal]"
  end.

(** *** Strings *)

Definition lower_ascii (c : ascii) : ascii :=
  let n := nat_of_ascii c in
  if ((65 <=? n) && (n <=? 90))%nat then ascii_of_nat (n + 32) else c.

Definition upper_ascii (c : ascii) : ascii :=
  let n := nat_of_ascii c in
  if ((97 <=? n) && (n <=? 122))%nat then ascii_of_nat (n - 32) else c.

Fixpoint map_string (f : ascii -> ascii) (s : string) : string :=
  match s with
  | EmptyString => EmptyString
  | String c r => String (f c) (map_string f r)
  end.

Definition toLowerCase : string -> string := map_string lower_ascii.
Definition toUpperCase : string -> string := map_string upper_ascii.

(** [s.includes(sub)] *)
Fixpoint includes (s sub : string) : bool :=
  String.prefix sub s ||
  match s with
  | EmptyString => false
  | String _ r => includes r sub
  end.

(** [s.endsWith("/")] *)
Fixpoint endsWith_slash (s : string) : bool :=
  match s with
  | EmptyString => false
  | String c EmptyString => Ascii.eqb c "/"
  | String _ r => endsWith_slash r
  end.

(** [s.replace(/^\/+/, "")] *)
Fixpoint strip_leading_slashes (s : string) : string :=
  match s with
  | String c r => if Ascii.eqb c "/" then strip_leading_slashes r else s
  | EmptyString => EmptyString
  end.

(** *** Objects: own properties in insertion order *)

Definition Props := list (string * JsVal).

Fixpoint lookup_prop (k : string) (o : Props) : option JsVal :=
  match o with
  | [] => None
  | (k', v) :: r => if String.eqb k k' then Some v else lookup_prop k r
  end.

(** [o[k] = v]: an existing property keeps its place. *)
Fixpoint assign (k : string) (v : JsVal) (o : Props) : Props :=
  match o with
  | [] => [(k, v)]
  | (k', v') :: r => if String.eqb k k' then (k, v) :: r else (k', v') :: assign k v r
  end.

(** [{...a, ...b}] on property lists. *)
Definition spread_into (a b : Props) : Props :=
  fold_left (fun acc kv => assign (fst kv) (snd kv) acc) b a.

(** The own enumerable properties [...v] copies: the properties of a plain
    object, the indexed items of an array or a string, none otherwise. *)
Fixpoint indexed (i : nat) (items : list JsVal) : Props :=
  match items with
  | [] => []
  | x :: r => (Z_to_string (Z.of_nat i), x) :: indexed (S i) r
  end.

Fixpoint chars (s : string) : list JsVal :=
  match s with
  | EmptyString => []
  | String c r => VStr (String c EmptyString) :: chars r
  end.

Definition own_props (v : JsVal) : Props :=
  match v with
  | VObj o => o
  | VArr items => indexed 0 items
  | VStr s => indexed 0 (chars s)
  | _ => []
  end.

(** [v.k] where [v] is known not to be nullish, and [v?.k]: the own
    property, [undefined] when there is none. *)
Definition getp (v : JsVal) (k : string) : JsVal :=
  default VUndefined (lookup_prop k (own_props v)).

(** ["k" in v] for an object [v]. *)
Definition has_prop (k : string) (v : JsVal) : bool :=
  match v with
  | VObj _ | VArr _ => bool_decide (is_Some (lookup_prop k (own_props v)))
  | _ => false
  end.

(** ** Completions and the monad of [async] code *)

Inductive Completion (A : Type) : Type :=
| Return (a : A)
| Throw (e : JsVal)
| Pending.                        (* awaits a promise that never settles *)
Arguments Return {A} a.
Arguments Throw {A} e.
Arguments Pending {A}.

Inductive Event : Type :=
| EvRunFulfilled (input : JsVal)          (* a chain's runFulfilled is entered *)
| EvRunRejected (error : JsVal)           (* a chain's runRejected is entered *)
| EvOnFulfilled (slot : nat) (arg : JsVal)
| EvOnRejected (slot : nat) (arg : JsVal)
| EvFetch (url : JsVal) (init : JsVal)
| EvJson
| EvText
| EvSetTimeout (id : nat) (ms : JsVal)
| EvClearTimeout (id : nat).

(** Stored header collections: names lower-cased, one value per name. *)
Abbreviation HeaderMap := (gmap string string).

Record World : Type := mkWorld {
  heap : list HeaderMap;          (* the Headers instances, by reference *)
  log : list Event                (* platform calls and callback calls, oldest first *)
}.

Definition M (A : Type) : Type := World -> Completion A * World.

Definition ret {A} (a : A) : M A := fun w => (Return a, w).
Definition throw {A} (e : JsVal) : M A := fun w => (Throw e, w).

Definition bind {A B} (m : M A) (k : A -> M B) : M B :=
  fun w =>
    match m w with
    | (Return a, w') => k a w'
    | (Throw e, w') => (Throw e, w')
    | (Pending, w') => (Pending, w')
    end.

Notation "'do' x <- m ; k" := (bind m (fun x => k))
  (at level 10, x name, m at level 100, k at level 200).

(** [await p] on a promise whose outcome is known. *)
Definition await {A} (c : Completion A) : M A := fun w => (c, w).

(** [try { m } catch (e) { h e }] *)
Definition try_catch {A} (m : M A) (h : JsVal -> M A) : M A :=
  fun w =>
    match m w with
    | (Throw e, w') => h e w'
    | r => r
    end.

(** [try { m } finally { f }], for a [finally] block that completes
    normally: it runs after a return and after a throw, and not while the
    body is still pending. *)
Definition try_finally {A} (m : M A) (f : M unit) : M A :=
  fun w =>
    match m w with
    | (Pending, w') => (Pending, w')
    | (c, w') =>
        match f w' with
        | (Return _, w'') => (c, w'')
        | (Throw e, w'') => (Throw e, w'')
        | (Pending, w'') => (Pending, w'')
        end
    end.

Definition emit (e : Event) : M unit :=
  fun w => (Return tt, mkWorld (heap w) (log w ++ [e])).

(** A [TypeError] raised by the engine. *)
Definition TypeError (msg : string) : JsVal :=
  VObj [("name", VStr "TypeError"); ("message", VStr msg)].

(** [v.k] as an expression: reading a property of undefined or null throws. *)
Definition member (v : JsVal) (k : string) : M JsVal :=
  if nullish v
  then throw (TypeError ("Cannot read properties of " ++ ToString v ++ " (reading '" ++ k ++ "')"))
  else ret (getp v k).

(** [v.k = x] in strict mode: only objects take properties.  Objects that
    are not plain ones (arrays, Headers, ...) are left as they are. *)
Definition set_member (v : JsVal) (k : string) (x : JsVal) : M JsVal :=
  match v with
  | VObj o => ret (VObj (assign k x o))
  | VUndefined | VNull =>
      throw (TypeError ("Cannot set properties of " ++ ToString v ++ " (setting '" ++ k ++ "')"))
  | VBool _ | VNum _ | VStr _ =>
      throw (TypeError ("Cannot create property '" ++ k ++ "' on " ++ ToString v))
  | _ => ret v
  end.

(** ** The utils module *)

(** *** Headers instances *)

(** [headers.append(k, v)]: a repeated name joins the values. *)
Definition headers_append (k v : string) (m : HeaderMap) : HeaderMap :=
  let n := toLowerCase k in
  match m !! n with
  | Some old => <[n := old ++ ", " ++ v]> m
  | None => <[n := v]> m
  end.

(** A header name is a non-empty token; a value is trimmed of HTTP
    whitespace and holds no NUL, CR or LF. *)
Definition is_token_char (c : ascii) : bool :=
  let n := nat_of_ascii c in
  ((48 <=? n) && (n <=? 57))%nat || ((65 <=? n) && (n <=? 90))%nat
  || ((97 <=? n) && (n <=? 122))%nat
  || existsb (Nat.eqb n) [33; 35; 36; 37; 38; 39; 42; 43; 45; 46; 94; 95; 96; 124; 126]%nat.

Definition is_http_whitespace (c : ascii) : bool :=
  existsb (Nat.eqb (nat_of_ascii c)) [9; 10; 13; 32]%nat.

Fixpoint all_chars (p : ascii -> bool) (s : string) : bool :=
  match s with
  | EmptyString => true
  | String c r => p c && all_chars p r
  end.

Fixpoint trim_left (s : string) : string :=
  match s with
  | String c r => if is_http_whitespace c then trim_left r else s
  | EmptyString => EmptyString
  end.

Fixpoint trim_right (s : string) : string :=
  match s with
  | EmptyString => EmptyString
  | String c r =>
      let r' := trim_right r in
      if is_http_whitespace c && String.eqb r' "" then EmptyString else String c r'
  end.

Definition normalize_value (v : string) : string := trim_right (trim_left v).

Definition valid_header_name (k : string) : bool :=
  negb (String.eqb k "") && all_chars is_token_char k.

Definition valid_header_value (v : string) : bool :=
  all_chars (fun c => negb (existsb (Nat.eqb (nat_of_ascii c)) [0; 10; 13]%nat)) v.

Definition header_ok (k v : string) : bool :=
  valid_header_name k && valid_header_value (normalize_value v).

Definition InvalidHeader (k : string) : JsVal :=
  TypeError ("Invalid header name or value: " ++ k).

(** The name and value pairs [new Headers(init)] reads from [init]: the
    properties of a record or the items of a list of pairs; a primitive is
    refused, and so is a pair that is no valid header.  A platform object
    is read as a record without properties. *)
Fixpoint pair_entries (items : list JsVal) : Completion (list (string * string)) :=
  match items with
  | [] => Return []
  | VArr [a; b] :: r =>
      match pair_entries r with
      | Return l => Return ((ToString a, ToString b) :: l)
      | c => c
      end
  | _ :: _ => Throw (TypeError "Headers constructor: expected name/value pair to be length 2")
  end.

Fixpoint checked_entries (l : list (string * string)) : Completion (list (string * string)) :=
  match l with
  | [] => Return []
  | (k, v) :: r =>
      if header_ok k v
      then match checked_entries r with
           | Return l' => Return ((k, normalize_value v) :: l')
           | c => c
           end
      else Throw (InvalidHeader k)
  end.

Definition raw_entries (init : JsVal) : Completion (list (string * string)) :=
  match init with
  | VObj props => Return (map (fun kv => (fst kv, ToString (snd kv))) props)
  | VArr items => pair_entries items
  | VBool _ | VNum _ | VStr _ =>
      Throw (TypeError "Failed to construct 'Headers': The provided value is not of type 'HeadersInit'")
  | _ => Return []
  end.

Definition header_entries (init : JsVal) : Completion (list (string * string)) :=
  match raw_entries init with
  | Return l => checked_entries l
  | c => c
  end.

Definition headers_of_entries (l : list (string * string)) : HeaderMap :=
  fold_left (fun m kv => headers_append (fst kv) (snd kv) m) l ∅.

(** The collection behind a reference (empty for a reference that names
    no instance, which a run of the program never holds). *)
Definition deref (w : World) (ref : nat) : HeaderMap := default ∅ (heap w !! ref).

Definition headers_new (m : HeaderMap) : M nat :=
  fun w => (Return (length (heap w)), mkWorld (heap w ++ [m]) (log w)).

Definition headers_update (ref : nat) (f : HeaderMap -> HeaderMap) : M unit :=
  fun w => (Return tt, mkWorld (<[ref := f (deref w ref)]> (heap w)) (log w)).

Definition headers_read (ref : nat) : M HeaderMap :=
  fun w => (Return (deref w ref), w).

(** [h.set(k, v)], [h.delete(k)], [h.has(k)], [h.get(k)] *)
Definition headers_set (ref : nat) (k v : string) : M unit :=
  if header_ok k v
  then headers_update ref (fun m => <[toLowerCase k := normalize_value v]> m)
  else throw (InvalidHeader k).
Definition headers_delete (ref : nat) (k : string) : M unit :=
  if valid_header_name k
  then headers_update ref (fun m => delete (toLowerCase k) m)
  else throw (InvalidHeader k).
Definition headers_has (ref : nat) (k : string) : M bool :=
  if valid_header_name k
  then do m <- headers_read ref; ret (bool_decide (is_Some (m !! toLowerCase k)))
  else throw (InvalidHeader k).
Definition headers_get (ref : nat) (k : string) : M (option string) :=
  if valid_header_name k
  then do m <- headers_read ref; ret (m !! toLowerCase k)
  else throw (InvalidHeader k).

(** [src.forEach((v, k) => dst.set(k, v))] on the stored collections. *)
Definition copy_entries (src dst : HeaderMap) : HeaderMap :=
  map_fold (fun k v acc => <[k := v]> acc) dst src.

Definition headers_forEach_set (src dst : nat) : M unit :=
  do s <- headers_read src; headers_update dst (copy_entries s).

(** [toHeaders(h)]: [h instanceof Headers ? h : new Headers(h ?? {})].  A
    Headers instance is returned as it is, not copied. *)
Definition toHeaders (h : JsVal) : M nat :=
  match h with
  | VHeaders ref => ret ref
  | _ => do l <- await (header_entries (h ?? VObj [])); headers_new (headers_of_entries l)
  end.

(** *** combine *)

(** [/^https?:\/\//i.test(u)] *)
Definition isAbs (u : string) : bool :=
  let l := toLowerCase u in
  String.prefix "http://" l || String.prefix "https://" l.

Section Utils.

(** [new URL(rel, base).toString()], the platform's URL resolution. *)
Variable URL_resolve : string -> string -> Completion string.

(** [combine(base, rel)].  [base] is declared a string; a caller that passes
    another value gets it back when [rel] is empty and fails at
    [base.endsWith] otherwise. *)
Definition combine (base : JsVal) (rel : string) : Completion JsVal :=
  if String.eqb rel "" then Return base
  else if isAbs rel then Return (VStr rel)
  else
    match base with
    | VStr b =>
        let cleanBase := if endsWith_slash b then b else b ++ "/" in
        let cleanRel := strip_leading_slashes rel in
        match URL_resolve cleanRel cleanBase with
        | Return u => Return (VStr u)
        | Throw e => Throw e
        | Pending => Pending
        end
    | _ => Throw (TypeError "base.endsWith is not a function")
    end.

End Utils.

(** *** makeError *)

(** [new Error(msg)] with the fields [makeError] adds.  [name] is the one
    every Error has, [message] is empty when [msg] is undefined; [toJSON]
    closes over the arguments. *)
Definition makeError (msg cfg res status : JsVal) : JsVal :=
  VObj [("name", VStr "Error");
        ("message", VStr (match msg with VUndefined => "" | _ => ToString msg end));
        ("isAxiosError", VBool true);
        ("response", res);
        ("config", cfg);
        ("status", status);
        ("toJSON", VFun (fun _ => VObj [("message", msg); ("status", status);
                                        ("url", getp cfg "url")]))].

(** *** Interceptors *)

Definition Callback : Type := JsVal -> Completion JsVal.

Record Handler : Type := mkHandler {
  onFulfilled : option Callback;
  onRejected : option Callback
}.

(** The [handlers] array: [None] is the [null] an ejection leaves. *)
Abbreviation Interceptors := (list (option Handler)).

(** [use(onFulfilled, onRejected)]: the new registry and the handle. *)
Definition use (onF onR : option Callback) (hs : Interceptors) : Interceptors * Z :=
  let hs' := (hs ++ [Some (mkHandler onF onR)])%list in
  (hs', Z.of_nat (length hs') - 1).

(** [this.handlers[id]] for a number [id]: only an index in range names a slot. *)
Definition slot (hs : Interceptors) (id : Z) : option (option Handler) :=
  if 0 <=? id then hs !! Z.to_nat id else None.

(** [eject(id)]: [if (this.handlers[id]) this.handlers[id] = null]. *)
Definition eject (id : Z) (hs : Interceptors) : Interceptors :=
  match slot hs id with
  | Some (Some _) => <[Z.to_nat id := None]> hs
  | _ => hs
  end.

(** [runFulfilled(input)], from slot [i] on. *)
Fixpoint runFulfilled_from (i : nat) (hs : Interceptors) (out : JsVal) : M JsVal :=
  match hs with
  | [] => ret out
  | h :: rest =>
      match h ≫= onFulfilled with
      | None => runFulfilled_from (S i) rest out
      | Some f =>
          do _ <- emit (EvOnFulfilled i out);
          do out' <- await (f out);
          runFulfilled_from (S i) rest out'
      end
  end.

Definition runFulfilled (hs : Interceptors) (input : JsVal) : M JsVal :=
  do _ <- emit (EvRunFulfilled input); runFulfilled_from 0 hs input.

(** [runRejected(error)], from slot [i] on: the first callback that returns
    ends the loop; one that throws hands what it threw to the next. *)
Fixpoint runRejected_from (i : nat) (hs : Interceptors) (err : JsVal) : M JsVal :=
  match hs with
  | [] => throw err
  | h :: rest =>
      match h ≫= onRejected with
      | None => runRejected_from (S i) rest err
      | Some f =>
          do _ <- emit (EvOnRejected i err);
          try_catch (await (f err)) (fun next => runRejected_from (S i) rest next)
      end
  end.

Definition runRejected (hs : Interceptors) (error : JsVal) : M JsVal :=
  do _ <- emit (EvRunRejected error); runRejected_from 0 hs error.

(** ** The index module *)

(** What the transport resolves to: a status, the response headers as
    [forEach] and [get] give them, and the outcome of each body reader. *)
Record Response : Type := mkResponse {
  r_status : Z;
  r_headers : list (string * string);
  r_json : Completion JsVal;
  r_text : Completion string
}.

(** The state [createHttp] closes over. *)
Record Client : Type := mkClient {
  defaults : Props;
  req : Interceptors;
  res : Interceptors
}.

(** [createHttp(init)]: [{ method: "GET", headers: {}, ...init }] and two
    empty registries. *)
Definition createHttp (init : JsVal) : Client :=
  mkClient
    (spread_into [("method", VStr "GET"); ("headers", VObj [])] (own_props init))
    [] [].

(** The test on the request body that decides on JSON encoding. *)
Definition isPlainObj (body : JsVal) : bool :=
  negb (nullish body)
  && negb (match body with VFormData _ => true | _ => false end)
  && negb (match body with VBlob _ => true | _ => false end)
  && negb (match body with VArrayBuffer _ => true | _ => false end)
  && negb (match body with VURLSearchParams _ => true | _ => false end)
  && typeof_object body.

(** [v === "s"] *)
Definition is_str (v : JsVal) (s : string) : bool :=
  match v with
  | VStr s' => String.eqb s' s
  | _ => false
  end.

(** [r.headers.get(name)] *)
Definition response_header (r : Response) (name : string) : option string :=
  snd <$> List.find (fun kv => String.eqb (toLowerCase (fst kv)) (toLowerCase name)) (r_headers r).

(** [r.headers.forEach((v, k) => (hdrs[k] = v))] from [hdrs = {}]. *)
Definition response_hdrs (r : Response) : JsVal :=
  VObj (fold_left (fun acc kv => assign (fst kv) (VStr (snd kv)) acc) (r_headers r) []).

(** Timers: the handle of a new timer is its rank among those set so far. *)
Definition is_set_timeout (e : Event) : bool :=
  match e with EvSetTimeout _ _ => true | _ => false end.

Definition is_clear_timeout (e : Event) : bool :=
  match e with EvClearTimeout _ => true | _ => false end.

Definition is_decode (e : Event) : bool :=
  match e with EvJson | EvText => true | _ => false end.

Definition count (p : Event -> bool) (l : list Event) : nat :=
  length (List.filter p l).

Definition timers_set (l : list Event) : nat := count is_set_timeout l.

Definition setTimeout (ms : JsVal) : M nat :=
  fun w => let id := S (timers_set (log w)) in
           (Return id, mkWorld (heap w) (log w ++ [EvSetTimeout id ms])).

Definition clearTimeout (id : nat) : M unit := emit (EvClearTimeout id).

(** Where [core] stands after the request hooks: it goes on to the
    transport with a config, or has already returned a value. *)
Inductive Step : Type :=
| Dispatch (final : JsVal)
| Done (v : JsVal).

Section Pipeline.

(** The platform: [JSON.stringify] on a request body, URL resolution, and
    the transport [fetch(url, init)], which may read the headers it is sent. *)
Variable JSON_stringify : JsVal -> string.
Variable URL_resolve : string -> string -> Completion string.
Variable fetch : JsVal -> JsVal -> list HeaderMap -> Completion Response.

Variable c : Client.

(** Merging the defaults and the per-call config: the header collection,
    the body, and the object [final] before the request hooks. *)
Definition core_merge (cfg : JsVal) : M JsVal :=
  do headers <- toHeaders (getp (VObj (defaults c)) "headers");
  do cfg_headers <- member cfg "headers";
  do ch <- toHeaders cfg_headers;
  do _ <- headers_forEach_set ch headers;
  let body := getp cfg "data" in
  do has_ct <- headers_has headers "Content-Type";
  do _ <- (if isPlainObj body && negb has_ct
           then headers_set headers "Content-Type" "application/json"
           else ret tt);
  do ct <- headers_get headers "Content-Type";
  let body :=
    if isPlainObj body && from_option (fun v => includes v "application/json") false ct
    then VStr (JSON_stringify body)
    else body in
  let d := VObj (defaults c) in
  ret (VObj
    (assign "method"
       (VStr (toUpperCase (ToString (getp cfg "method" ?? getp d "method" ?? VStr "GET"))))
    (assign "credentials"
       (if truthy (getp cfg "withCredentials" ?? getp d "withCredentials")
        then VStr "include"
        else getp cfg "credentials" ?? getp d "credentials")
    (assign "data" body
    (assign "headers" (VHeaders headers)
    (spread_into (spread_into [] (defaults c)) (own_props cfg))))))).

(** The response failure chain and what [core] makes of its result. *)
Definition recover (err : JsVal) : M JsVal :=
  try_catch
    (do maybe <- runRejected (res c) err;
     if truthy maybe && typeof_object maybe && has_prop "status" maybe && has_prop "data" maybe
     then ret (getp maybe "data")
     else ret maybe)
    (fun handled => throw handled).

(** The request hooks, with their failure routed through [recover]. *)
Definition core_request_hooks (final : JsVal) : M Step :=
  try_catch
    (do f <- runFulfilled (req c) final; ret (Dispatch f))
    (fun e =>
       let err := makeError (getp e "message" ?? VStr "Request interceptor error")
                    final VUndefined VUndefined in
       do v <- recover err; ret (Done v)).

(** The base join and the header re-normalisation after the hooks. *)
Definition core_resolve (cfg final : JsVal) : M JsVal :=
  do fb <- member final "baseURL";
  let base := fb ?? getp (VObj (defaults c)) "baseURL" in
  let url := getp final "url" ?? getp cfg "url" ?? VStr "" in
  do url' <- (if truthy base && truthy url
              then await (combine URL_resolve base (ToString url))
              else ret url);
  do final <- set_member final "url" url';
  do h <- toHeaders (getp final "headers");
  set_member final "headers" (VHeaders h).

(** Does the pipeline create its own AbortController? *)
Definition arms_timer (final : JsVal) : bool :=
  negb (truthy (getp final "signal")) && truthy (getp final "timeout").

(** The second argument of [fetch]. *)
Definition fetch_init (final : JsVal) : JsVal :=
  VObj
    (assign "signal"
       (getp final "signal" ?? (if arms_timer final then VSignal OwnSignal else VUndefined))
    (assign "headers" (getp final "headers")
    (assign "body" (getp final "data")
    (spread_into [] (own_props final))))).

(** What the transport answers to this call. *)
Definition transport (final : JsVal) (w : World) : Completion Response :=
  fetch (getp final "url") (fetch_init final) (heap w).

Definition do_fetch (final : JsVal) : M Response :=
  fun w => (transport final w,
            mkWorld (heap w) (log w ++ [EvFetch (getp final "url") (fetch_init final)])).

(** Decoding the body: skipped for 204 and 205; a reader that fails leaves
    [null] for JSON and the empty string otherwise. *)
Definition decode_body (r : Response) : M JsVal :=
  let ct := default "" (response_header r "content-type") in
  if (r_status r =? 204) || (r_status r =? 205) then ret VNull
  else
    try_catch
      (if includes ct "application/json"
       then do _ <- emit EvJson; await (r_json r)
       else do _ <- emit EvText; do s <- await (r_text r); ret (VStr s))
      (fun _ => ret (if includes ct "application/json" then VNull else VStr "")).

(** The normalised response object. *)
Definition wrap (r : Response) (parsed final : JsVal) : JsVal :=
  VObj [("data", parsed); ("status", VNum (r_status r));
        ("headers", response_hdrs r); ("config", final)].

(** The error [core] raises for a status outside [200, 300). *)
Definition status_error (r : Response) (parsed final : JsVal) : JsVal :=
  makeError (VStr ("Request failed with status code " ++ Z_to_string (r_status r)))
    final (wrap r parsed final) (VNum (r_status r)).

(** The body of the [try] block. *)
Definition core_try (final : JsVal) : M JsVal :=
  do r <- do_fetch final;
  do parsed <- decode_body r;
  let wrapped := wrap r parsed final in
  if (r_status r <? 200) || (r_status r >=? 300)
  then throw (status_error r parsed final)
  else
    do processed <- runFulfilled (res c) wrapped;
    member processed "data".

(** The error the [catch] block hands to the failure chain. *)
Definition normalize (final e : JsVal) : JsVal :=
  let isTimeout := is_str (getp e "name") "AbortError" in
  if truthy (getp e "isAxiosError") then e
  else
    makeError
      (if isTimeout
       then VStr ("timeout of " ++ ToString (getp final "timeout") ++ "ms exceeded")
       else getp e "message" ?? VStr "Network Error")
      final
      (getp e "response")
      (if isTimeout then VNum 0 else getp (getp e "response") "status").

(** Timer, [try], [catch] and [finally]. *)
Definition core_dispatch (final : JsVal) : M JsVal :=
  do timer <- (if arms_timer final
               then do id <- setTimeout (getp final "timeout"); ret (Some id)
               else ret None);
  try_finally
    (try_catch (core_try final) (fun e => recover (normalize final e)))
    (match timer with
     | Some id => clearTimeout id
     | None => ret tt
     end).

(** The part of [core] before the timer is set. *)
Definition core_prepare (cfg : JsVal) : M Step :=
  do final <- core_merge cfg;
  do step <- core_request_hooks final;
  match step with
  | Done v => ret (Done v)
  | Dispatch final => do final <- core_resolve cfg final; ret (Dispatch final)
  end.

(** [core(cfg)] *)
Definition core (cfg : JsVal) : M JsVal :=
  do step <- core_prepare cfg;
  match step with
  | Done v => ret v
  | Dispatch final => core_dispatch final
  end.

(** The method shortcuts. *)
Definition shortcut (method : string) (u : JsVal) (cfg : JsVal) : M JsVal :=
  core (VObj (assign "method" (VStr method)
             (assign "url" u (spread_into [] (own_props (cfg ?? VObj [])))))).

Definition shortcut_body (method : string) (u b : JsVal) (cfg : JsVal) : M JsVal :=
  core (VObj (assign "method" (VStr method)
             (assign "data" b
             (assign "url" u (spread_into [] (own_props (cfg ?? VObj []))))))).

Definition request := core.
Definition http_get := shortcut "GET".
Definition http_delete := shortcut "DELETE".
Definition http_head := shortcut "HEAD".
Definition http_options := shortcut "OPTIONS".
Definition http_post := shortcut_body "POST".
Definition http_put := shortcut_body "PUT".
Definition http_patch := shortcut_body "PATCH".

End Pipeline.

(** The setters of the facade. *)
Definition setBaseURL (u : JsVal) (c : Client) : Client :=
  mkClient (assign "baseURL" u (defaults c)) (req c) (res c).

Definition setHeader (k v : string) (c : Client) : M Client :=
  do h <- toHeaders (getp (VObj (defaults c)) "headers");
  do _ <- headers_set h k v;
  ret (mkClient (assign "headers" (VHeaders h) (defaults c)) (req c) (res c)).

Definition removeHeader (k : string) (c : Client) : M Client :=
  do h <- toHeaders (getp (VObj (defaults c)) "headers");
  do _ <- headers_delete h k;
  ret (mkClient (assign "headers" (VHeaders h) (defaults c)) (req c) (res c)).

(** Hook registration through [interceptors.request] and [interceptors.response]. *)
Definition use_request (onF onR : option Callback) (c : Client) : Client * Z :=
  let '(hs, id) := use onF onR (req c) in (mkClient (defaults c) hs (res c), id).
Definition use_response (onF onR : option Callback) (c : Client) : Client * Z :=
  let '(hs, id) := use onF onR (res c) in (mkClient (defaults c) (req c) hs, id).
Definition eject_request (id : Z) (c : Client) : Client :=
  mkClient (defaults c) (eject id (req c)) (res c).
Definition eject_response (id : Z) (c : Client) : Client :=
  mkClient (defaults c) (req c) (eject id (res c)).


(** ** The earlier revision ([src/index.ts], [src/utils/index.ts])

    One callback per registration, a single [run], no failure chain, the
    base join before the request hooks, and body decoding for every status.
    [toHeaders] and [makeError] are the same as above. *)

Module Legacy.

(** The [list] array: [None] is [undefined], an ejected slot or a hole. *)
Abbreviation Interceptors := (list (option Callback)).

(** [use(fn)]: [this.list.push(fn) - 1] *)
Definition use (fn : Callback) (hs : Interceptors) : Interceptors * Z :=
  let hs' := (hs ++ [Some fn])%list in
  (hs', Z.of_nat (length hs') - 1).

(** [eject(id)]: [this.list[id] = undefined].  Writing past the end grows
    the array, the slots in between being holes that iterate as
    [undefined]; a negative [id] names no element. *)
Definition eject (id : Z) (hs : Interceptors) : Interceptors :=
  if id <? 0 then hs
  else if (Z.to_nat id <? length hs)%nat then <[Z.to_nat id := None]> hs
  else (hs ++ replicate (Z.to_nat id - length hs) None ++ [None])%list.

(** [run(v)]: [for (const fn of this.list) if (fn) v = await fn(v)] *)
Fixpoint run_from (i : nat) (hs : Interceptors) (v : JsVal) : M JsVal :=
  match hs with
  | [] => ret v
  | None :: rest => run_from (S i) rest v
  | Some fn :: rest =>
      do _ <- emit (EvOnFulfilled i v);
      do v' <- await (fn v);
      run_from (S i) rest v'
  end.

Definition run (hs : Interceptors) (v : JsVal) : M JsVal :=
  do _ <- emit (EvRunFulfilled v); run_from 0 hs v.

Record Client : Type := mkClient {
  defaults : Props;
  req : Interceptors;
  res : Interceptors
}.

Definition createHttp (init : JsVal) : Client :=
  mkClient
    (spread_into [("method", VStr "GET"); ("headers", VObj [])] (own_props init))
    [] [].

Section Pipeline.

Variable JSON_stringify : JsVal -> string.
Variable URL_resolve : string -> string -> Completion string.
Variable fetch : JsVal -> JsVal -> list HeaderMap -> Completion Response.

Variable c : Client.

(** [combine(base, rel)] of this revision. *)
Definition combine (base rel : JsVal) : Completion JsVal :=
  if isAbs (ToString rel) then Return rel
  else
    match base with
    | VStr b =>
        match URL_resolve (ToString rel) (if endsWith_slash b then b else b ++ "/") with
        | Return u => Return (VStr u)
        | Throw e => Throw e
        | Pending => Pending
        end
    | _ => Throw (TypeError "base.endsWith is not a function")
    end.

(** Everything up to the object [final]. *)
Definition core_merge (cfg : JsVal) : M JsVal :=
  do headers <- toHeaders (getp (VObj (defaults c)) "headers");
  do cfg_headers <- member cfg "headers";
  do ch <- toHeaders cfg_headers;
  do _ <- headers_forEach_set ch headers;
  let d := VObj (defaults c) in
  let url := getp cfg "url" ?? VStr "" in
  let base := getp cfg "baseURL" ?? getp d "baseURL" in
  do url <- (if truthy url && truthy base then await (combine base url) else ret url);
  let body := getp cfg "data" in
  do has_ct <- headers_has headers "Content-Type";
  do _ <- (if isPlainObj body && negb has_ct
           then headers_set headers "Content-Type" "application/json"
           else ret tt);
  let body := if isPlainObj body then VStr (JSON_stringify body) else body in
  ret (VObj
    (assign "method"
       (VStr (toUpperCase (ToString (getp cfg "method" ?? getp d "method" ?? VStr "GET"))))
    (assign "data" body
    (assign "credentials"
       (if truthy (getp cfg "withCredentials")
        then VStr "include"
        else getp cfg "credentials" ?? getp d "credentials")
    (assign "headers" (VHeaders headers)
    (assign "url" url
    (spread_into (spread_into [] (defaults c)) (own_props cfg)))))))).

Definition arms_timer (final : JsVal) : bool :=
  negb (truthy (getp final "signal")) && truthy (getp final "timeout").

Definition fetch_init (final : JsVal) : JsVal :=
  VObj
    (assign "signal"
       (getp final "signal" ?? (if arms_timer final then VSignal OwnSignal else VUndefined))
    (assign "headers" (getp final "headers")
    (assign "body" (getp final "data")
    (spread_into [] (own_props final))))).

Definition transport (final : JsVal) (w : World) : Completion Response :=
  fetch (getp final "url") (fetch_init final) (heap w).

Definition do_fetch (final : JsVal) : M Response :=
  fun w => (transport final w,
            mkWorld (heap w) (log w ++ [EvFetch (getp final "url") (fetch_init final)])).

(** Decoding the body, whatever the status. *)
Definition decode_body (r : Response) : M JsVal :=
  let ct := default "" (response_header r "content-type") in
  try_catch
    (if includes ct "application/json"
     then do _ <- emit EvJson; await (r_json r)
     else do _ <- emit EvText; do s <- await (r_text r); ret (VStr s))
    (fun _ => ret (if includes ct "application/json" then VNull else VStr "")).

Definition wrap (r : Response) (parsed final : JsVal) : JsVal :=
  VObj [("data", parsed); ("status", VNum (r_status r));
        ("headers", response_hdrs r); ("config", final)].

Definition status_error (r : Response) (parsed final : JsVal) : JsVal :=
  makeError (VStr ("Request failed with status code " ++ Z_to_string (r_status r)))
    final (wrap r parsed final) (VNum (r_status r)).

Definition core_try (final : JsVal) : M JsVal :=
  do r <- do_fetch final;
  do parsed <- decode_body r;
  let wrapped := wrap r parsed final in
  if (r_status r <? 200) || (r_status r >=? 300)
  then throw (status_error r parsed final)
  else
    do processed <- run (res c) wrapped;
    member processed "data".

(** The error the [catch] block throws. *)
Definition normalize (final e : JsVal) : JsVal :=
  let isTimeout := is_str (getp e "name") "AbortError" in
  if truthy (getp e "isAxiosError") then e
  else
    makeError
      (if isTimeout
       then VStr ("timeout of " ++ ToString (getp final "timeout") ++ "ms exceeded")
       else getp e "message" ?? VStr "Network Error")
      final
      VUndefined
      (if isTimeout then VNum 0 else VUndefined).

Definition core_dispatch (final : JsVal) : M JsVal :=
  do sig <- member final "signal";
  let armed := negb (truthy sig) && truthy (getp final "timeout") in
  do timer <- (if armed
               then do id <- setTimeout (getp final "timeout"); ret (Some id)
               else ret None);
  try_finally
    (try_catch (core_try final) (fun e => throw (normalize final e)))
    (match timer with
     | Some id => clearTimeout id
     | None => ret tt
     end).

(** The part of [core] before the timer is set. *)
Definition core_prepare (cfg : JsVal) : M JsVal :=
  do final <- core_merge cfg;
  run (req c) final.

Definition core (cfg : JsVal) : M JsVal :=
  do final <- core_prepare cfg;
  core_dispatch final.

End Pipeline.

End Legacy.
(** ** Hook registries over time *)

(** The operations a caller performs on one registry. *)
Inductive Op : Type :=
| OpUse (onF onR : option Callback)
| OpEject (id : Z).

Definition apply_op (op : Op) (hs : Interceptors) : Interceptors :=
  match op with
  | OpUse onF onR => fst (use onF onR hs)
  | OpEject id => eject id hs
  end.

Definition apply_ops (ops : list Op) (hs : Interceptors) : Interceptors :=
  fold_left (fun hs op => apply_op op hs) ops hs.

(** The history read on its own: what was registered, in order, and whether
    handle [k] was ejected at a time it had been issued ([n] registrations
    precede [ops]). *)
Definition registrations (ops : list Op) : list Handler :=
  omap (fun op => match op with
                  | OpUse onF onR => Some (mkHandler onF onR)
                  | OpEject _ => None
                  end) ops.

Fixpoint ejected_from (n k : nat) (ops : list Op) : bool :=
  match ops with
  | [] => false
  | OpUse _ _ :: r => ejected_from (S n) k r
  | OpEject id :: r => (bool_decide (id = Z.of_nat k) && (k <? n)%nat) || ejected_from n k r
  end.

Definition ejected (k : nat) (ops : list Op) : bool := ejected_from 0 k ops.

(** The callbacks a run meets, with their slots, in slot order. *)
Fixpoint live_from (sel : Handler -> option Callback) (i : nat) (hs : Interceptors)
  : list (nat * Callback) :=
  match hs with
  | [] => []
  | h :: r =>
      match h ≫= sel with
      | Some f => (i, f) :: live_from sel (S i) r
      | None => live_from sel (S i) r
      end
  end.

Definition live_fulfilled (hs : Interceptors) := live_from onFulfilled 0 hs.
Definition live_rejected (hs : Interceptors) := live_from onRejected 0 hs.

(** Feeding a value through callbacks one after the other: the outcome and
    the calls made. *)
Fixpoint success_chain (l : list (nat * Callback)) (v : JsVal)
  : Completion JsVal * list Event :=
  match l with
  | [] => (Return v, [])
  | (i, f) :: r =>
      match f v with
      | Return v' => let '(c, evs) := success_chain r v' in (c, EvOnFulfilled i v :: evs)
      | Throw e => (Throw e, [EvOnFulfilled i v])
      | Pending => (Pending, [EvOnFulfilled i v])
      end
  end.

(** Offering an error to callbacks one after the other: the first that
    returns settles it, one that throws replaces the error. *)
Fixpoint failure_chain (l : list (nat * Callback)) (err : JsVal)
  : Completion JsVal * list Event :=
  match l with
  | [] => (Throw err, [])
  | (i, f) :: r =>
      match f err with
      | Return v => (Return v, [EvOnRejected i err])
      | Throw next => let '(c, evs) := failure_chain r next in (c, EvOnRejected i err :: evs)
      | Pending => (Pending, [EvOnRejected i err])
      end
  end.

(** A world with more events logged. *)
Definition logged (w : World) (evs : list Event) : World :=
  mkWorld (heap w) (log w ++ evs).


(** ** The pipeline, phase by phase *)

(** What decoding leaves in [parsed], and the reader it calls. *)
Definition degraded (r : Response) : JsVal :=
  if includes (default "" (response_header r "content-type")) "application/json"
  then VNull else VStr "".

Definition bodiless (r : Response) : bool :=
  (r_status r =? 204) || (r_status r =? 205).

Definition parsed_body (r : Response) : Completion JsVal :=
  if bodiless r then Return VNull
  else if includes (default "" (response_header r "content-type")) "application/json"
  then match r_json r with
       | Return v => Return v
       | Throw _ => Return VNull
       | Pending => Pending
       end
  else match r_text r with
       | Return s => Return (VStr s)
       | Throw _ => Return (VStr "")
       | Pending => Pending
       end.

Definition decode_events (r : Response) : list Event :=
  if bodiless r then []
  else if includes (default "" (response_header r "content-type")) "application/json"
  then [EvJson] else [EvText].

(** The value a call resolves to when the failure chain returned [maybe]. *)
Definition recovered_value (maybe : JsVal) : JsVal :=
  if truthy maybe && typeof_object maybe && has_prop "status" maybe && has_prop "data" maybe
  then getp maybe "data" else maybe.

(** The world once the timer (if any) is set, and once it is cleared. *)
Definition timer_id (w : World) : nat := S (timers_set (log w)).

Definition armed_world (armed : bool) (ms : JsVal) (w : World) : World :=
  if armed then logged w [EvSetTimeout (timer_id w) ms] else w.

Definition disarmed_world (armed : bool) (w0 w : World) : World :=
  if armed then logged w [EvClearTimeout (timer_id w0)] else w.

(** The [finally] block applied to the outcome of the [try]/[catch]. *)
Definition finish_timer {A} (armed : bool) (w0 : World) (o : Completion A * World)
  : Completion A * World :=
  match o with
  | (Pending, w) => (Pending, w)
  | (c, w) => (c, disarmed_world armed w0 w)
  end.

Definition is_timer (e : Event) : bool := is_set_timeout e || is_clear_timeout e.

Definition is_run_rejected (e : Event) : bool :=
  match e with EvRunRejected _ => true | _ => false end.

(** Events of the hook chains. *)
Definition is_hook (e : Event) : bool :=
  match e with
  | EvRunFulfilled _ | EvRunRejected _ | EvOnFulfilled _ _ | EvOnRejected _ _ => true
  | _ => false
  end.

(** [m] only appends events, each satisfying [P]. *)
Definition appends {A} (P : Event -> bool) (m : M A) : Prop :=
  forall w c w', m w = (c, w') ->
    exists evs, log w' = (log w ++ evs)%list /\ Forall (fun e => P e = true) evs.

(** [m] appends no event; it may allocate or update Headers instances. *)
Definition silent {A} (m : M A) : Prop :=
  forall w c w', m w = (c, w') -> log w' = log w.

(** [m] leaves the stored Headers instances as they are. *)
Definition keeps_heap {A} (m : M A) : Prop :=
  forall w c w', m w = (c, w') -> heap w' = heap w.

(** [m] may create Headers instances and changes none that exists. *)
Definition preserves {A} (m : M A) : Prop :=
  forall w c w', m w = (c, w') ->
    (length (heap w) <= length (heap w'))%nat
    /\ forall r, (r < length (heap w))%nat -> deref w' r = deref w r.

(** The collection [toHeaders(h)] denotes in a world. *)
Definition headers_view (w : World) (h : JsVal) : Completion HeaderMap :=
  match h with
  | VHeaders ref => Return (deref w ref)
  | _ =>
      match header_entries (h ?? VObj []) with
      | Return l => Return (headers_of_entries l)
      | Throw e => Throw e
      | Pending => Pending
      end
  end.

(** A reference to a Headers instance that exists. *)
Definition valid_headers (w : World) (h : JsVal) : Prop :=
  match h with
  | VHeaders ref => (ref < length (heap w))%nat
  | _ => True
  end.

(** Bodies the merger hands on as they are. *)
Definition binary_or_text (body : JsVal) : Prop :=
  match body with
  | VFormData _ | VBlob _ | VArrayBuffer _ | VURLSearchParams _ | VStr _ => True
  | _ => False
  end.

(** The world in which the transport is called (the timer, if any, is
    set), and the world after the call and the events [evs] that follow. *)
Definition dispatch_world (arms : bool) (final : JsVal) (w : World) : World :=
  armed_world arms (getp final "timeout") w.

Definition fetched (arms : bool) (init final : JsVal) (w : World) (evs : list Event) : World :=
  logged (dispatch_world arms final w) (EvFetch (getp final "url") init :: evs).

(** Events of a success chain. *)
Definition is_fulfilled (e : Event) : bool :=
  match e with
  | EvRunFulfilled _ | EvOnFulfilled _ _ => true
  | _ => false
  end.

(** Events of the [try] block: the transport call, the body readers and
    the response success chain; and of the [try] and [catch] blocks, which
    add the failure chain. *)
Definition is_try (e : Event) : bool :=
  is_fulfilled e || is_decode e || match e with EvFetch _ _ => true | _ => false end.

Definition is_call (e : Event) : bool :=
  is_hook e || is_decode e || match e with EvFetch _ _ => true | _ => false end.

Section Failures.

Variable JSON_stringify : JsVal -> string.
Variable URL_resolve : string -> string -> Completion string.
Variable fetch : JsVal -> JsVal -> list HeaderMap -> Completion Response.
Variable c : Client.

(** The failures of a call, by kind.  [pipeline_failure cfg w E w2 armed w1]:
    the call [core cfg] from world [w] fails with the normalised error [E],
    built in world [w2]; [armed] tells whether the timer was set, which
    happened in world [w1].  The last kind is any failure inside the [try]
    block, which the three before it are cases of; it also covers a
    response hook that throws. *)
Inductive pipeline_failure (cfg : JsVal) (w : World)
  : JsVal -> World -> bool -> World -> Prop :=
| request_hook_rejection final0 w1 e evs :
    core_merge JSON_stringify c cfg w = (Return final0, w1) ->
    success_chain (live_fulfilled (req c)) final0 = (Throw e, evs) ->
    pipeline_failure cfg w
      (makeError (getp e "message" ?? VStr "Request interceptor error")
         final0 VUndefined VUndefined)
      (logged w1 (EvRunFulfilled final0 :: evs)) false w1
| status_failure final w1 r parsed :
    core_prepare JSON_stringify URL_resolve c cfg w = (Return (Dispatch final), w1) ->
    transport fetch final w1 = Return r ->
    parsed_body r = Return parsed ->
    r_status r < 200 \/ 300 <= r_status r ->
    pipeline_failure cfg w
      (status_error r parsed final)
      (fetched (arms_timer final) (fetch_init final) final w1 (decode_events r))
      (arms_timer final) w1
| transport_failure final w1 e :
    core_prepare JSON_stringify URL_resolve c cfg w = (Return (Dispatch final), w1) ->
    transport fetch final w1 = Throw e ->
    truthy (getp e "isAxiosError") = false ->
    is_str (getp e "name") "AbortError" = false ->
    pipeline_failure cfg w
      (makeError (getp e "message" ?? VStr "Network Error") final
         (getp e "response") (getp (getp e "response") "status"))
      (fetched (arms_timer final) (fetch_init final) final w1 [])
      (arms_timer final) w1
| timeout_failure final w1 e :
    core_prepare JSON_stringify URL_resolve c cfg w = (Return (Dispatch final), w1) ->
    transport fetch final w1 = Throw e ->
    truthy (getp e "isAxiosError") = false ->
    is_str (getp e "name") "AbortError" = true ->
    pipeline_failure cfg w
      (makeError (VStr ("timeout of " ++ ToString (getp final "timeout") ++ "ms exceeded"))
         final (getp e "response") (VNum 0))
      (fetched (arms_timer final) (fetch_init final) final w1 [])
      (arms_timer final) w1
| try_failure final w1 e w2 :
    core_prepare JSON_stringify URL_resolve c cfg w = (Return (Dispatch final), w1) ->
    core_try fetch c final (dispatch_world (arms_timer final) final w1) = (Throw e, w2) ->
    pipeline_failure cfg w (normalize final e) w2 (arms_timer final) w1.

End Failures.

(** ** The merged config and the calls of the transport *)

Definition is_fetch (e : Event) : bool :=
  match e with EvFetch _ _ => true | _ => false end.

(** The object the merger builds around the header collection [href] and
    the body [body] it resolved. *)
Definition merged_props (c : Client) (cfg : JsVal) (href : nat) (body : JsVal) : Props :=
  let d := VObj (defaults c) in
  assign "method"
    (VStr (toUpperCase (ToString (getp cfg "method" ?? getp d "method" ?? VStr "GET"))))
  (assign "credentials"
    (if truthy (getp cfg "withCredentials" ?? getp d "withCredentials")
     then VStr "include"
     else getp cfg "credentials" ?? getp d "credentials")
  (assign "data" body
  (assign "headers" (VHeaders href)
  (spread_into (spread_into [] (defaults c)) (own_props cfg))))).

Definition merged (c : Client) (cfg : JsVal) (href : nat) (body : JsVal) : JsVal :=
  VObj (merged_props c cfg href body).

(** The URL [core] settles on once the request hooks returned [final]. *)
Definition resolved_url (URL_resolve : string -> string -> Completion string)
    (c : Client) (cfg final : JsVal) : Completion JsVal :=
  let base := getp final "baseURL" ?? getp (VObj (defaults c)) "baseURL" in
  let url := getp final "url" ?? getp cfg "url" ?? VStr "" in
  if truthy base && truthy url then combine URL_resolve base (ToString url) else Return url.

(** The config objects the method shortcuts build:
    [{ ...(c ?? {}), url: u, method }] and [{ ...(c ?? {}), url: u, data: b, method }]. *)
Definition shortcut_config (method : string) (u cfg : JsVal) : JsVal :=
  VObj (assign "method" (VStr method)
       (assign "url" u (spread_into [] (own_props (cfg ?? VObj []))))).

Definition shortcut_body_config (method : string) (u b cfg : JsVal) : JsVal :=
  VObj (assign "method" (VStr method)
       (assign "data" b
       (assign "url" u (spread_into [] (own_props (cfg ?? VObj [])))))).

(** What decoding leaves in [parsed] in the earlier revision, where the
    status is not looked at. *)
Definition legacy_parsed_body (r : Response) : Completion JsVal :=
  if includes (default "" (response_header r "content-type")) "application/json"
  then match r_json r with
       | Return v => Return v
       | Throw _ => Return VNull
       | Pending => Pending
       end
  else match r_text r with
       | Return s => Return (VStr s)
       | Throw _ => Return (VStr "")
       | Pending => Pending
       end.

Definition reader_event (r : Response) : Event :=
  if includes (default "" (response_header r "content-type")) "application/json"
  then EvJson else EvText.

(** The world of a call of the earlier revision once it settled: the
    timer (if any) set, the transport call, the events [evs], and the
    timer cleared. *)
Definition legacy_settled (final : JsVal) (w : World) (evs : list Event) : World :=
  disarmed_world (Legacy.arms_timer final) w
    (logged (armed_world (Legacy.arms_timer final) (getp final "timeout") w)
       (EvFetch (getp final "url") (Legacy.fetch_init final) :: evs)).

(** ** A platform and clients for the scenarios *)

Module Scenario.

Definition dq : string := String (ascii_of_nat 34) EmptyString.

(** A JSON printer for the bodies used below: strings are quoted as they
    are, numbers are integers. *)
Fixpoint stringify (v : JsVal) : string :=
  match v with
  | VNull => "null"
  | VBool true => "true"
  | VBool false => "false"
  | VNum n => Z_to_string n
  | VStr s => dq ++ s ++ dq
  | VObj props =>
      "{" ++ (fix members (l : list (string * JsVal)) : string :=
                match l with
                | [] => ""
                | [(k, x)] => dq ++ k ++ dq ++ ":" ++ stringify x
                | (k, x) :: r => dq ++ k ++ dq ++ ":" ++ stringify x ++ "," ++ members r
                end) props ++ "}"
  | VArr items =>
      "[" ++ (fix elements (l : list JsVal) : string :=
                match l with
                | [] => ""
                | [x] => stringify x
                | x :: r => stringify x ++ "," ++ elements r
                end) items ++ "]"
  | _ => "{}"
  end.

(** URL resolution for relative references without dots, against a base
    that ends in a slash. *)
Definition resolve (rel base : string) : Completion string := Return (base ++ rel).

Definition w0 : World := mkWorld [] [].

(** [createHttp()] *)
Definition http : Client := createHttp VUndefined.

Definition missing : JsVal := VObj [("error", VStr "missing")].

(** A transport that answers 404 with the JSON body [{"error":"missing"}]. *)
Definition resp404 : Response :=
  mkResponse 404 [("content-type", "application/json")]
    (Return missing) (Return (stringify missing)).

Definition fetch404 (url init : JsVal) (h : list HeaderMap) : Completion Response :=
  Return resp404.

(** A transport that never answers, and rejects when its signal aborts. *)
Definition AbortError : JsVal :=
  VObj [("name", VStr "AbortError"); ("message", VStr "This operation was aborted")].

Definition fetch_never (url init : JsVal) (h : list HeaderMap) : Completion Response :=
  match getp init "signal" with
  | VSignal _ => Throw AbortError
  | _ => Pending
  end.

(** A transport whose rejection on abort is already a structured error. *)
Definition AbortError_structured : JsVal :=
  VObj [("name", VStr "AbortError"); ("message", VStr "x");
        ("isAxiosError", VBool true); ("status", VNum 7)].

Definition fetch_aborted_structured (url init : JsVal) (h : list HeaderMap)
    : Completion Response :=
  match getp init "signal" with
  | VSignal _ => Throw AbortError_structured
  | _ => Pending
  end.

(** A transport that never answers a call made with a token of the caller
    that times out ([AbortSignal.timeout]), and rejects with the reason of
    that token. *)
Definition TimeoutReason : JsVal :=
  VObj [("name", VStr "TimeoutError");
        ("message", VStr "The operation was aborted due to timeout")].

Definition fetch_token (url init : JsVal) (h : list HeaderMap) : Completion Response :=
  match getp init "signal" with
  | VSignal (CallerSignal _) => Throw TimeoutReason
  | _ => Pending
  end.

(** Failure callbacks: one that recovers with a response-shaped value, one
    that throws an error of its own. *)
Definition fallback : Callback :=
  fun _ => Return (VObj [("status", VNum 200); ("data", VStr "fallback")]).

Definition boom : JsVal := VObj [("name", VStr "Error"); ("message", VStr "boom")].

Definition rethrow_boom : Callback := fun _ => Throw boom.

Definition http_fallback : Client := fst (use_response None (Some fallback) http).
Definition http_boom : Client := fst (use_response None (Some rethrow_boom) http).

Definition get_missing : JsVal := VObj [("url", VStr "https://api.test/missing")].
Definition get_slow : JsVal := VObj [("url", VStr "https://api.test/slow"); ("timeout", VNum 50)].

(** Success callbacks that tag the value they are given. *)
Definition tag (t : string) : Callback :=
  fun v => Return (VArr [VStr t; v]).

(** The resolved configs of the two calls, and the worlds in which they
    reach dispatch. *)
Definition final_missing : JsVal :=
  VObj [("method", VStr "GET"); ("headers", VHeaders 0);
        ("url", VStr "https://api.test/missing");
        ("data", VUndefined); ("credentials", VUndefined)].

Definition final_slow : JsVal :=
  VObj [("method", VStr "GET"); ("headers", VHeaders 0);
        ("url", VStr "https://api.test/slow"); ("timeout", VNum 50);
        ("data", VUndefined); ("credentials", VUndefined)].

Definition get_token : JsVal :=
  VObj [("url", VStr "https://api.test/slow"); ("signal", VSignal (CallerSignal 0))].

Definition final_token : JsVal :=
  VObj [("method", VStr "GET"); ("headers", VHeaders 0);
        ("url", VStr "https://api.test/slow"); ("signal", VSignal (CallerSignal 0));
        ("data", VUndefined); ("credentials", VUndefined)].

Definition reached (final : JsVal) : World :=
  mkWorld [∅; ∅] [EvRunFulfilled final].

(** A transport that answers 200 with a body that is not the JSON its
    content type announces. *)
Definition resp_bad_json : Response :=
  mkResponse 200 [("content-type", "application/json")]
    (Throw (VObj [("name", VStr "SyntaxError"); ("message", VStr "Unexpected token")]))
    (Return "<html>").

Definition fetch_bad_json (url init : JsVal) (h : list HeaderMap) : Completion Response :=
  Return resp_bad_json.

Definition resp204 : Response :=
  mkResponse 204 [] (Throw (TypeError "Unexpected end of JSON input")) (Return "").

Definition fetch204 (url init : JsVal) (h : list HeaderMap) : Completion Response :=
  Return resp204.

(** A call with a structured body, and a call with a header of its own. *)
Definition post_item : JsVal :=
  VObj [("url", VStr "https://api.test/items"); ("method", VStr "post");
        ("data", VObj [("a", VNum 1)])].

Definition get_traced : JsVal :=
  VObj [("url", VStr "https://api.test/items"); ("headers", VObj [("X-Trace", VStr "1")])].

(** The client after [http.setHeader("X-App", "next")]: its default headers
    are now the Headers instance 0. *)
Definition http_app : Client :=
  mkClient [("method", VStr "GET"); ("headers", VHeaders 0)] [] [].

Definition w_app : World := mkWorld [{["x-app" := "next"]}] [].

(** The default headers a later call would start from. *)
Definition default_headers (c : Client) (w : World) : Completion HeaderMap :=
  headers_view w (getp (VObj (defaults c)) "headers").

(** Three registrations and the ejection of the second. *)
Definition three_hooks_one_ejected : list Op :=
  [OpUse (Some (tag "a")) None; OpUse (Some (tag "b")) None;
   OpUse (Some (tag "c")) None; OpEject 1].

(** The timeout error of the slow call. *)
Definition timeout_error : JsVal :=
  makeError (VStr "timeout of 50ms exceeded") final_slow VUndefined (VNum 0).

(** A request callback that throws, and callbacks that do not return
    what they were given. *)
Definition forget : Callback := fun _ => Return VUndefined.

Definition http_req_boom : Client := fst (use_request (Some rethrow_boom) None http).
Definition http_req_forget : Client := fst (use_request (Some forget) None http).
Definition http_res_forget : Client := fst (use_response (Some forget) None http).

(** A transport that cannot connect. *)
Definition fetch_down (url init : JsVal) (h : list HeaderMap) : Completion Response :=
  Throw (TypeError "fetch failed").

(** A transport that answers 200 with the JSON body [{"id":1}]. *)
Definition item : JsVal := VObj [("id", VNum 1)].

Definition resp_ok : Response :=
  mkResponse 200 [("content-type", "application/json")]
    (Return item) (Return (stringify item)).

Definition fetch_ok (url init : JsVal) (h : list HeaderMap) : Completion Response :=
  Return resp_ok.

(** Calls: one with a header name the platform refuses, one with a cache
    option of the framework, one with a structured body sent as text. *)
Definition get_bad_header : JsVal :=
  VObj [("url", VStr "https://api.test/items"); ("headers", VObj [("bad name", VStr "x")])].

Definition cache_option : JsVal :=
  VObj [("revalidate", VNum 300); ("tags", VArr [VStr "posts"])].

Definition get_cached : JsVal :=
  VObj [("url", VStr "https://api.test/posts"); ("next", cache_option)].

Definition final_cached : JsVal :=
  VObj [("method", VStr "GET"); ("headers", VHeaders 0);
        ("url", VStr "https://api.test/posts"); ("next", cache_option);
        ("data", VUndefined); ("credentials", VUndefined)].

Definition post_text : JsVal :=
  VObj [("url", VStr "https://api.test/items"); ("method", VStr "POST");
        ("headers", VObj [("Content-Type", VStr "text/plain")]);
        ("data", VObj [("a", VNum 1)])].

(** The merged configs of some calls. *)
Definition merged_post_item : JsVal :=
  VObj [("method", VStr "POST"); ("headers", VHeaders 0);
        ("url", VStr "https://api.test/items");
        ("data", VStr (stringify (VObj [("a", VNum 1)])));
        ("credentials", VUndefined)].

Definition merged_post_with_cookies : JsVal :=
  VObj [("method", VStr "POST"); ("headers", VHeaders 0);
        ("url", VStr "https://api.test/items");
        ("withCredentials", VBool true); ("credentials", VStr "include");
        ("data", VUndefined)].

(** [post("https://api.test/items", "hello", { method: "GET", data: "ignored" })] *)
Definition post_hello : JsVal :=
  shortcut_body_config "POST" (VStr "https://api.test/items") (VStr "hello")
    (VObj [("method", VStr "GET"); ("data", VStr "ignored")]).

Definition merged_post_hello : JsVal :=
  VObj [("method", VStr "POST"); ("headers", VHeaders 0);
        ("data", VStr "hello"); ("url", VStr "https://api.test/items");
        ("credentials", VUndefined)].

(** A call with cookies. *)
Definition post_with_cookies : JsVal :=
  VObj [("url", VStr "https://api.test/items"); ("method", VStr "POST");
        ("withCredentials", VBool true); ("credentials", VStr "omit")].

(** The client after [http.setBaseURL("https://api.test/v1")], a call with
    a relative URL, its merged config and its resolved config. *)
Definition http_v1 : Client := setBaseURL (VStr "https://api.test/v1") http.

Definition get_users : JsVal := VObj [("url", VStr "/users")].

Definition merged_users : JsVal :=
  VObj [("method", VStr "GET"); ("headers", VHeaders 0);
        ("baseURL", VStr "https://api.test/v1"); ("url", VStr "/users");
        ("data", VUndefined); ("credentials", VUndefined)].

Definition final_users : JsVal :=
  VObj [("method", VStr "GET"); ("headers", VHeaders 0);
        ("baseURL", VStr "https://api.test/v1"); ("url", VStr "https://api.test/v1/users");
        ("data", VUndefined); ("credentials", VUndefined)].

(** The earlier revision: a client, and one whose request callback throws. *)
Definition legacy_http : Legacy.Client := Legacy.createHttp VUndefined.

Definition legacy_http_boom : Legacy.Client :=
  Legacy.mkClient (Legacy.defaults legacy_http) [Some rethrow_boom] [].

Definition legacy_final_missing : JsVal :=
  VObj [("method", VStr "GET"); ("headers", VHeaders 0);
        ("url", VStr "https://api.test/missing");
        ("credentials", VUndefined); ("data", VUndefined)].

Definition legacy_final_slow : JsVal :=
  VObj [("method", VStr "GET"); ("headers", VHeaders 0);
        ("url", VStr "https://api.test/slow"); ("timeout", VNum 50);
        ("credentials", VUndefined); ("data", VUndefined)].

End Scenario.
(** ** Lemmas on the monad *)

Lemma logged_nil w : logged w [] = w.
Proof. destruct w. unfold logged. simpl. by rewrite app_nil_r. Qed.

Lemma logged_logged w a b : logged (logged w a) b = logged w (a ++ b).
Proof. unfold logged. simpl. by rewrite app_assoc. Qed.

Lemma emit_logged e w : emit e w = (Return tt, logged w [e]).
Proof. reflexivity. Qed.

Lemma bind_Return {A B} (m : M A) (k : A -> M B) w a w' :
  m w = (Return a, w') -> bind m k w = k a w'.
Proof. intros H. unfold bind. by rewrite H. Qed.

Lemma bind_Throw {A B} (m : M A) (k : A -> M B) w e w' :
  m w = (Throw e, w') -> bind m k w = (Throw e, w').
Proof. intros H. unfold bind. by rewrite H. Qed.

Lemma bind_Pending {A B} (m : M A) (k : A -> M B) w w' :
  m w = (Pending, w') -> bind m k w = (Pending, w').
Proof. intros H. unfold bind. by rewrite H. Qed.

(** *** What a computation logs *)

Lemma silent_appends {A} P (m : M A) : silent m -> appends P m.
Proof.
  intros H w c w' Hm. exists []. split; [|constructor].
  rewrite app_nil_r. by eapply H.
Qed.

Lemma appends_mono {A} (P Q : Event -> bool) (m : M A) :
  (forall e, P e = true -> Q e = true) -> appends P m -> appends Q m.
Proof.
  intros HPQ H w c w' Hm. destruct (H w c w' Hm) as (evs & Hl & Hall).
  exists evs. split; [done|]. eapply Forall_impl; [exact Hall|]. auto.
Qed.

Lemma silent_ret {A} (a : A) : silent (ret a).
Proof. intros w c w' [= _ <-]. done. Qed.

Lemma silent_throw {A} e : silent (@throw A e).
Proof. intros w c w' [= _ <-]. done. Qed.

Lemma silent_await {A} (o : Completion A) : silent (await o).
Proof. intros w c w' [= _ <-]. done. Qed.

Lemma silent_bind {A B} (m : M A) (k : A -> M B) :
  silent m -> (forall a, silent (k a)) -> silent (bind m k).
Proof.
  intros Hm Hk w c w'. unfold bind.
  destruct (m w) as [[a|e|] w1] eqn:E; pose proof (Hm _ _ _ E) as H1.
  - intros H2%Hk. congruence.
  - intros [= _ <-]. done.
  - intros [= _ <-]. done.
Qed.

Lemma appends_bind {A B} P (m : M A) (k : A -> M B) :
  appends P m -> (forall a, appends P (k a)) -> appends P (bind m k).
Proof.
  intros Hm Hk w c w'. unfold bind.
  destruct (m w) as [[a|e|] w1] eqn:E; destruct (Hm _ _ _ E) as (ev1 & Hl1 & Hall1).
  - intros (ev2 & Hl2 & Hall2)%Hk. exists (ev1 ++ ev2)%list.
    split; [by rewrite Hl2, Hl1, app_assoc | by apply Forall_app].
  - intros [= _ <-]. by exists ev1.
  - intros [= _ <-]. by exists ev1.
Qed.

Lemma appends_try_catch {A} P (m : M A) (h : JsVal -> M A) :
  appends P m -> (forall e, appends P (h e)) -> appends P (try_catch m h).
Proof.
  intros Hm Hh w c w'. unfold try_catch.
  destruct (m w) as [[a|e|] w1] eqn:E; destruct (Hm _ _ _ E) as (ev1 & Hl1 & Hall1).
  - intros [= _ <-]. by exists ev1.
  - intros (ev2 & Hl2 & Hall2)%Hh. exists (ev1 ++ ev2)%list.
    split; [by rewrite Hl2, Hl1, app_assoc | by apply Forall_app].
  - intros [= _ <-]. by exists ev1.
Qed.

Lemma appends_emit P e : P e = true -> appends P (emit e).
Proof.
  intros HP w c w' [= _ <-]. exists [e]. split; [done|]. by constructor.
Qed.

Lemma silent_member v k : silent (member v k).
Proof. unfold member. destruct (nullish v); [apply silent_throw | apply silent_ret]. Qed.

Lemma silent_set_member v k x : silent (set_member v k x).
Proof. destruct v; simpl; first [apply silent_throw | apply silent_ret]. Qed.

Lemma silent_headers_new m : silent (headers_new m).
Proof. intros w c w' [= _ <-]. done. Qed.

Lemma silent_headers_update ref f : silent (headers_update ref f).
Proof. intros w c w' [= _ <-]. done. Qed.

Lemma silent_headers_read ref : silent (headers_read ref).
Proof. intros w c w' [= _ <-]. done. Qed.

Lemma silent_toHeaders h : silent (toHeaders h).
Proof.
  destruct h; simpl; try apply silent_ret;
    (apply silent_bind; [apply silent_await | intros; apply silent_headers_new]).
Qed.

Create HintDb quiet.

#[local] Hint Resolve silent_ret silent_throw silent_await silent_member silent_set_member
  silent_headers_new silent_headers_update silent_headers_read silent_toHeaders : quiet.

Ltac quiet :=
  repeat first
    [ progress auto with quiet
    | match goal with |- silent (bind _ _) => apply silent_bind; [|intros] end
    | match goal with |- silent (if ?b then _ else _) => destruct b end
    | match goal with |- silent (match ?x with _ => _ end) => destruct x end ].

Lemma silent_headers_set ref k v : silent (headers_set ref k v).
Proof. unfold headers_set. quiet. Qed.

Lemma silent_headers_delete ref k : silent (headers_delete ref k).
Proof. unfold headers_delete. quiet. Qed.

Lemma silent_headers_has ref k : silent (headers_has ref k).
Proof. unfold headers_has. quiet. Qed.

Lemma silent_headers_get ref k : silent (headers_get ref k).
Proof. unfold headers_get. quiet. Qed.

Lemma silent_headers_forEach_set src dst : silent (headers_forEach_set src dst).
Proof. unfold headers_forEach_set. quiet. Qed.

#[local] Hint Resolve silent_headers_set silent_headers_delete silent_headers_has
  silent_headers_get silent_headers_forEach_set : quiet.

(** *** The store under the hook chains *)

Lemma filter_none (P : Event -> bool) evs :
  Forall (fun e => P e = false) evs -> List.filter P evs = [].
Proof.
  induction 1 as [|e evs He _ IH]; simpl; [done|]. by rewrite He.
Qed.

Lemma chain_events_fulfilled l : forall v,
  Forall (fun e => is_fulfilled e = true) (snd (success_chain l v)).
Proof.
  induction l as [|[i f] l IH]; intros v; simpl; [constructor|].
  destruct (f v) as [v'| |]; try (by repeat constructor).
  specialize (IH v'). destruct (success_chain l v'). by constructor.
Qed.

Lemma failure_events_hooks l : forall e,
  Forall (fun e => is_hook e = true) (snd (failure_chain l e)).
Proof.
  induction l as [|[i f] l IH]; intros e; simpl; [constructor|].
  destruct (f e) as [v|next|]; try (by repeat constructor).
  specialize (IH next). destruct (failure_chain l next). by constructor.
Qed.

Lemma failure_chain_rethrown l : forall E,
  (forall i f, (i, f) ∈ l -> f E = Throw E) ->
  fst (failure_chain l E) = Throw E.
Proof.
  induction l as [|[i f] l IH]; intros E Hall; simpl; [done|].
  rewrite (Hall i f) by apply list_elem_of_here.
  specialize (IH E). destruct (failure_chain l E). simpl in *.
  apply IH. intros j g Hj. apply (Hall j g). by apply list_elem_of_further.
Qed.

Lemma failure_events_not_entry l : forall e,
  Forall (fun e => is_run_rejected e = false) (snd (failure_chain l e)).
Proof.
  induction l as [|[i f] l IH]; intros e; simpl; [constructor|].
  destruct (f e) as [v|next|]; try (by repeat constructor).
  specialize (IH next). destruct (failure_chain l next). by constructor.
Qed.

Lemma chain_events_not_rejected l : forall v,
  Forall (fun e => is_run_rejected e = false) (snd (success_chain l v)).
Proof.
  induction l as [|[i f] l IH]; intros v; simpl; [constructor|].
  destruct (f v) as [v'| |]; try (by repeat constructor).
  specialize (IH v'). destruct (success_chain l v'). by constructor.
Qed.

(** ** Lemmas on the registry *)

Lemma runFulfilled_from_chain hs : forall i v w,
  runFulfilled_from i hs v w
  = (fst (success_chain (live_from onFulfilled i hs) v),
     logged w (snd (success_chain (live_from onFulfilled i hs) v))).
Proof.
  induction hs as [|h rest IH]; intros i v w; simpl.
  - by rewrite logged_nil.
  - destruct h as [[[f|] onR]|]; simpl; [|apply IH..].
    unfold bind at 1. rewrite emit_logged.
    unfold bind, await. destruct (f v) as [v'| |]; try done.
    rewrite IH, logged_logged. simpl.
    by destruct (success_chain (live_from onFulfilled (S i) rest) v').
Qed.

Lemma runRejected_from_chain hs : forall i e w,
  runRejected_from i hs e w
  = (fst (failure_chain (live_from onRejected i hs) e),
     logged w (snd (failure_chain (live_from onRejected i hs) e))).
Proof.
  induction hs as [|h rest IH]; intros i e w; simpl.
  - by rewrite logged_nil.
  - destruct h as [[onF [f|]]|]; simpl; [|apply IH..].
    unfold bind at 1. rewrite emit_logged.
    unfold try_catch, await. destruct (f e) as [v|next|]; try done.
    rewrite IH, logged_logged. simpl.
    by destruct (failure_chain (live_from onRejected (S i) rest) next).
Qed.

Lemma runFulfilled_chain hs v w :
  runFulfilled hs v w
  = (fst (success_chain (live_fulfilled hs) v),
     logged w (EvRunFulfilled v :: snd (success_chain (live_fulfilled hs) v))).
Proof.
  unfold runFulfilled, bind. rewrite emit_logged, runFulfilled_from_chain.
  by rewrite logged_logged.
Qed.

Lemma runRejected_chain hs e w :
  runRejected hs e w
  = (fst (failure_chain (live_rejected hs) e),
     logged w (EvRunRejected e :: snd (failure_chain (live_rejected hs) e))).
Proof.
  unfold runRejected, bind. rewrite emit_logged, runRejected_from_chain.
  by rewrite logged_logged.
Qed.

Lemma elem_of_live_from sel hs : forall n i f,
  (i, f) ∈ live_from sel n hs
  <-> exists j h, i = (n + j)%nat /\ hs !! j = Some (Some h) /\ sel h = Some f.
Proof.
  induction hs as [|h rest IH]; intros n i f; simpl.
  - split; [by intros ?%elem_of_nil | by intros (j & h & _ & ? & _)].
  - assert (Hrest : (i, f) ∈ live_from sel (S n) rest
                    <-> exists j h', i = (n + S j)%nat /\ rest !! j = Some (Some h') /\ sel h' = Some f).
    { rewrite IH. split; intros (j & h' & ? & ? & ?); exists j, h'; split_and!; auto; lia. }
    destruct h as [h|]; simpl.
    + destruct (sel h) as [g|] eqn:Hsel.
      * rewrite elem_of_cons, Hrest. split.
        -- intros [Heq | (j & h' & ? & ? & ?)].
           ++ injection Heq as -> ->. exists 0%nat, h. split_and!; auto; lia.
           ++ exists (S j), h'. by split_and!.
        -- intros ([|j] & h' & Hi & Hl & Hs); simpl in Hl.
           ++ injection Hl as <-. left. rewrite Hsel in Hs. injection Hs as <-.
              f_equal. lia.
           ++ right. by exists j, h'.
      * rewrite Hrest. split.
        -- intros (j & h' & ? & ? & ?). exists (S j), h'. by split_and!.
        -- intros ([|j] & h' & Hi & Hl & Hs); simpl in Hl.
           ++ injection Hl as <-. congruence.
           ++ by exists j, h'.
    + rewrite Hrest. split.
      * intros (j & h' & ? & ? & ?). exists (S j), h'. by split_and!.
      * intros ([|j] & h' & Hi & Hl & Hs); simpl in Hl; [done|]. by exists j, h'.
Qed.

Lemma live_from_lower sel hs : forall n,
  Forall (fun p => (n <= fst p)%nat) (live_from sel n hs).
Proof.
  induction hs as [|h rest IH]; intros n; simpl; [constructor|].
  assert (Forall (fun p => (n <= fst p)%nat) (live_from sel (S n) rest)).
  { eapply Forall_impl; [apply IH|]. simpl. intros; lia. }
  destruct (h ≫= sel); [constructor; simpl; auto|done].
Qed.

Lemma live_from_sorted sel hs : forall n,
  StronglySorted (fun p q => (fst p < fst q)%nat) (live_from sel n hs).
Proof.
  induction hs as [|h rest IH]; intros n; simpl; [constructor|].
  destruct (h ≫= sel); [|apply IH].
  constructor; [apply IH|].
  eapply Forall_impl; [apply (live_from_lower sel rest (S n))|]. simpl. intros; lia.
Qed.

Lemma apply_ops_snoc ops op hs :
  apply_ops (ops ++ [op]) hs = apply_op op (apply_ops ops hs).
Proof. unfold apply_ops. by rewrite fold_left_app. Qed.

Lemma registrations_snoc ops op :
  registrations (ops ++ [op])
  = (registrations ops ++ match op with
                          | OpUse onF onR => [mkHandler onF onR]
                          | OpEject _ => []
                          end)%list.
Proof. unfold registrations. rewrite omap_app. by destruct op. Qed.

Lemma ejected_from_snoc ops op : forall n k,
  ejected_from n k (ops ++ [op])
  = ejected_from n k ops
    || match op with
       | OpEject id =>
           bool_decide (id = Z.of_nat k) && (k <? n + length (registrations ops))%nat
       | OpUse _ _ => false
       end.
Proof.
  induction ops as [|o ops IH]; intros n k; simpl.
  - destruct op; simpl; [done|]. by rewrite Nat.add_0_r, orb_false_r.
  - destruct o; simpl.
    + rewrite IH. destruct op; [done|]. by rewrite Nat.add_succ_r.
    + rewrite IH. by rewrite orb_assoc.
Qed.

Lemma ejected_from_issued ops : forall n k,
  ejected_from n k ops = true -> (k < n + length (registrations ops))%nat.
Proof.
  induction ops as [|o ops IH]; intros n k; simpl; [done|].
  destruct o; simpl.
  - intros H%IH. lia.
  - intros [[_ H%Nat.ltb_lt]%andb_true_iff | H%IH]%orb_true_iff; lia.
Qed.

Lemma use_snoc onF onR hs :
  use onF onR hs = ((hs ++ [Some (mkHandler onF onR)])%list, Z.of_nat (length hs)).
Proof. unfold use. f_equal. rewrite length_app. simpl. lia. Qed.

Lemma slot_Some hs id x :
  slot hs id = Some x <-> 0 <= id /\ hs !! Z.to_nat id = Some x.
Proof.
  unfold slot. destruct (0 <=? id) eqn:E.
  - apply Z.leb_le in E. tauto.
  - apply Z.leb_gt in E. split; [done | lia].
Qed.

(** Slot by slot, the registry is the history: the [k]-th registration, or
    [None] once it was ejected; nothing is ever moved. *)
Lemma registry_history ops :
  length (apply_ops ops []) = length (registrations ops)
  /\ forall k, apply_ops ops [] !! k
               = (fun h => if ejected k ops then None else Some h) <$> registrations ops !! k.
Proof.
  induction ops as [|op ops [IHlen IH]] using rev_ind; [by split|].
  rewrite apply_ops_snoc, registrations_snoc. unfold ejected in *.
  destruct op as [onF onR|id]; unfold apply_op.
  - rewrite use_snoc. simpl fst. split; [rewrite !length_app; simpl; lia|].
    intros k. rewrite ejected_from_snoc, orb_false_r.
    destruct (decide (k < length (registrations ops))%nat) as [Hk|Hk].
    + rewrite !lookup_app_l by lia. apply IH.
    + assert (Hne : ejected_from 0 k ops = false).
      { destruct (ejected_from 0 k ops) eqn:E; [|done].
        apply ejected_from_issued in E. lia. }
      rewrite Hne. rewrite !lookup_app_r by lia.
      rewrite IHlen. by destruct (k - length (registrations ops))%nat as [|[|]].
  - rewrite app_nil_r.
    assert (Hother : forall k, Z.of_nat k <> id ->
              ejected_from 0 k (ops ++ [OpEject id]) = ejected_from 0 k ops).
    { intros k Hk. rewrite ejected_from_snoc. rewrite bool_decide_eq_false_2 by lia.
      by rewrite orb_false_r. }
    unfold eject. destruct (slot (apply_ops ops []) id) as [[h|]|] eqn:Hslot.
    + apply slot_Some in Hslot as [Hid Hl]. split; [by rewrite length_insert|].
      intros k. destruct (decide (k = Z.to_nat id)) as [->|Hk].
      * rewrite list_lookup_insert_eq by (by eapply lookup_lt_Some).
        rewrite IH in Hl. destruct (registrations ops !! Z.to_nat id) as [h'|] eqn:Hr; [|done].
        simpl. rewrite ejected_from_snoc. rewrite bool_decide_eq_true_2 by lia.
        apply lookup_lt_Some in Hr. simpl.
        replace (Z.to_nat id <? length (registrations ops))%nat with true
          by (symmetry; apply Nat.ltb_lt; lia).
        by rewrite orb_true_r.
      * rewrite list_lookup_insert_ne by done. rewrite IH, Hother by lia. done.
    + apply slot_Some in Hslot as [Hid Hl]. split; [done|].
      intros k. rewrite IH. destruct (decide (k = Z.to_nat id)) as [->|Hk].
      * rewrite IH in Hl. destruct (registrations ops !! Z.to_nat id) as [h'|]; [|done].
        simpl in *. destruct (ejected_from 0 (Z.to_nat id) ops) eqn:E; [|done].
        by rewrite ejected_from_snoc, E.
      * by rewrite Hother by lia.
    + split; [done|]. intros k. rewrite IH.
      destruct (decide (Z.of_nat k = id)) as [<-|Hk]; [|by rewrite Hother].
      unfold slot in Hslot. rewrite (proj2 (Z.leb_le 0 (Z.of_nat k))) in Hslot by lia.
      rewrite Nat2Z.id, IH in Hslot.
      by destruct (registrations ops !! k).
Qed.

Lemma eject_eject id hs : eject id (eject id hs) = eject id hs.
Proof.
  unfold eject at 2 3. destruct (slot hs id) as [[h|]|] eqn:Hslot.
  - unfold eject. pose proof Hslot as [Hid Hl]%slot_Some.
    assert (slot (<[Z.to_nat id := None]> hs) id = Some None) as ->; [|done].
    apply slot_Some. split; [done|]. apply list_lookup_insert_eq.
    by eapply lookup_lt_Some.
  - unfold eject. by rewrite Hslot.
  - unfold eject. by rewrite Hslot.
Qed.

Lemma eject_unissued id hs :
  ~ (0 <= id < Z.of_nat (length hs)) -> eject id hs = hs.
Proof.
  intros Hid. unfold eject.
  destruct (slot hs id) as [x|] eqn:Hslot; [|done].
  apply slot_Some in Hslot as [? Hl]. apply lookup_lt_Some in Hl. lia.
Qed.

(** ** Lemmas on the pipeline *)

Section PipelineFacts.

Variable JSON_stringify : JsVal -> string.
Variable URL_resolve : string -> string -> Completion string.
Variable fetch : JsVal -> JsVal -> list HeaderMap -> Completion Response.
Variable c : Client.

Lemma decode_body_spec r w :
  decode_body r w = (parsed_body r, logged w (decode_events r)).
Proof.
  unfold decode_body, parsed_body, decode_events, bodiless.
  destruct ((r_status r =? 204) || (r_status r =? 205)).
  - unfold ret. by rewrite logged_nil.
  - destruct (includes _ _); unfold try_catch, bind, await, ret; rewrite emit_logged.
    + by destruct (r_json r).
    + by destruct (r_text r).
Qed.

Lemma recover_spec err w :
  recover c err w
  = (match fst (failure_chain (live_rejected (res c)) err) with
     | Return maybe => Return (recovered_value maybe)
     | o => o
     end,
     logged w (EvRunRejected err :: snd (failure_chain (live_rejected (res c)) err))).
Proof.
  unfold recover, try_catch, bind. rewrite runRejected_chain.
  destruct (failure_chain (live_rejected (res c)) err) as [[maybe|e|] evs]; simpl; try done.
  unfold recovered_value. by destruct (_ && _).
Qed.

Lemma core_dispatch_spec final w :
  core_dispatch fetch c final w
  = finish_timer (arms_timer final) w
      (try_catch (core_try fetch c final) (fun e => recover c (normalize final e))
         (armed_world (arms_timer final) (getp final "timeout") w)).
Proof.
  unfold core_dispatch, armed_world, disarmed_world, finish_timer, bind at 1.
  destruct (arms_timer final).
  - unfold bind at 1, setTimeout, ret, try_finally. simpl.
    fold (timer_id w). fold (logged w [EvSetTimeout (timer_id w) (getp final "timeout")]).
    destruct (try_catch _ _ _) as [[v|e|] w2]; done.
  - unfold ret, try_finally.
    destruct (try_catch _ _ _) as [[v|e|] w2]; simpl; try done.
    all: by destruct w2.
Qed.

Lemma transport_log final w evs :
  transport fetch final (logged w evs) = transport fetch final w.
Proof. reflexivity. Qed.

Lemma core_try_response final w r :
  transport fetch final w = Return r ->
  core_try fetch c final w
  = match parsed_body r with
    | Return parsed =>
        let w1 := logged w (EvFetch (getp final "url") (fetch_init final) :: decode_events r) in
        if (r_status r <? 200) || (r_status r >=? 300)
        then (Throw (status_error r parsed final), w1)
        else (do processed <- runFulfilled (res c) (wrap r parsed final);
              member processed "data") w1
    | Throw e => (Throw e, logged w (EvFetch (getp final "url") (fetch_init final) :: decode_events r))
    | Pending => (Pending, logged w (EvFetch (getp final "url") (fetch_init final) :: decode_events r))
    end.
Proof.
  intros Hr. unfold core_try, bind at 1, do_fetch. rewrite Hr.
  fold (logged w [EvFetch (getp final "url") (fetch_init final)]).
  unfold bind at 1. rewrite decode_body_spec, logged_logged. simpl.
  destruct (parsed_body r); try done.
  by destruct (_ || _).
Qed.

Lemma core_try_reject final w e :
  transport fetch final w = Throw e ->
  core_try fetch c final w
  = (Throw e, logged w [EvFetch (getp final "url") (fetch_init final)]).
Proof. intros Hr. unfold core_try, bind at 1, do_fetch. by rewrite Hr. Qed.

Lemma core_spec cfg w :
  core JSON_stringify URL_resolve fetch c cfg w
  = match core_prepare JSON_stringify URL_resolve c cfg w with
    | (Return (Dispatch final), w1) => core_dispatch fetch c final w1
    | (Return (Done v), w1) => (Return v, w1)
    | (Throw e, w1) => (Throw e, w1)
    | (Pending, w1) => (Pending, w1)
    end.
Proof.
  unfold core, bind.
  destruct (core_prepare _ _ _ _ _) as [[[final|v]|e|] w1]; done.
Qed.

Lemma normalize_status_error final r parsed :
  normalize final (status_error r parsed final) = status_error r parsed final.
Proof. reflexivity. Qed.

Lemma appends_runFulfilled_only hs v : appends is_fulfilled (runFulfilled hs v).
Proof.
  intros w o w'. rewrite runFulfilled_chain. intros [= _ <-].
  eexists. split; [reflexivity|]. constructor; [done | apply chain_events_fulfilled].
Qed.

Lemma appends_runFulfilled hs v : appends is_hook (runFulfilled hs v).
Proof. eapply appends_mono; [|apply appends_runFulfilled_only]. by intros []. Qed.

Lemma appends_runRejected hs e : appends is_hook (runRejected hs e).
Proof.
  intros w o w'. rewrite runRejected_chain. intros [= _ <-].
  eexists. split; [reflexivity|]. constructor; [done | apply failure_events_hooks].
Qed.

Lemma appends_recover err : appends is_hook (recover c err).
Proof.
  intros w o w'. rewrite recover_spec. intros [= _ <-].
  eexists. split; [reflexivity|]. constructor; [done | apply failure_events_hooks].
Qed.

Lemma silent_core_merge cfg : silent (core_merge JSON_stringify c cfg).
Proof.
  unfold core_merge. quiet.
Qed.

Lemma silent_core_resolve cfg final : silent (core_resolve URL_resolve c cfg final).
Proof. unfold core_resolve. quiet. Qed.

Lemma appends_core_request_hooks final : appends is_hook (core_request_hooks c final).
Proof.
  unfold core_request_hooks. apply appends_try_catch.
  - apply appends_bind; [apply appends_runFulfilled|].
    intros. apply silent_appends, silent_ret.
  - intros e. apply appends_bind; [apply appends_recover|].
    intros. apply silent_appends, silent_ret.
Qed.

Lemma appends_core_prepare cfg :
  appends is_hook (core_prepare JSON_stringify URL_resolve c cfg).
Proof.
  unfold core_prepare.
  apply appends_bind; [apply silent_appends, silent_core_merge|]. intros final.
  apply appends_bind; [apply appends_core_request_hooks|]. intros [f|v].
  - apply silent_appends. apply silent_bind; [apply silent_core_resolve|].
    intros. apply silent_ret.
  - apply silent_appends, silent_ret.
Qed.

Lemma appends_core_try final : appends is_try (core_try fetch c final).
Proof.
  intros w o w'. unfold core_try, bind at 1, do_fetch.
  destruct (transport fetch final w) as [r| |] eqn:Hr.
  - fold (logged w [EvFetch (getp final "url") (fetch_init final)]).
    unfold bind at 1. rewrite decode_body_spec, logged_logged. simpl.
    assert (Hdec : Forall (fun e => is_try e = true) (decode_events r)).
    { unfold decode_events. destruct (bodiless r); [constructor|].
      destruct (includes _ _); by repeat constructor. }
    destruct (parsed_body r) as [parsed|e|].
    + destruct (_ || _).
      * intros [= _ <-]. eexists. split; [reflexivity|]. by constructor.
      * intros Hrun.
        assert (Happ : appends is_fulfilled
                  (do processed <- runFulfilled (res c) (wrap r parsed final);
                   member processed "data")).
        { apply appends_bind; [apply appends_runFulfilled_only|].
          intros. apply silent_appends, silent_member. }
        destruct (Happ _ _ _ Hrun) as (evs & Hl & Hall). simpl in Hl.
        exists ((EvFetch (getp final "url") (fetch_init final) :: decode_events r) ++ evs)%list.
        split; [by rewrite Hl, app_assoc|].
        apply Forall_app. split; [by constructor|].
        eapply Forall_impl; [exact Hall|]. intros e He. unfold is_try. by rewrite He.
    + intros [= _ <-]. eexists. split; [reflexivity|]. by constructor.
    + intros [= _ <-]. eexists. split; [reflexivity|]. by constructor.
  - intros [= _ <-]. eexists. split; [reflexivity|]. by repeat constructor.
  - intros [= _ <-]. eexists. split; [reflexivity|]. by repeat constructor.
Qed.

Lemma appends_core_try_catch final :
  appends is_call
    (try_catch (core_try fetch c final) (fun e => recover c (normalize final e))).
Proof.
  apply appends_try_catch.
  - eapply appends_mono; [|apply appends_core_try]. by intros [].
  - intros e. eapply appends_mono; [|apply appends_recover]. by intros [].
Qed.

(** A call that reaches dispatch has not entered the failure chain. *)
Lemma core_prepare_dispatch_log cfg w final w1 :
  core_prepare JSON_stringify URL_resolve c cfg w = (Return (Dispatch final), w1) ->
  exists evs, log w1 = (log w ++ evs)%list /\ Forall (fun e => is_fulfilled e = true) evs.
Proof.
  unfold core_prepare, bind at 1.
  destruct (core_merge _ _ _ _) as [[final0|e|] w0] eqn:Hmerge; try done.
  apply silent_core_merge in Hmerge.
  unfold bind at 1, core_request_hooks, try_catch, bind at 1.
  destruct (runFulfilled (req c) final0 w0) as [[f|e|] w2] eqn:Hrun.
  - destruct (appends_runFulfilled_only _ _ _ _ _ Hrun) as (evs & Hl & Hall).
    unfold ret at 1. unfold bind at 1.
    destruct (core_resolve _ _ _ _ _) as [[f'|e|] w3] eqn:Hres; try done.
    apply silent_core_resolve in Hres. intros [= _ <-].
    exists evs. split; [congruence|done].
  - unfold bind. destruct (recover c _ w2) as [[v|e'|] w3]; done.
  - done.
Qed.

Lemma recover_once err w0 o w' :
  recover c err w0 = (o, w') ->
  exists evs, log w' = (log w0 ++ EvRunRejected err :: evs)%list
              /\ Forall (fun e => is_run_rejected e = false) evs.
Proof.
  rewrite recover_spec. intros [= _ <-]. eexists. split; [reflexivity|].
  apply failure_events_not_entry.
Qed.

Lemma finish_recover_once armed w0 w2 err o w' :
  finish_timer armed w0 (recover c err w2) = (o, w') ->
  exists evs, log w' = (log w2 ++ evs)%list
              /\ List.filter is_run_rejected evs = [EvRunRejected err].
Proof.
  destruct (recover c err w2) as [o2 w3] eqn:Hrec.
  destruct (recover_once _ _ _ _ Hrec) as (evs & Hl & Hall).
  unfold finish_timer, disarmed_world.
  destruct armed, o2; intros [= _ <-]; simpl; rewrite Hl.
  all: try (exists (EvRunRejected err :: evs); split; [done|];
            simpl; by rewrite filter_none).
  all: exists (EvRunRejected err :: evs ++ [EvClearTimeout (timer_id w0)])%list;
    (split; [by rewrite <- app_assoc|]);
    simpl; rewrite List.filter_app; by rewrite filter_none.
Qed.

Lemma core_reaches_dispatch cfg w final w1 :
  core_prepare JSON_stringify URL_resolve c cfg w = (Return (Dispatch final), w1) ->
  core JSON_stringify URL_resolve fetch c cfg w
  = finish_timer (arms_timer final) w1
      (try_catch (core_try fetch c final) (fun e => recover c (normalize final e))
         (dispatch_world (arms_timer final) final w1)).
Proof. intros H. by rewrite core_spec, H, core_dispatch_spec. Qed.

Lemma transport_dispatch_world final w :
  transport fetch final (dispatch_world (arms_timer final) final w) = transport fetch final w.
Proof. unfold dispatch_world, armed_world. by destruct (arms_timer final). Qed.

(** A call whose transport answered [r] and whose body read settled with
    a status outside [200, 300). *)
Lemma core_status_failure cfg w final w1 r parsed :
  core_prepare JSON_stringify URL_resolve c cfg w = (Return (Dispatch final), w1) ->
  transport fetch final w1 = Return r ->
  parsed_body r = Return parsed ->
  (r_status r <? 200) || (r_status r >=? 300) = true ->
  core JSON_stringify URL_resolve fetch c cfg w
  = finish_timer (arms_timer final) w1
      (recover c (status_error r parsed final)
         (fetched (arms_timer final) (fetch_init final) final w1 (decode_events r))).
Proof.
  intros Hprep Hr Hparsed Hstatus. rewrite (core_reaches_dispatch _ _ _ _ Hprep).
  unfold try_catch. rewrite (core_try_response _ _ r) by (by rewrite transport_dispatch_world).
  rewrite Hparsed. simpl. by rewrite Hstatus.
Qed.

(** A call whose transport answered [r] and whose body read settled with
    a status in [200, 300). *)
Lemma core_status_success cfg w final w1 r parsed :
  core_prepare JSON_stringify URL_resolve c cfg w = (Return (Dispatch final), w1) ->
  transport fetch final w1 = Return r ->
  parsed_body r = Return parsed ->
  (r_status r <? 200) || (r_status r >=? 300) = false ->
  core JSON_stringify URL_resolve fetch c cfg w
  = finish_timer (arms_timer final) w1
      (try_catch
         (do processed <- runFulfilled (res c) (wrap r parsed final);
          member processed "data")
         (fun e => recover c (normalize final e))
         (fetched (arms_timer final) (fetch_init final) final w1 (decode_events r))).
Proof.
  intros Hprep Hr Hparsed Hstatus. rewrite (core_reaches_dispatch _ _ _ _ Hprep).
  unfold try_catch at 1. rewrite (core_try_response _ _ r) by (by rewrite transport_dispatch_world).
  rewrite Hparsed. simpl. by rewrite Hstatus.
Qed.

(** A call whose transport failed with [e]. *)
Lemma core_transport_failure cfg w final w1 e :
  core_prepare JSON_stringify URL_resolve c cfg w = (Return (Dispatch final), w1) ->
  transport fetch final w1 = Throw e ->
  core JSON_stringify URL_resolve fetch c cfg w
  = finish_timer (arms_timer final) w1
      (recover c (normalize final e)
         (fetched (arms_timer final) (fetch_init final) final w1 [])).
Proof.
  intros Hprep Hr. rewrite (core_reaches_dispatch _ _ _ _ Hprep).
  unfold try_catch. by rewrite (core_try_reject _ _ e) by (by rewrite transport_dispatch_world).
Qed.

End PipelineFacts.

(** ** Lemmas on the header store *)

Lemma copy_entries_union (src dst : HeaderMap) : copy_entries src dst = src ∪ dst.
Proof.
  unfold copy_entries.
  apply (map_fold_weak_ind (fun acc m => acc = m ∪ dst)).
  - by rewrite (left_id_L ∅ (∪)).
  - intros k v m acc Hk ->. by rewrite insert_union_l.
Qed.

Lemma lookup_assign_eq k v o : lookup_prop k (assign k v o) = Some v.
Proof.
  induction o as [|[k' v'] o IH]; simpl.
  - by rewrite String.eqb_refl.
  - destruct (String.eqb k k') eqn:E; simpl; rewrite ?String.eqb_refl, ?E; done.
Qed.

Lemma lookup_assign_ne k k' v o :
  String.eqb k k' = false -> lookup_prop k (assign k' v o) = lookup_prop k o.
Proof.
  intros Hne. induction o as [|[k'' v''] o IH]; simpl.
  - by rewrite Hne.
  - destruct (String.eqb k' k'') eqn:E; simpl.
    + apply String.eqb_eq in E as <-. by rewrite Hne.
    + by rewrite IH.
Qed.

Lemma getp_assign_eq k v o : getp (VObj (assign k v o)) k = v.
Proof. unfold getp. simpl. by rewrite lookup_assign_eq. Qed.

Lemma getp_assign_ne k k' v o :
  String.eqb k k' = false -> getp (VObj (assign k' v o)) k = getp (VObj o) k.
Proof. intros H. unfold getp. simpl. by rewrite lookup_assign_ne. Qed.

Lemma toHeaders_inv h w ref w' :
  toHeaders h w = (Return ref, w') ->
  (h = VHeaders ref /\ w' = w)
  \/ (exists l, (forall r, h <> VHeaders r)
               /\ header_entries (h ?? VObj []) = Return l
               /\ ref = length (heap w)
               /\ w' = mkWorld (heap w ++ [headers_of_entries l]) (log w)).
Proof.
  assert (Hnew : forall x,
    (do l <- await (header_entries (x ?? VObj [])); headers_new (headers_of_entries l)) w
    = (Return ref, w') ->
    exists l, header_entries (x ?? VObj []) = Return l
              /\ ref = length (heap w)
              /\ w' = mkWorld (heap w ++ [headers_of_entries l]) (log w)).
  { intros x. unfold bind, await, headers_new.
    destruct (header_entries (x ?? VObj [])) as [l| |]; try done.
    intros [= <- <-]. by exists l. }
  destruct h; unfold toHeaders;
    try (intros (l & ? & ? & ?)%Hnew; right; exists l; by split_and!).
  intros [= <- <-]. by left.
Qed.

Lemma deref_alloc w m evs r :
  (r < length (heap w))%nat ->
  deref (mkWorld (heap w ++ [m]) evs) r = deref w r.
Proof. intros H. unfold deref. simpl. by rewrite lookup_app_l. Qed.

Lemma deref_alloc_new w m evs :
  deref (mkWorld (heap w ++ [m]) evs) (length (heap w)) = m.
Proof.
  unfold deref. simpl. rewrite lookup_app_r by lia. by rewrite Nat.sub_diag.
Qed.

(** What [toHeaders] returns denotes the collection of its argument, and
    no stored collection changes. *)
Lemma toHeaders_view h w ref w' :
  toHeaders h w = (Return ref, w') ->
  valid_headers w h ->
  exists D,
    headers_view w h = Return D
    /\ deref w' ref = D
    /\ (ref < length (heap w'))%nat
    /\ (length (heap w) <= length (heap w'))%nat
    /\ (forall r, (r < length (heap w))%nat -> deref w' r = deref w r)
    /\ (h = VHeaders ref \/ ((forall r, h <> VHeaders r) /\ ref = length (heap w))).
Proof.
  intros [[-> ->] | (l & Hh & Hl & -> & ->)]%toHeaders_inv Hvalid.
  - exists (deref w ref). simpl in *. split_and!; auto.
  - exists (headers_of_entries l). split_and!.
    + unfold headers_view. destruct h; try (by rewrite Hl).
      exfalso. by eapply Hh.
    + apply deref_alloc_new.
    + simpl. rewrite length_app. simpl. lia.
    + simpl. rewrite length_app. lia.
    + intros r Hr. by apply deref_alloc.
    + by right.
Qed.

Lemma deref_update_eq (l : list HeaderMap) ref x evs :
  (ref < length l)%nat ->
  deref (mkWorld (<[ref := x]> l) evs) ref = x.
Proof. intros H. unfold deref. simpl. by rewrite list_lookup_insert_eq. Qed.

Lemma deref_update_ne (l : list HeaderMap) ref r x evs evs' :
  r <> ref -> deref (mkWorld (<[ref := x]> l) evs) r = deref (mkWorld l evs') r.
Proof. intros H. unfold deref. simpl. by rewrite list_lookup_insert_ne. Qed.

Lemma headers_view_stable w w' h :
  valid_headers w h ->
  (forall r, (r < length (heap w))%nat -> deref w' r = deref w r) ->
  headers_view w' h = headers_view w h.
Proof. intros Hv Hsame. destruct h; simpl in *; try done. by rewrite Hsame. Qed.

Lemma valid_headers_mono w w' h :
  valid_headers w h -> (length (heap w) <= length (heap w'))%nat -> valid_headers w' h.
Proof. destruct h; simpl; try done. lia. Qed.

Lemma content_type_lower : toLowerCase "Content-Type" = "content-type".
Proof. reflexivity. Qed.

Lemma content_type_name_ok : valid_header_name "Content-Type" = true.
Proof. reflexivity. Qed.

Lemma content_type_ok : header_ok "Content-Type" "application/json" = true.
Proof. reflexivity. Qed.

Lemma content_type_value : normalize_value "application/json" = "application/json".
Proof. reflexivity. Qed.

Section MergeFacts.

Variable JSON_stringify : JsVal -> string.
Variable c : Client.

(** The merged header collection and the body the merger produces. *)
Lemma core_merge_spec cfg w final w' :
  core_merge JSON_stringify c cfg w = (Return final, w') ->
  valid_headers w (getp (VObj (defaults c)) "headers") ->
  valid_headers w (getp cfg "headers") ->
  exists href D C,
    headers_view w (getp (VObj (defaults c)) "headers") = Return D
    /\ headers_view w (getp cfg "headers") = Return C
    /\ getp final "headers" = VHeaders href
    /\ (href < length (heap w'))%nat
    /\ (getp (VObj (defaults c)) "headers" = VHeaders href
        \/ ((forall r, getp (VObj (defaults c)) "headers" <> VHeaders r)
            /\ (length (heap w) <= href)%nat))
    /\ deref w' href
       = (if isPlainObj (getp cfg "data")
             && negb (bool_decide (is_Some ((C ∪ D) !! "content-type")))
          then <["content-type" := "application/json"]> (C ∪ D)
          else C ∪ D)
    /\ getp final "data"
       = (if isPlainObj (getp cfg "data")
             && from_option (fun v => includes v "application/json") false
                  (deref w' href !! "content-type")
          then VStr (JSON_stringify (getp cfg "data"))
          else getp cfg "data")
    /\ (forall r, (r < length (heap w))%nat -> r <> href -> deref w' r = deref w r).
Proof.
  intros Hmerge Hvd Hvc. unfold core_merge in Hmerge.
  unfold bind at 1 in Hmerge.
  destruct (toHeaders _ w) as [[href| |] wa] eqn:H1; try done.
  destruct (toHeaders_view _ _ _ _ H1 Hvd) as (D & HD & HdD & Hlt1 & Hle1 & Hsame1 & Hor1).
  unfold bind at 1, member in Hmerge.
  destruct (nullish cfg); [done|]. unfold ret at 1 in Hmerge.
  unfold bind at 1 in Hmerge.
  destruct (toHeaders _ wa) as [[cref| |] wb] eqn:H2; try done.
  destruct (toHeaders_view _ _ _ _ H2 (valid_headers_mono _ _ _ Hvc Hle1))
    as (C & HC & HdC & Hlt2 & Hle2 & Hsame2 & Hor2).
  rewrite (headers_view_stable w wa) in HC by done.
  assert (HhD : deref wb href = D) by (rewrite Hsame2; done).
  unfold headers_forEach_set, headers_has, headers_get, headers_set in Hmerge.
  rewrite content_type_name_ok, content_type_ok, content_type_value, content_type_lower
    in Hmerge.
  unfold headers_update, headers_read, bind, ret in Hmerge. simpl in Hmerge.
  rewrite HdC, HhD, copy_entries_union in Hmerge.
  assert (Hlt : (href < length (heap wb))%nat) by lia.
  rewrite deref_update_eq in Hmerge by done.
  exists href, D, C.
  destruct (isPlainObj (getp cfg "data") && negb (bool_decide (is_Some ((C ∪ D) !! "content-type"))))
    eqn:Hplain; simpl in Hmerge.
  - rewrite !deref_update_eq in Hmerge by (by rewrite ?length_insert).
    injection Hmerge as <- <-.
    split_and!; [done|done| | | | | |].
    + rewrite !getp_assign_ne by done. apply getp_assign_eq.
    + simpl. rewrite !length_insert. lia.
    + destruct Hor1 as [-> | [? ->]]; [by left | right; split; [done | lia]].
    + by rewrite !deref_update_eq by (by rewrite ?length_insert).
    + rewrite !getp_assign_ne by done. rewrite getp_assign_eq.
      by rewrite !deref_update_eq by (by rewrite ?length_insert).
    + intros r Hr Hne.
      rewrite (deref_update_ne _ _ _ _ _ (log wb)) by done.
      rewrite (deref_update_ne _ _ _ _ _ (log wb)) by done.
      destruct wb as [hb lb]. simpl. change (deref (mkWorld hb lb) r = deref w r).
      rewrite Hsame2 by lia. by apply Hsame1.
  - injection Hmerge as <- <-.
    split_and!; [done|done| | | | | |].
    + rewrite !getp_assign_ne by done. apply getp_assign_eq.
    + simpl. rewrite length_insert. lia.
    + destruct Hor1 as [-> | [? ->]]; [by left | right; split; [done | lia]].
    + by rewrite deref_update_eq.
    + rewrite !getp_assign_ne by done. rewrite getp_assign_eq.
      by rewrite deref_update_eq.
    + intros r Hr Hne.
      rewrite (deref_update_ne _ _ _ _ _ (log wb)) by done.
      destruct wb as [hb lb]. simpl. change (deref (mkWorld hb lb) r = deref w r).
      rewrite Hsame2 by lia. by apply Hsame1.
Qed.

End MergeFacts.

(** ** What a call does to the stored header collections *)

Lemma keeps_heap_preserves {A} (m : M A) : keeps_heap m -> preserves m.
Proof.
  intros H w o w' Hm. apply H in Hm. unfold deref. rewrite Hm. by split.
Qed.

Lemma preserves_bind {A B} (m : M A) (k : A -> M B) :
  preserves m -> (forall a, preserves (k a)) -> preserves (bind m k).
Proof.
  intros Hm Hk w o w'. unfold bind.
  destruct (m w) as [[a|e|] w1] eqn:E; destruct (Hm _ _ _ E) as [Hle Hsame].
  - intros [Hle2 Hsame2]%Hk. split; [lia|].
    intros r Hr. rewrite Hsame2 by lia. by apply Hsame.
  - by intros [= _ <-].
  - by intros [= _ <-].
Qed.

Lemma preserves_try_catch {A} (m : M A) (h : JsVal -> M A) :
  preserves m -> (forall e, preserves (h e)) -> preserves (try_catch m h).
Proof.
  intros Hm Hh w o w'. unfold try_catch.
  destruct (m w) as [[a|e|] w1] eqn:E; destruct (Hm _ _ _ E) as [Hle Hsame].
  - by intros [= _ <-].
  - intros [Hle2 Hsame2]%Hh. split; [lia|].
    intros r Hr. rewrite Hsame2 by lia. by apply Hsame.
  - by intros [= _ <-].
Qed.

Lemma preserves_try_finally {A} (m : M A) (f : M unit) :
  preserves m -> preserves f -> preserves (try_finally m f).
Proof.
  intros Hm Hf w o w'. unfold try_finally.
  destruct (m w) as [[a|e|] w1] eqn:E; destruct (Hm _ _ _ E) as [Hle Hsame].
  3: by intros [= _ <-].
  all: destruct (f w1) as [[[]|e'|] w2] eqn:E2; destruct (Hf _ _ _ E2) as [Hle2 Hsame2];
    intros [= _ <-]; (split; [lia|]); intros r Hr; rewrite Hsame2 by lia; by apply Hsame.
Qed.

Lemma keeps_heap_ret {A} (a : A) : keeps_heap (ret a).
Proof. by intros w o w' [= _ <-]. Qed.

Lemma keeps_heap_throw {A} e : keeps_heap (@throw A e).
Proof. by intros w o w' [= _ <-]. Qed.

Lemma keeps_heap_await {A} (o : Completion A) : keeps_heap (await o).
Proof. by intros w o' w' [= _ <-]. Qed.

Lemma keeps_heap_emit e : keeps_heap (emit e).
Proof. by intros w o w' [= _ <-]. Qed.

Lemma keeps_heap_member v k : keeps_heap (member v k).
Proof. unfold member. destruct (nullish v); [apply keeps_heap_throw | apply keeps_heap_ret]. Qed.

Lemma keeps_heap_set_member v k x : keeps_heap (set_member v k x).
Proof. destruct v; simpl; first [apply keeps_heap_throw | apply keeps_heap_ret]. Qed.

Lemma keeps_heap_runFulfilled hs v : keeps_heap (runFulfilled hs v).
Proof. intros w o w'. rewrite runFulfilled_chain. by intros [= _ <-]. Qed.

Lemma keeps_heap_runRejected hs e : keeps_heap (runRejected hs e).
Proof. intros w o w'. rewrite runRejected_chain. by intros [= _ <-]. Qed.

Lemma keeps_heap_setTimeout ms : keeps_heap (setTimeout ms).
Proof. by intros w o w' [= _ <-]. Qed.

Lemma preserves_headers_new m : preserves (headers_new m).
Proof.
  intros w o w' [= _ <-]. split; [simpl; rewrite length_app; lia|].
  intros r Hr. by apply deref_alloc.
Qed.

Lemma preserves_toHeaders h : preserves (toHeaders h).
Proof.
  destruct h; unfold toHeaders; try (apply keeps_heap_preserves, keeps_heap_ret).
  all: apply preserves_bind;
    [apply keeps_heap_preserves, keeps_heap_await | intros; apply preserves_headers_new].
Qed.

Create HintDb frame.

#[local] Hint Resolve keeps_heap_ret keeps_heap_throw keeps_heap_await keeps_heap_emit
  keeps_heap_member keeps_heap_set_member keeps_heap_runFulfilled keeps_heap_runRejected
  keeps_heap_setTimeout keeps_heap_preserves preserves_toHeaders : frame.

Ltac frame :=
  repeat first
    [ progress auto with frame
    | match goal with |- preserves (bind _ _) => apply preserves_bind; [|intros] end
    | match goal with |- preserves (try_catch _ _) => apply preserves_try_catch; [|intros] end
    | match goal with |- preserves (try_finally _ _) => apply preserves_try_finally end
    | match goal with |- preserves (if ?b then _ else _) => destruct b end
    | match goal with |- preserves (match ?x with _ => _ end) => destruct x end ].

Section FrameFacts.

Variable JSON_stringify : JsVal -> string.
Variable URL_resolve : string -> string -> Completion string.
Variable fetch : JsVal -> JsVal -> list HeaderMap -> Completion Response.
Variable c : Client.

Lemma preserves_recover err : preserves (recover c err).
Proof. unfold recover. frame. Qed.

Lemma preserves_core_request_hooks final : preserves (core_request_hooks c final).
Proof. unfold core_request_hooks. frame. apply preserves_recover. Qed.

Lemma preserves_core_resolve cfg final : preserves (core_resolve URL_resolve c cfg final).
Proof. unfold core_resolve. frame. Qed.

Lemma preserves_core_dispatch final : preserves (core_dispatch fetch c final).
Proof.
  unfold core_dispatch, core_try, decode_body, clearTimeout. frame.
  all: try apply preserves_recover.
  apply keeps_heap_preserves. by intros w o w' [= _ <-].
Qed.

(** With default headers held as a plain object, the merger works on a
    new instance, whatever its outcome. *)
Lemma preserves_core_merge_plain cfg :
  (forall ref, getp (VObj (defaults c)) "headers" <> VHeaders ref) ->
  preserves (core_merge JSON_stringify c cfg).
Proof.
  intros Hplain w o w'. unfold core_merge, bind at 1.
  destruct (toHeaders _ w) as [o1 wa] eqn:H1.
  pose proof (preserves_toHeaders _ _ _ _ H1) as [Hle1 Hsame1].
  destruct o1 as [href| |]; [|by intros [= _ <-]..].
  assert (Hfresh : href = length (heap w) /\ length (heap wa) = S (length (heap w))).
  { apply toHeaders_inv in H1 as [[Heq _] | (l & _ & _ & -> & ->)];
      [by destruct (Hplain href)|].
    split; [done|]. simpl. rewrite length_app. simpl. lia. }
  destruct Hfresh as [-> Hlen].
  unfold bind at 1, member. destruct (nullish cfg); [by intros [= _ <-]|].
  unfold ret at 1, bind at 1.
  destruct (toHeaders _ wa) as [o2 wb] eqn:H2.
  pose proof (preserves_toHeaders _ _ _ _ H2) as [Hle2 Hsame2].
  assert (Hwb : forall r, (r < length (heap w))%nat -> deref wb r = deref w r).
  { intros r Hr. rewrite Hsame2 by lia. by apply Hsame1. }
  destruct o2 as [cref| |]; [|intros [= _ <-]; split; [lia | done]..].
  unfold headers_forEach_set, headers_has, headers_get, headers_set.
  rewrite content_type_name_ok, content_type_ok.
  unfold headers_update, headers_read, bind, ret.
  destruct (isPlainObj _ && negb _); intros [= _ <-]; simpl; rewrite ?length_insert;
    (split; [lia|]); intros r Hr;
    rewrite ?(deref_update_ne _ _ _ _ _ (log wb)) by lia;
    destruct wb as [hb lb]; by apply Hwb.
Qed.

(** A call on a client whose default headers are a plain object leaves
    every stored collection as it found it. *)
Lemma request_preserves_plain_default_headers cfg :
  (forall ref, getp (VObj (defaults c)) "headers" <> VHeaders ref) ->
  preserves (core JSON_stringify URL_resolve fetch c cfg).
Proof.
  intros Hplain. unfold core, core_prepare.
  apply preserves_bind; [|intros [final|v]; [apply preserves_core_dispatch | frame]].
  apply preserves_bind; [by apply preserves_core_merge_plain|]. intros final0.
  apply preserves_bind; [apply preserves_core_request_hooks|]. intros [final|v]; [|frame].
  apply preserves_bind; [apply preserves_core_resolve | intros; frame].
Qed.

End FrameFacts.
(** ** Lemmas on strings and on property lists *)

Lemma upper_ascii_idem a : upper_ascii (upper_ascii a) = upper_ascii a.
Proof. destruct a as [[] [] [] [] [] [] [] []]; reflexivity. Qed.

Lemma toUpperCase_idem s : toUpperCase (toUpperCase s) = toUpperCase s.
Proof.
  unfold toUpperCase. induction s as [|a s IH]; simpl; [done|].
  by rewrite upper_ascii_idem, IH.
Qed.

Lemma endsWith_slash_app b : endsWith_slash (b ++ "/") = true.
Proof.
  induction b as [|a b IH]; [done|].
  change (String a b ++ "/")%string with (String a (b ++ "/")).
  destruct b; [done|]. exact IH.
Qed.

Lemma isAbs_nonempty u : isAbs u = true -> u <> "".
Proof. by intros H ->. Qed.

Lemma coalesce_left a b : nullish a = false -> a ?? b = a.
Proof. intros H. unfold coalesce. by rewrite H. Qed.

Lemma coalesce_right a b : nullish a = true -> a ?? b = b.
Proof. intros H. unfold coalesce. by rewrite H. Qed.

Lemma truthy_not_nullish a : truthy a = true -> nullish a = false.
Proof. by destruct a. Qed.

(** The names of an object's properties. *)
Lemma keys_assign k v o :
  (assign k v o).*1 = if bool_decide (k ∈ o.*1) then o.*1 else (o.*1 ++ [k])%list.
Proof.
  induction o as [|[k' v'] o IH]; [done|].
  cbn [assign]. rewrite fmap_cons. cbn [fst].
  destruct (String.eqb k k') eqn:E.
  - apply String.eqb_eq in E as <-. rewrite fmap_cons. cbn [fst].
    by rewrite bool_decide_eq_true_2 by apply list_elem_of_here.
  - apply String.eqb_neq in E. rewrite fmap_cons, IH. cbn [fst].
    destruct (bool_decide (k ∈ o.*1)) eqn:Hin.
    + apply bool_decide_eq_true in Hin.
      by rewrite bool_decide_eq_true_2 by (by apply list_elem_of_further).
    + apply bool_decide_eq_false in Hin.
      rewrite bool_decide_eq_false_2; [done|].
      intros [?|?]%elem_of_cons; done.
Qed.

Lemma NoDup_assign k v o : NoDup o.*1 -> NoDup (assign k v o).*1.
Proof.
  intros H. rewrite keys_assign. destruct (bool_decide (k ∈ o.*1)) eqn:Hin; [done|].
  apply bool_decide_eq_false in Hin. apply NoDup_app. split_and!; [done| |apply NoDup_singleton].
  intros x Hx ->%list_elem_of_singleton. done.
Qed.

Lemma spread_into_snoc (a b : Props) kv :
  spread_into a (b ++ [kv])%list = assign (fst kv) (snd kv) (spread_into a b).
Proof. unfold spread_into. by rewrite fold_left_app. Qed.

Lemma NoDup_spread_into (a b : Props) : NoDup a.*1 -> NoDup (spread_into a b).*1.
Proof.
  intros Ha. induction b as [|kv b IH] using rev_ind; [done|].
  rewrite spread_into_snoc. by apply NoDup_assign.
Qed.

(** In [{...a, ...b}] a property of [b] wins, the last one of that name if
    the list names it twice. *)
Lemma lookup_spread_into k (a b : Props) :
  lookup_prop k (spread_into a b)
  = match lookup_prop k (rev b) with
    | Some v => Some v
    | None => lookup_prop k a
    end.
Proof.
  induction b as [|[k' v'] b IH] using rev_ind; [done|].
  rewrite spread_into_snoc, rev_app_distr. simpl.
  destruct (String.eqb k k') eqn:E.
  - apply String.eqb_eq in E as <-. apply lookup_assign_eq.
  - by rewrite lookup_assign_ne.
Qed.

Lemma assign_fresh k v o : k ∉ o.*1 -> assign k v o = (o ++ [(k, v)])%list.
Proof.
  induction o as [|[k' v'] o IH]; simpl; [done|].
  intros Hk. destruct (String.eqb k k') eqn:E.
  - apply String.eqb_eq in E as <-. destruct Hk. apply list_elem_of_here.
  - rewrite IH; [done|]. intros ?. apply Hk. by apply list_elem_of_further.
Qed.

Lemma spread_into_fresh (b : Props) : forall a : Props,
  NoDup (a ++ b)%list.*1 -> spread_into a b = (a ++ b)%list.
Proof.
  induction b as [|[k v] b IH]; intros a Hnd; simpl.
  - by rewrite app_nil_r.
  - change (spread_into (assign k v a) b = (a ++ (k, v) :: b)%list).
    rewrite fmap_app in Hnd. simpl in Hnd.
    apply NoDup_app in Hnd as (Ha & Hdisj & Hb).
    rewrite assign_fresh.
    + rewrite IH; [by rewrite <- app_assoc|].
      by rewrite <- app_assoc, fmap_app; simpl; apply NoDup_app.
    + intros Hin. apply (Hdisj k Hin). apply list_elem_of_here.
Qed.

(** Copying an object with [{...o}] gives the same properties. *)
Lemma spread_copy o : NoDup o.*1 -> spread_into [] o = o.
Proof. intros H. by apply (spread_into_fresh o []). Qed.

Lemma lookup_prop_None k o : lookup_prop k o = None <-> k ∉ o.*1.
Proof.
  induction o as [|[k' v'] o IH]; simpl.
  - split; [intros _; apply not_elem_of_nil | done].
  - destruct (String.eqb k k') eqn:E.
    + apply String.eqb_eq in E as <-. split; [done|].
      intros H. destruct H. apply list_elem_of_here.
    + apply String.eqb_neq in E. rewrite IH. rewrite not_elem_of_cons. tauto.
Qed.

(** Without a repeated name, the first and the last property of a name
    are the same. *)
Lemma lookup_prop_rev k o : NoDup o.*1 -> lookup_prop k (rev o) = lookup_prop k o.
Proof.
  intros Hnd.
  pose proof (lookup_spread_into k [] o) as H. rewrite spread_copy in H by done.
  simpl in H. rewrite H. by destruct (lookup_prop k (rev o)).
Qed.

Lemma lookup_prop_app k (a b : Props) :
  lookup_prop k (a ++ b)%list
  = match lookup_prop k a with
    | Some v => Some v
    | None => lookup_prop k b
    end.
Proof.
  induction a as [|[k' v'] a IH]; simpl; [done|]. by destruct (String.eqb k k').
Qed.

Lemma lookup_prop_rev_None k (o : Props) :
  lookup_prop k o = None -> lookup_prop k (rev o) = None.
Proof.
  induction o as [|[k' v'] o IH]; simpl; [done|].
  destruct (String.eqb k k') eqn:E; [done|]. intros H.
  rewrite lookup_prop_app, (IH H). simpl. by rewrite E.
Qed.

(** ** Small checks of the value model *)

Example Z_to_string_404 : Z_to_string 404 = "404".
Proof. reflexivity. Qed.

Example includes_json : includes "application/json; charset=utf-8" "application/json" = true.
Proof. reflexivity. Qed.

Example spread_overrides :
  spread_into [("a", VNum 1); ("b", VNum 2)] [("b", VUndefined); ("c", VNum 3)]
  = [("a", VNum 1); ("b", VUndefined); ("c", VNum 3)].
Proof. reflexivity. Qed.

(** ** Lemmas on the phases before dispatch *)

Lemma bind_ret {A B} (a : A) (k : A -> M B) : bind (ret a) k = k a.
Proof. reflexivity. Qed.

Lemma bind_await {A B} (o : Completion A) (k : A -> M B) w :
  bind (await o) k w
  = match o with
    | Return a => k a w
    | Throw e => (Throw e, w)
    | Pending => (Pending, w)
    end.
Proof. unfold bind, await. by destruct o. Qed.

Section ShapeFacts.

Variable JSON_stringify : JsVal -> string.
Variable URL_resolve : string -> string -> Completion string.
Variable fetch : JsVal -> JsVal -> list HeaderMap -> Completion Response.
Variable c : Client.

(** What the merger returns is the object literal of the source. *)
Lemma core_merge_shape cfg w final w' :
  core_merge JSON_stringify c cfg w = (Return final, w') ->
  nullish cfg = false
  /\ exists href body,
       final = merged c cfg href body
       /\ (body = getp cfg "data" \/ body = VStr (JSON_stringify (getp cfg "data"))).
Proof.
  intros H. unfold core_merge in H. unfold bind at 1 in H.
  destruct (toHeaders _ w) as [[href| |] wa]; try done.
  unfold bind at 1, member in H. destruct (nullish cfg) eqn:Hn; [done|].
  unfold ret at 1 in H. unfold bind at 1 in H.
  destruct (toHeaders _ wa) as [[cref| |] wb]; try done.
  unfold headers_forEach_set, headers_has, headers_get, headers_set in H.
  rewrite content_type_name_ok, content_type_ok in H.
  unfold headers_update, headers_read, bind, ret in H.
  split; [done|].
  destruct (isPlainObj _ && negb _); injection H as <- <-;
    (eexists _, _; split; [reflexivity|]);
    destruct (isPlainObj _ && from_option _ _ _); auto.
Qed.

(** A merge that fails has written to no collection that existed. *)
Lemma core_merge_failure_frame cfg w e w' :
  core_merge JSON_stringify c cfg w = (Throw e, w') ->
  log w' = log w
  /\ (length (heap w) <= length (heap w'))%nat
  /\ forall r, (r < length (heap w))%nat -> deref w' r = deref w r.
Proof.
  intros H. split; [by eapply silent_core_merge|].
  unfold core_merge in H. unfold bind at 1 in H.
  destruct (toHeaders _ w) as [o1 wa] eqn:H1.
  pose proof (preserves_toHeaders _ _ _ _ H1) as [Hle1 Hsame1].
  destruct o1 as [href| |]; [|by injection H as <- <-|done].
  unfold bind at 1, member in H. destruct (nullish cfg) eqn:Hn.
  { by injection H as <- <-. }
  unfold ret at 1 in H. unfold bind at 1 in H.
  destruct (toHeaders _ wa) as [o2 wb] eqn:H2.
  pose proof (preserves_toHeaders _ _ _ _ H2) as [Hle2 Hsame2].
  destruct o2 as [cref| |]; [|injection H as <- <-|done].
  - unfold headers_forEach_set, headers_has, headers_get, headers_set in H.
    rewrite content_type_name_ok, content_type_ok in H.
    unfold headers_update, headers_read, bind, ret in H.
    by destruct (isPlainObj _ && negb _).
  - split; [lia|]. intros r Hr. rewrite Hsame2 by lia. by apply Hsame1.
Qed.

(** The request hooks, by the outcome of the success chain. *)
Lemma core_request_hooks_spec final w :
  core_request_hooks c final w
  = let w1 := logged w (EvRunFulfilled final :: snd (success_chain (live_fulfilled (req c)) final)) in
    match fst (success_chain (live_fulfilled (req c)) final) with
    | Return f => (Return (Dispatch f), w1)
    | Throw e =>
        match recover c (makeError (getp e "message" ?? VStr "Request interceptor error")
                           final VUndefined VUndefined) w1 with
        | (Return v, w2) => (Return (Done v), w2)
        | (Throw e', w2) => (Throw e', w2)
        | (Pending, w2) => (Pending, w2)
        end
    | Pending => (Pending, w1)
    end.
Proof.
  unfold core_request_hooks, try_catch, bind at 1. rewrite runFulfilled_chain.
  destruct (success_chain (live_fulfilled (req c)) final) as [[f|e|] evs]; simpl; try done.
Qed.

(** The base join and the header re-normalisation on a config that is a
    plain object. *)
Lemma core_resolve_obj cfg o w :
  core_resolve URL_resolve c cfg (VObj o) w
  = match resolved_url URL_resolve c cfg (VObj o) with
    | Return url =>
        match toHeaders (getp (VObj o) "headers") w with
        | (Return h, w') =>
            (Return (VObj (assign "headers" (VHeaders h) (assign "url" url o))), w')
        | (Throw e, w') => (Throw e, w')
        | (Pending, w') => (Pending, w')
        end
    | Throw e => (Throw e, w)
    | Pending => (Pending, w)
    end.
Proof.
  unfold core_resolve, resolved_url.
  cbn [member nullish]. rewrite bind_ret.
  destruct (truthy _ && truthy _).
  - rewrite bind_await. destruct (combine _ _ _) as [url| |]; try done.
    cbn [set_member]. rewrite bind_ret, getp_assign_ne by done.
    unfold bind, ret. by destruct (toHeaders _ w) as [[h| |] w'].
  - rewrite bind_ret. cbn [set_member]. rewrite bind_ret, getp_assign_ne by done.
    unfold bind, ret. by destruct (toHeaders _ w) as [[h| |] w'].
Qed.

(** A config the request hooks turned into [undefined] or [null] cannot
    be read. *)
Lemma core_resolve_nullish cfg final w :
  nullish final = true ->
  core_resolve URL_resolve c cfg final w
  = (Throw (TypeError ("Cannot read properties of " ++ ToString final
                         ++ " (reading 'baseURL')")), w).
Proof. intros H. unfold core_resolve, bind, member. by rewrite H. Qed.

(** The phases before dispatch, put together. *)
Lemma core_prepare_spec cfg w :
  core_prepare JSON_stringify URL_resolve c cfg w
  = match core_merge JSON_stringify c cfg w with
    | (Return final0, w0) =>
        let w1 := logged w0 (EvRunFulfilled final0
                             :: snd (success_chain (live_fulfilled (req c)) final0)) in
        match fst (success_chain (live_fulfilled (req c)) final0) with
        | Return f =>
            match core_resolve URL_resolve c cfg f w1 with
            | (Return final, w2) => (Return (Dispatch final), w2)
            | (Throw e, w2) => (Throw e, w2)
            | (Pending, w2) => (Pending, w2)
            end
        | Throw e =>
            match recover c (makeError (getp e "message" ?? VStr "Request interceptor error")
                               final0 VUndefined VUndefined) w1 with
            | (Return v, w2) => (Return (Done v), w2)
            | (Throw e', w2) => (Throw e', w2)
            | (Pending, w2) => (Pending, w2)
            end
        | Pending => (Pending, w1)
        end
    | (Throw e, w0) => (Throw e, w0)
    | (Pending, w0) => (Pending, w0)
    end.
Proof.
  unfold core_prepare, bind at 1.
  destruct (core_merge _ _ _ _) as [[final0|e|] w0]; try done.
  unfold bind at 1. rewrite core_request_hooks_spec. simpl.
  destruct (fst (success_chain _ _)) as [f|e|]; try done.
  by destruct (recover c _ _) as [[v|e'|] w2].
Qed.

Lemma NoDup_merged_props cfg href body : NoDup (merged_props c cfg href body).*1.
Proof.
  unfold merged_props. do 4 apply NoDup_assign.
  do 2 apply NoDup_spread_into. constructor.
Qed.

Lemma merged_headers cfg href body : getp (merged c cfg href body) "headers" = VHeaders href.
Proof.
  unfold merged, merged_props. rewrite !getp_assign_ne by done. apply getp_assign_eq.
Qed.

(** With no request success callback, the config that reaches dispatch is
    the merged one with its URL resolved. *)
Lemma core_prepare_idle cfg w final w1 :
  live_fulfilled (req c) = [] ->
  core_prepare JSON_stringify URL_resolve c cfg w = (Return (Dispatch final), w1) ->
  exists href body url w0,
    core_merge JSON_stringify c cfg w = (Return (merged c cfg href body), w0)
    /\ resolved_url URL_resolve c cfg (merged c cfg href body) = Return url
    /\ final = VObj (assign "headers" (VHeaders href)
                       (assign "url" url (merged_props c cfg href body)))
    /\ w1 = logged w0 [EvRunFulfilled (merged c cfg href body)].
Proof.
  intros Hlive. rewrite core_prepare_spec.
  destruct (core_merge _ _ _ _) as [[final0|e|] w0] eqn:Hmerge; try done.
  destruct (core_merge_shape _ _ _ _ Hmerge) as (_ & href & body & -> & _).
  rewrite Hlive. simpl. unfold merged at 1. rewrite core_resolve_obj.
  fold (merged c cfg href body).
  destruct (resolved_url _ _ _ _) as [url| |] eqn:Hurl; try done.
  rewrite merged_headers. simpl. intros [= <- <-].
  by exists href, body, url, w0.
Qed.

End ShapeFacts.

(** ** The hook registry: order, ejection, stable handles *)

(** C7. Whatever sequence of [use] and [eject] calls built a registry: its
    length is the number of registrations and handle [k] still names slot
    [k], which holds the [k]-th registration or is inert once [k] was
    ejected (nothing is compacted); the next handle issued is the number of
    registrations; [runFulfilled] calls exactly the success callbacks of
    the registrations not ejected, in strictly increasing slot order, each
    fed the value the one before returned. *)
Theorem hook_chain_order_and_stable_handles (ops : list Op) :
  let hs := apply_ops ops [] in
  length hs = length (registrations ops)
  /\ (forall k, hs !! k = (fun h => if ejected k ops then None else Some h)
                          <$> registrations ops !! k)
  /\ (forall onF onR, snd (use onF onR hs) = Z.of_nat (length (registrations ops)))
  /\ (forall v w,
        runFulfilled hs v w
        = (fst (success_chain (live_fulfilled hs) v),
           logged w (EvRunFulfilled v :: snd (success_chain (live_fulfilled hs) v))))
  /\ StronglySorted (fun p q => (fst p < fst q)%nat) (live_fulfilled hs)
  /\ (forall i f,
        (i, f) ∈ live_fulfilled hs
        <-> exists h, registrations ops !! i = Some h
                      /\ ejected i ops = false /\ onFulfilled h = Some f).
Proof.
  intros hs. destruct (registry_history ops) as [Hlen Hslots].
  fold hs in Hlen, Hslots. split_and!.
  - exact Hlen.
  - exact Hslots.
  - intros onF onR. rewrite use_snoc. simpl. by rewrite Hlen.
  - intros v w. apply runFulfilled_chain.
  - apply live_from_sorted.
  - intros i f. unfold live_fulfilled. rewrite elem_of_live_from. split.
    + intros (j & h & -> & Hl & Hf). simpl. rewrite Hslots in Hl.
      destruct (registrations ops !! j) as [h'|] eqn:Hr; [|done].
      simpl in Hl. destruct (ejected j ops); [done|].
      injection Hl as ->. by exists h.
    + intros (h & Hr & He & Hf). exists i, h. split_and!; [done| |done].
      by rewrite Hslots, Hr, He.
Qed.

(** C10. Ejecting a handle twice leaves the runs of both chains as one
    ejection does, and ejecting a number no [use] has issued for this
    registry leaves them as they were. *)
Theorem eject_idempotent_and_inert_on_unissued (hs : Interceptors) (id : Z) (v : JsVal) (w : World) :
  (runFulfilled (eject id (eject id hs)) v w = runFulfilled (eject id hs) v w
   /\ runRejected (eject id (eject id hs)) v w = runRejected (eject id hs) v w)
  /\ (~ (0 <= id < Z.of_nat (length hs)) ->
      runFulfilled (eject id hs) v w = runFulfilled hs v w
      /\ runRejected (eject id hs) v w = runRejected hs v w).
Proof.
  split.
  - by rewrite eject_eject.
  - intros Hid. by rewrite eject_unissued.
Qed.

(** ** The earlier revision *)

Lemma legacy_eject_eject id hs : Legacy.eject id (Legacy.eject id hs) = Legacy.eject id hs.
Proof.
  unfold Legacy.eject. destruct (id <? 0) eqn:Hneg; [done|].
  destruct (Z.to_nat id <? length hs)%nat eqn:Hin.
  - rewrite length_insert, Hin. by rewrite list_insert_insert_eq.
  - apply Nat.ltb_ge in Hin.
    assert (Hlen : length (hs ++ replicate (Z.to_nat id - length hs) None ++ [None])
                   = S (Z.to_nat id)).
    { rewrite !length_app, length_replicate. simpl. lia. }
    rewrite Hlen. rewrite (proj2 (Nat.ltb_lt _ _)) by lia.
    rewrite app_assoc. rewrite insert_app_r_alt by (rewrite length_app, length_replicate; lia).
    rewrite length_app, length_replicate.
    by replace (Z.to_nat id - (length hs + (Z.to_nat id - length hs)))%nat with 0%nat by lia.
Qed.

Lemma legacy_run_from_holes n : forall i v w,
  Legacy.run_from i (replicate n None) v w = (Return v, w).
Proof. induction n as [|n IH]; intros i v w; simpl; [done | apply IH]. Qed.

Lemma legacy_run_from_app hs tl : forall i v w,
  Legacy.run_from i (hs ++ tl) v w
  = match Legacy.run_from i hs v w with
    | (Return v', w') => Legacy.run_from (i + length hs) tl v' w'
    | o => o
    end.
Proof.
  induction hs as [|[fn|] hs IH]; intros i v w; simpl.
  - by rewrite Nat.add_0_r.
  - unfold bind, await. rewrite !emit_logged. destruct (fn v) as [v'| |]; try done.
    rewrite IH. by rewrite Nat.add_succ_r.
  - rewrite IH. by rewrite Nat.add_succ_r.
Qed.

Lemma legacy_run_from_grown hs n i v w :
  Legacy.run_from i (hs ++ replicate n None ++ [None]) v w = Legacy.run_from i hs v w.
Proof.
  rewrite legacy_run_from_app.
  destruct (Legacy.run_from i hs v w) as [[v'| |] w'] eqn:E; try done.
  rewrite <- replicate_S_end. apply legacy_run_from_holes.
Qed.

(** Its [run] too calls the callbacks still in place in slot order, each
    on the value the one before returned; the callbacks of this revision
    are the success callbacks of registrations without a failure callback. *)
Lemma legacy_run_chain hs v w :
  Legacy.run hs v w
  = runFulfilled (map (fun fn => (fun f => mkHandler (Some f) None) <$> fn) hs) v w.
Proof.
  unfold Legacy.run, runFulfilled, bind. rewrite !emit_logged.
  generalize (logged w [EvRunFulfilled v]) as w1. generalize 0%nat as i. revert v.
  induction hs as [|[fn|] hs IH]; intros v i w1; simpl.
  - done.
  - unfold bind, await. rewrite !emit_logged. by destruct (fn v).
  - apply IH.
Qed.

(** Ejecting a handle that was issued empties its slot and moves nothing. *)
Lemma legacy_eject_issued id hs :
  0 <= id < Z.of_nat (length hs) ->
  length (Legacy.eject id hs) = length hs
  /\ forall k, Legacy.eject id hs !! k
               = if decide (k = Z.to_nat id) then Some None else hs !! k.
Proof.
  intros Hid. unfold Legacy.eject.
  rewrite (proj2 (Z.ltb_ge _ _)) by lia. rewrite (proj2 (Nat.ltb_lt _ _)) by lia.
  split; [apply length_insert|]. intros k. destruct (decide (k = Z.to_nat id)) as [->|Hk].
  - apply list_lookup_insert_eq. lia.
  - by apply list_lookup_insert_ne.
Qed.

(** The earlier revision calls a body reader whatever the status. *)
Lemma legacy_decode_body_always_reads r w :
  exists o, Legacy.decode_body r w
            = (o, logged w [if includes (default "" (response_header r "content-type"))
                                 "application/json"
                            then EvJson else EvText]).
Proof.
  unfold Legacy.decode_body, try_catch, bind.
  destruct (includes _ _); rewrite emit_logged; unfold await, ret.
  - destruct (r_json r); eauto.
  - destruct (r_text r); eauto.
Qed.

Section LegacyPipeline.

Variable fetch : JsVal -> JsVal -> list HeaderMap -> Completion Response.
Variable c : Legacy.Client.

Lemma legacy_core_dispatch_spec final w :
  nullish final = false ->
  Legacy.core_dispatch fetch c final w
  = finish_timer (Legacy.arms_timer final) w
      (try_catch (Legacy.core_try fetch c final)
         (fun e => throw (Legacy.normalize final e))
         (armed_world (Legacy.arms_timer final) (getp final "timeout") w)).
Proof.
  intros Hfinal.
  unfold Legacy.core_dispatch, bind at 1, member. rewrite Hfinal. unfold ret at 1.
  fold (Legacy.arms_timer final).
  unfold armed_world, disarmed_world, finish_timer, bind at 1.
  destruct (Legacy.arms_timer final).
  - unfold bind at 1, setTimeout, ret, try_finally. simpl.
    fold (timer_id w). fold (logged w [EvSetTimeout (timer_id w) (getp final "timeout")]).
    destruct (try_catch _ _ _) as [[v|e|] w2]; done.
  - unfold ret, try_finally.
    destruct (try_catch _ _ _) as [[v|e|] w2]; simpl; try done.
    all: by destruct w2.
Qed.

(** In the earlier revision a status outside [200, 300) is raised to the
    caller as it is: there is no failure chain. *)
Lemma legacy_status_failure_raised final w r parsed w2 :
  nullish final = false ->
  Legacy.transport fetch final w = Return r ->
  Legacy.decode_body r
    (logged (armed_world (Legacy.arms_timer final) (getp final "timeout") w)
       [EvFetch (getp final "url") (Legacy.fetch_init final)])
  = (Return parsed, w2) ->
  r_status r < 200 \/ 300 <= r_status r ->
  Legacy.core_dispatch fetch c final w
  = (Throw (Legacy.status_error r parsed final),
     disarmed_world (Legacy.arms_timer final) w w2).
Proof.
  intros Hfinal Hr Hdecode Hstatus.
  rewrite legacy_core_dispatch_spec by done.
  unfold try_catch, Legacy.core_try, bind at 1, Legacy.do_fetch.
  assert (Legacy.transport fetch final
            (armed_world (Legacy.arms_timer final) (getp final "timeout") w)
          = Return r) as ->.
  { rewrite <- Hr. unfold armed_world. by destruct (Legacy.arms_timer final). }
  unfold bind at 1. unfold logged in Hdecode. rewrite Hdecode.
  assert ((r_status r <? 200) || (r_status r >=? 300) = true) as ->.
  { apply orb_true_iff. destruct Hstatus; [left; by apply Z.ltb_lt | right; apply Z.geb_le; lia]. }
  reflexivity.
Qed.

(** And a cancelled transport call is raised as the timeout error. *)
Lemma legacy_cancellation_raised final w e :
  nullish final = false ->
  Legacy.transport fetch final w = Throw e ->
  is_str (getp e "name") "AbortError" = true ->
  truthy (getp e "isAxiosError") = false ->
  Legacy.core_dispatch fetch c final w
  = (Throw (makeError
              (VStr ("timeout of " ++ ToString (getp final "timeout") ++ "ms exceeded"))
              final VUndefined (VNum 0)),
     disarmed_world (Legacy.arms_timer final) w
       (logged (armed_world (Legacy.arms_timer final) (getp final "timeout") w)
          [EvFetch (getp final "url") (Legacy.fetch_init final)])).
Proof.
  intros Hfinal Hr Hname Haxios.
  rewrite legacy_core_dispatch_spec by done.
  unfold try_catch, Legacy.core_try, bind at 1, Legacy.do_fetch.
  assert (Legacy.transport fetch final
            (armed_world (Legacy.arms_timer final) (getp final "timeout") w)
          = Throw e) as ->.
  { rewrite <- Hr. unfold armed_world. by destruct (Legacy.arms_timer final). }
  unfold throw, Legacy.normalize. by rewrite Haxios, Hname.
Qed.

End LegacyPipeline.

(** ** The request pipeline *)

Section PipelineTheorems.

Variable JSON_stringify : JsVal -> string.
Variable URL_resolve : string -> string -> Completion string.
Variable fetch : JsVal -> JsVal -> list HeaderMap -> Completion Response.
Variable c : Client.

Lemma hook_not_timer evs :
  Forall (fun e => is_hook e = true) evs -> Forall (fun e => is_timer e = false) evs.
Proof. intros H. eapply Forall_impl; [exact H|]. by intros []. Qed.

Lemma call_not_timer evs :
  Forall (fun e => is_call e = true) evs -> Forall (fun e => is_timer e = false) evs.
Proof. intros H. eapply Forall_impl; [exact H|]. by intros []. Qed.

(** C9. In every call that settles, the timer events logged by the call are
    either none at all, or one [setTimeout] followed by one [clearTimeout]
    of the same timer, the latter being the last thing the call does.  So a
    call that sets its timer clears it exactly once on whichever path it
    leaves by; a call that ends before dispatch sets none. *)
Theorem timer_cleared_exactly_once (cfg : JsVal) (w : World) (o : Completion JsVal) (w' : World) :
  core JSON_stringify URL_resolve fetch c cfg w = (o, w') ->
  o <> Pending ->
  exists evs,
    log w' = (log w ++ evs)%list
    /\ (List.filter is_timer evs = []
        \/ exists id ms pre,
             evs = (pre ++ [EvClearTimeout id])%list
             /\ List.filter is_timer pre = [EvSetTimeout id ms]).
Proof.
  rewrite core_spec. intros Hcore Hsettled.
  destruct (core_prepare _ _ _ _ _) as [[[final|v]|e|] w1] eqn:Hprep;
    destruct (appends_core_prepare _ _ _ _ _ _ _ Hprep) as (evs1 & Hl1 & Hall1%hook_not_timer).
  2-4: injection Hcore as <- <-; exists evs1; split; [done | left; by apply filter_none].
  rewrite core_dispatch_spec in Hcore.
  destruct (try_catch _ _ _) as [o2 w2] eqn:Htry.
  destruct (appends_core_try_catch _ _ _ _ _ _ Htry) as (evs2 & Hl2 & Hall2%call_not_timer).
  unfold finish_timer, armed_world, disarmed_world in *.
  destruct (arms_timer final).
  - exists (evs1 ++ EvSetTimeout (timer_id w1) (getp final "timeout") :: evs2
            ++ [EvClearTimeout (timer_id w1)])%list.
    assert (w' = logged w2 [EvClearTimeout (timer_id w1)]) as ->.
    { destruct o2; injection Hcore as <- <-; done. }
    split.
    + simpl. rewrite Hl2. simpl. rewrite Hl1. by rewrite <- !app_assoc.
    + right. exists (timer_id w1), (getp final "timeout"),
        (evs1 ++ EvSetTimeout (timer_id w1) (getp final "timeout") :: evs2)%list.
      split; [by rewrite <- app_assoc|].
      rewrite List.filter_app. simpl. by rewrite !filter_none.
  - exists (evs1 ++ evs2)%list.
    assert (w' = w2) as -> by (destruct o2; injection Hcore as <- <-; done).
    split; [by rewrite Hl2, Hl1, app_assoc|].
    left. rewrite List.filter_app. by rewrite !filter_none.
Qed.

(** C1, amended. When the transport answers with a status outside
    [200, 300) (and the body read settles), the error handed to the response
    failure chain is the StructuredError with message "Request failed with
    status code {status}", the numeric status, and the normalised response
    with the decoded body; the call ends as the failure chain does on that
    error, and raises that very error when no failure callback is
    registered or each one throws it again. *)
Theorem status_failure_raises_structured_error
    (cfg : JsVal) (w : World) (final : JsVal) (w1 : World) (r : Response) (parsed : JsVal) :
  core_prepare JSON_stringify URL_resolve c cfg w = (Return (Dispatch final), w1) ->
  transport fetch final w1 = Return r ->
  parsed_body r = Return parsed ->
  r_status r < 200 \/ 300 <= r_status r ->
  let E := status_error r parsed final in
  let w2 := fetched (arms_timer final) (fetch_init final) final w1 (decode_events r) in
  getp E "message" = VStr ("Request failed with status code " ++ Z_to_string (r_status r))
  /\ getp E "status" = VNum (r_status r)
  /\ getp E "response" = wrap r parsed final
  /\ getp (getp E "response") "data" = parsed
  /\ core JSON_stringify URL_resolve fetch c cfg w
     = finish_timer (arms_timer final) w1 (recover c E w2)
  /\ ((forall i f, (i, f) ∈ live_rejected (res c) -> f E = Throw E) ->
      fst (core JSON_stringify URL_resolve fetch c cfg w) = Throw E).
Proof.
  intros Hprep Hr Hparsed Hstatus E w2.
  assert (Hout : (r_status r <? 200) || (r_status r >=? 300) = true).
  { apply orb_true_iff. destruct Hstatus; [left; by apply Z.ltb_lt | right; apply Z.geb_le; lia]. }
  pose proof (core_status_failure _ _ fetch c _ _ _ _ _ _ Hprep Hr Hparsed Hout) as Hcore.
  split_and!; try done.
  intros Hrethrow. rewrite Hcore, recover_spec.
  fold E. rewrite (failure_chain_rethrown _ E Hrethrow). done.
Qed.

(** C2, amended. When the transport call fails with an error named
    AbortError: if that error is not already a structured error (its
    [isAxiosError] is not truthy), the error handed to the response failure
    chain is the StructuredError with status 0 and message "timeout of
    {timeout}ms exceeded", {timeout} being the timeout of the resolved
    config; if it already is a structured error, it is handed to the
    failure chain as it is.  In both cases the call ends as the failure
    chain does on that error, and raises that very error when no failure
    callback is registered or each one throws it again. *)
Theorem cancellation_raises_timeout_error
    (cfg : JsVal) (w : World) (final : JsVal) (w1 : World) (e : JsVal) :
  core_prepare JSON_stringify URL_resolve c cfg w = (Return (Dispatch final), w1) ->
  transport fetch final w1 = Throw e ->
  is_str (getp e "name") "AbortError" = true ->
  let message := ("timeout of " ++ ToString (getp final "timeout") ++ "ms exceeded")%string in
  let E := makeError (VStr message) final (getp e "response") (VNum 0) in
  let w2 := fetched (arms_timer final) (fetch_init final) final w1 [] in
  (truthy (getp e "isAxiosError") = false ->
   getp E "status" = VNum 0
   /\ getp E "message" = VStr message
   /\ core JSON_stringify URL_resolve fetch c cfg w
      = finish_timer (arms_timer final) w1 (recover c E w2)
   /\ ((forall i f, (i, f) ∈ live_rejected (res c) -> f E = Throw E) ->
       fst (core JSON_stringify URL_resolve fetch c cfg w) = Throw E))
  /\ (truthy (getp e "isAxiosError") = true ->
      core JSON_stringify URL_resolve fetch c cfg w
      = finish_timer (arms_timer final) w1 (recover c e w2)
      /\ ((forall i f, (i, f) ∈ live_rejected (res c) -> f e = Throw e) ->
          fst (core JSON_stringify URL_resolve fetch c cfg w) = Throw e)).
Proof.
  intros Hprep Hr Hname message E w2.
  pose proof (core_transport_failure _ _ fetch c _ _ _ _ _ Hprep Hr) as Hcore.
  split; intros Haxios.
  - assert (HE : normalize final e = E).
    { unfold normalize. by rewrite Haxios, Hname. }
    rewrite HE in Hcore. split_and!; try done.
    intros Hrethrow. rewrite Hcore, recover_spec.
    rewrite (failure_chain_rethrown _ E Hrethrow). done.
  - assert (HE : normalize final e = e).
    { unfold normalize. by rewrite Haxios. }
    rewrite HE in Hcore. split; [done|].
    intros Hrethrow. rewrite Hcore, recover_spec.
    rewrite (failure_chain_rethrown _ e Hrethrow). done.
Qed.

Lemma fulfilled_not_rejected evs :
  Forall (fun e => is_fulfilled e = true) evs ->
  Forall (fun e => is_run_rejected e = false) evs.
Proof. intros H. eapply Forall_impl; [exact H|]. by intros []. Qed.

Lemma fetched_log arms init final w1 evs :
  exists pre,
    log (fetched arms init final w1 evs) = (log w1 ++ pre ++ evs)%list
    /\ Forall (fun e => is_run_rejected e = false) pre.
Proof.
  unfold fetched, dispatch_world, armed_world. destruct arms; simpl.
  - exists [EvSetTimeout (timer_id w1) (getp final "timeout"); EvFetch (getp final "url") init].
    split; [by rewrite <- app_assoc | by repeat constructor].
  - exists [EvFetch (getp final "url") init]. split; [done | by repeat constructor].
Qed.

Lemma pipeline_failure_core cfg w E w2 armed w1 :
  pipeline_failure JSON_stringify URL_resolve fetch c cfg w E w2 armed w1 ->
  core JSON_stringify URL_resolve fetch c cfg w = finish_timer armed w1 (recover c E w2)
  /\ exists pre, log w2 = (log w ++ pre)%list
                 /\ Forall (fun e => is_run_rejected e = false) pre.
Proof.
  intros [final0 w0 e evs Hmerge Hchain | final w0 r parsed Hprep Hr Hparsed Hstatus
         | final w0 e Hprep Hr Haxios Hname | final w0 e Hprep Hr Haxios Hname
         | final w0 e w3 Hprep Htry].
  - split.
    + rewrite core_spec. unfold core_prepare, bind at 1. rewrite Hmerge.
      unfold bind at 1, core_request_hooks, try_catch, bind at 1.
      rewrite runFulfilled_chain, Hchain. simpl.
      unfold bind. destruct (recover c _ _) as [[v|e'|] w3]; done.
    + apply silent_core_merge in Hmerge. exists (EvRunFulfilled final0 :: evs).
      split; [simpl; by rewrite Hmerge|].
      constructor; [done|]. apply fulfilled_not_rejected.
      pose proof (chain_events_fulfilled (live_fulfilled (req c)) final0) as H.
      by rewrite Hchain in H.
  - split.
    + eapply core_status_failure; [done..|].
      apply orb_true_iff. destruct Hstatus; [left; by apply Z.ltb_lt | right; apply Z.geb_le; lia].
    + destruct (core_prepare_dispatch_log _ _ _ _ _ _ _ Hprep) as (ev1 & Hl1 & Hall1%fulfilled_not_rejected).
      destruct (fetched_log (arms_timer final) (fetch_init final) final w0 (decode_events r))
        as (pre & Hl & Hpre).
      exists (ev1 ++ pre ++ decode_events r)%list. split; [by rewrite Hl, Hl1, <- !app_assoc|].
      rewrite !Forall_app. split_and!; [done..|].
      unfold decode_events. destruct (bodiless r); [constructor|].
      destruct (includes _ _); by repeat constructor.
  - split.
    + rewrite (core_transport_failure _ _ fetch c _ _ _ _ _ Hprep Hr).
      unfold normalize. by rewrite Haxios, Hname.
    + destruct (core_prepare_dispatch_log _ _ _ _ _ _ _ Hprep) as (ev1 & Hl1 & Hall1%fulfilled_not_rejected).
      destruct (fetched_log (arms_timer final) (fetch_init final) final w0 [])
        as (pre & Hl & Hpre).
      exists (ev1 ++ pre)%list. split; [by rewrite Hl, Hl1, app_nil_r, <- !app_assoc|].
      by apply Forall_app.
  - split.
    + rewrite (core_transport_failure _ _ fetch c _ _ _ _ _ Hprep Hr).
      unfold normalize. by rewrite Haxios, Hname.
    + destruct (core_prepare_dispatch_log _ _ _ _ _ _ _ Hprep) as (ev1 & Hl1 & Hall1%fulfilled_not_rejected).
      destruct (fetched_log (arms_timer final) (fetch_init final) final w0 [])
        as (pre & Hl & Hpre).
      exists (ev1 ++ pre)%list. split; [by rewrite Hl, Hl1, app_nil_r, <- !app_assoc|].
      by apply Forall_app.
  - split.
    + rewrite (core_reaches_dispatch _ _ fetch c _ _ _ _ Hprep).
      unfold try_catch. by rewrite Htry.
    + destruct (core_prepare_dispatch_log _ _ _ _ _ _ _ Hprep) as (ev1 & Hl1 & Hall1%fulfilled_not_rejected).
      destruct (appends_core_try _ _ _ _ _ _ Htry) as (ev2 & Hl2 & Hall2).
      exists (ev1 ++ (if arms_timer final
                      then [EvSetTimeout (timer_id w0) (getp final "timeout")] else [])
                  ++ ev2)%list.
      split.
      * rewrite Hl2. unfold dispatch_world, armed_world.
        destruct (arms_timer final); simpl; rewrite Hl1; by rewrite <- ?app_assoc.
      * rewrite !Forall_app. split_and!; [done| |].
        -- destruct (arms_timer final); by repeat constructor.
        -- eapply Forall_impl; [exact Hall2|]. by intros [].
Qed.

(** C3. Whatever the kind of failure (a request hook rejects, the status
    is outside [200, 300), the transport fails, the call is cancelled), the
    normalised error [E] enters the response failure chain exactly once
    during the call; the chain runs as [failure_chain] says (the first
    callback that returns settles it, one that throws replaces the error
    for those after it, and the error left at the end is thrown); a value
    it returns resolves the call, to its [data] field when it has both
    [status] and [data], else to the value itself; an error it leaves is
    what the call raises. *)
Theorem failure_offered_once_to_failure_chain
    (cfg : JsVal) (w : World) (E : JsVal) (w2 : World) (armed : bool) (w1 : World) :
  pipeline_failure JSON_stringify URL_resolve fetch c cfg w E w2 armed w1 ->
  let chain := failure_chain (live_rejected (res c)) E in
  runRejected (res c) E w2 = (fst chain, logged w2 (EvRunRejected E :: snd chain))
  /\ core JSON_stringify URL_resolve fetch c cfg w
     = finish_timer armed w1
         (match fst chain with
          | Return maybe => Return (recovered_value maybe)
          | Throw final_error => Throw final_error
          | Pending => Pending
          end,
          logged w2 (EvRunRejected E :: snd chain))
  /\ (forall maybe,
        recovered_value maybe
        = if has_prop "status" maybe && has_prop "data" maybe
          then getp maybe "data" else maybe)
  /\ (forall o w', core JSON_stringify URL_resolve fetch c cfg w = (o, w') ->
        exists evs, log w' = (log w ++ evs)%list
                    /\ List.filter is_run_rejected evs = [EvRunRejected E]).
Proof.
  intros Hfail chain.
  destruct (pipeline_failure_core _ _ _ _ _ _ Hfail) as (Hcore & pre & Hpre & Hall).
  split_and!.
  - apply runRejected_chain.
  - by rewrite Hcore, recover_spec.
  - intros maybe. unfold recovered_value.
    destruct maybe; simpl; rewrite ?andb_false_r; done.
  - intros o w'. rewrite Hcore. intros (evs & Hl & Hf)%finish_recover_once.
    exists (pre ++ evs)%list. split; [by rewrite Hl, Hpre, app_assoc|].
    by rewrite List.filter_app, filter_none.
Qed.

(** C5. A response with status 204 or 205 is never decoded: [decode_body]
    calls neither reader and leaves [null]; the response object handed to
    the response hooks carries [data: null]; and nothing the call logs is a
    call of a body reader. *)
Theorem bodiless_status_skips_decoding
    (cfg : JsVal) (w : World) (final : JsVal) (w1 : World) (r : Response) :
  core_prepare JSON_stringify URL_resolve c cfg w = (Return (Dispatch final), w1) ->
  transport fetch final w1 = Return r ->
  r_status r = 204 \/ r_status r = 205 ->
  (forall w0, decode_body r w0 = (Return VNull, w0))
  /\ getp (wrap r VNull final) "data" = VNull
  /\ core JSON_stringify URL_resolve fetch c cfg w
     = finish_timer (arms_timer final) w1
         (try_catch
            (do processed <- runFulfilled (res c) (wrap r VNull final);
             member processed "data")
            (fun e => recover c (normalize final e))
            (fetched (arms_timer final) (fetch_init final) final w1 []))
  /\ (forall o w', core JSON_stringify URL_resolve fetch c cfg w = (o, w') ->
        exists evs, log w' = (log w ++ evs)%list /\ List.filter is_decode evs = []).
Proof.
  intros Hprep Hr Hstatus.
  assert (Hbodiless : bodiless r = true).
  { unfold bodiless. apply orb_true_iff. destruct Hstatus as [-> | ->]; auto. }
  assert (Hparsed : parsed_body r = Return VNull) by (unfold parsed_body; by rewrite Hbodiless).
  assert (Hevents : decode_events r = []) by (unfold decode_events; by rewrite Hbodiless).
  assert (Hin : (r_status r <? 200) || (r_status r >=? 300) = false)
    by (destruct Hstatus as [-> | ->]; done).
  pose proof (core_status_success _ _ fetch c _ _ _ _ _ _ Hprep Hr Hparsed Hin) as Hcore.
  rewrite Hevents in Hcore.
  split_and!; [|done|exact Hcore|].
  - intros w0. by rewrite decode_body_spec, Hparsed, Hevents, logged_nil.
  - intros o w'. rewrite Hcore.
    destruct (try_catch _ _ _) as [o2 w2] eqn:Htry. intros Hfin.
    assert (Happ : appends is_hook
              (try_catch
                 (do processed <- runFulfilled (res c) (wrap r VNull final);
                  member processed "data")
                 (fun e => recover c (normalize final e)))).
    { apply appends_try_catch; [|intros; apply appends_recover].
      apply appends_bind; [apply appends_runFulfilled|].
      intros. apply silent_appends, silent_member. }
    destruct (Happ _ _ _ Htry) as (evs2 & Hl2 & Hall2).
    destruct (appends_core_prepare _ _ _ _ _ _ _ Hprep) as (evs1 & Hl1 & Hall1).
    assert (Hnd : forall evs, Forall (fun e => is_hook e = true) evs ->
                              Forall (fun e => is_decode e = false) evs).
    { intros evs H. eapply Forall_impl; [exact H|]. by intros []. }
    apply Hnd in Hall1, Hall2.
    unfold fetched, dispatch_world, armed_world, finish_timer, disarmed_world in *.
    destruct (arms_timer final); simpl in Hl2.
    + exists (evs1 ++ [EvSetTimeout (timer_id w1) (getp final "timeout");
                       EvFetch (getp final "url") (fetch_init final)]
                   ++ evs2 ++ match o2 with
                              | Pending => []
                              | _ => [EvClearTimeout (timer_id w1)]
                              end)%list.
      split.
      * destruct o2; injection Hfin as <- <-; simpl; rewrite Hl2, Hl1;
          rewrite <- ?app_assoc; simpl; by rewrite ?app_nil_r, <- ?app_assoc.
      * rewrite !List.filter_app. simpl. rewrite !filter_none by done.
        by destruct o2.
    + exists (evs1 ++ [EvFetch (getp final "url") (fetch_init final)] ++ evs2)%list.
      split.
      * destruct o2; injection Hfin as <- <-; rewrite Hl2, Hl1;
          by rewrite <- ?app_assoc.
      * rewrite !List.filter_app. simpl. by rewrite !filter_none.
Qed.

(** C6. When the body reader of a response raises, the exception goes no
    further: [parsed] is [null] if the content type names JSON and the
    empty string otherwise; with a status in [200, 300) the call goes on to
    the response hooks with that body, and with another status it fails
    with the status error carrying that body. *)
Theorem decode_failure_degrades
    (cfg : JsVal) (w : World) (final : JsVal) (w1 : World) (r : Response) (x : JsVal) :
  core_prepare JSON_stringify URL_resolve c cfg w = (Return (Dispatch final), w1) ->
  transport fetch final w1 = Return r ->
  r_status r <> 204 -> r_status r <> 205 ->
  (if includes (default "" (response_header r "content-type")) "application/json"
   then r_json r = Throw x else r_text r = Throw x) ->
  let parsed :=
    if includes (default "" (response_header r "content-type")) "application/json"
    then VNull else VStr "" in
  let w2 := fetched (arms_timer final) (fetch_init final) final w1 (decode_events r) in
  (forall w0, decode_body r w0 = (Return parsed, logged w0 (decode_events r)))
  /\ (200 <= r_status r < 300 ->
      core JSON_stringify URL_resolve fetch c cfg w
      = finish_timer (arms_timer final) w1
          (try_catch
             (do processed <- runFulfilled (res c) (wrap r parsed final);
              member processed "data")
             (fun e => recover c (normalize final e)) w2))
  /\ (r_status r < 200 \/ 300 <= r_status r ->
      core JSON_stringify URL_resolve fetch c cfg w
      = finish_timer (arms_timer final) w1 (recover c (status_error r parsed final) w2)).
Proof.
  intros Hprep Hr H204 H205 Hreader parsed w2.
  assert (Hparsed : parsed_body r = Return parsed).
  { unfold parsed_body, bodiless, parsed.
    rewrite (proj2 (Z.eqb_neq _ _) H204), (proj2 (Z.eqb_neq _ _) H205). simpl.
    destruct (includes _ _); by rewrite Hreader. }
  split_and!.
  - intros w0. by rewrite decode_body_spec, Hparsed.
  - intros Hin. eapply core_status_success; [done..|].
    apply orb_false_iff. split; [apply Z.ltb_ge; lia | rewrite Z.geb_leb; apply Z.leb_gt; lia].
  - intros Hout. eapply core_status_failure; [done..|].
    apply orb_true_iff. destruct Hout; [left; by apply Z.ltb_lt | right; apply Z.geb_le; lia].
Qed.

End PipelineTheorems.

(** ** The merger *)

Section MergeTheorems.

Variable JSON_stringify : JsVal -> string.
Variable c : Client.

Lemma toHeaders_returns h w D :
  headers_view w h = Return D -> exists ref w', toHeaders h w = (Return ref, w').
Proof.
  intros H. destruct h; unfold toHeaders; unfold headers_view in H.
  all: try match type of H with
           | match header_entries ?x with _ => _ end = _ =>
               destruct (header_entries x) as [l| |] eqn:E; [|done..];
               unfold bind, await, headers_new; eauto
           end.
  unfold ret. eauto.
Qed.

Lemma binary_or_text_not_plain body : binary_or_text body -> isPlainObj body = false.
Proof. by destruct body. Qed.

(** C4. The merger returns for every config object whose header
    collections can be read.  The collection it resolves is the per-call
    headers over the default ones; when the body is a structured object and
    that collection has no Content-Type, the resolved collection gains
    [content-type: application/json] and the resolved body is the JSON text
    of the body; a FormData, Blob, ArrayBuffer, URLSearchParams or string
    body leaves the collection and the body as they are. *)
Theorem merger_encodes_structured_bodies (cfg : JsVal) (w : World) (D C : HeaderMap) :
  nullish cfg = false ->
  valid_headers w (getp (VObj (defaults c)) "headers") ->
  valid_headers w (getp cfg "headers") ->
  headers_view w (getp (VObj (defaults c)) "headers") = Return D ->
  headers_view w (getp cfg "headers") = Return C ->
  exists final w' href,
    core_merge JSON_stringify c cfg w = (Return final, w')
    /\ getp final "headers" = VHeaders href
    /\ (isPlainObj (getp cfg "data") = true ->
        (C ∪ D) !! "content-type" = None ->
        deref w' href = <["content-type" := "application/json"]> (C ∪ D)
        /\ deref w' href !! "content-type" = Some "application/json"
        /\ getp final "data" = VStr (JSON_stringify (getp cfg "data")))
    /\ (binary_or_text (getp cfg "data") ->
        deref w' href = C ∪ D
        /\ getp final "data" = getp cfg "data").
Proof.
  intros Hcfg Hvd Hvc HD HC.
  assert (Hret : exists final w', core_merge JSON_stringify c cfg w = (Return final, w')).
  { unfold core_merge.
    destruct (toHeaders_returns _ _ _ HD) as (href & wa & H1).
    unfold bind at 1. rewrite H1.
    unfold bind at 1, member. rewrite Hcfg. unfold ret at 1.
    destruct (toHeaders_view _ _ _ _ H1 Hvd) as (D' & _ & _ & _ & Hle & Hsame & _).
    assert (HC' : headers_view wa (getp cfg "headers") = Return C)
      by (by rewrite (headers_view_stable w wa)).
    destruct (toHeaders_returns _ _ _ HC') as (cref & wb & H2).
    unfold bind at 1. rewrite H2.
    unfold headers_forEach_set, headers_has, headers_get, headers_set.
    rewrite content_type_name_ok, content_type_ok.
    unfold headers_update, headers_read, bind, ret.
    destruct (isPlainObj _ && negb _); eauto. }
  destruct Hret as (final & w' & Hmerge). exists final, w'.
  destruct (core_merge_spec _ _ _ _ _ _ Hmerge Hvd Hvc)
    as (href & D' & C' & HD' & HC' & Hh & _ & _ & Hderef & Hdata & _).
  assert (D' = D) as -> by congruence. assert (C' = C) as -> by congruence.
  exists href. split_and!; [done..| |].
  - intros Hplain Hnone. rewrite Hplain, Hnone in Hderef. simpl in Hderef.
    rewrite Hderef in Hdata |- *. rewrite lookup_insert_eq in Hdata |- *.
    rewrite Hplain in Hdata. by split_and!.
  - intros Hbin%binary_or_text_not_plain. rewrite Hbin in Hderef, Hdata. by split.
Qed.

(** The merger returns whenever both header collections can be read. *)
Lemma core_merge_returns cfg w D C :
  nullish cfg = false ->
  valid_headers w (getp (VObj (defaults c)) "headers") ->
  headers_view w (getp (VObj (defaults c)) "headers") = Return D ->
  headers_view w (getp cfg "headers") = Return C ->
  exists final w', core_merge JSON_stringify c cfg w = (Return final, w').
Proof.
  intros Hcfg Hvd HD HC. unfold core_merge.
  destruct (toHeaders_returns _ _ _ HD) as (href & wa & H1).
  unfold bind at 1. rewrite H1.
  unfold bind at 1, member. rewrite Hcfg. unfold ret at 1.
  destruct (toHeaders_view _ _ _ _ H1 Hvd) as (D' & _ & _ & _ & Hle & Hsame & _).
  assert (HC' : exists C', headers_view wa (getp cfg "headers") = Return C').
  { destruct (getp cfg "headers"); simpl in *; eauto. }
  destruct HC' as (C' & HC').
  destruct (toHeaders_returns _ _ _ HC') as (cref & wb & H2).
  unfold bind at 1. rewrite H2.
  unfold headers_forEach_set, headers_has, headers_get, headers_set.
  rewrite content_type_name_ok, content_type_ok.
  unfold headers_update, headers_read, bind, ret.
  destruct (isPlainObj _ && negb _); eauto.
Qed.

(** When the default headers are held as a Headers instance, the merger
    writes the per-call headers into that very instance. *)
Lemma merger_writes_into_default_headers cfg w final w' ref C :
  getp (VObj (defaults c)) "headers" = VHeaders ref ->
  (ref < length (heap w))%nat ->
  valid_headers w (getp cfg "headers") ->
  headers_view w (getp cfg "headers") = Return C ->
  core_merge JSON_stringify c cfg w = (Return final, w') ->
  forall k v, C !! k = Some v -> k <> "content-type" -> deref w' ref !! k = Some v.
Proof.
  intros Hd Hlt Hvc HC Hmerge k v Hk Hne.
  assert (Hvd : valid_headers w (getp (VObj (defaults c)) "headers")) by (by rewrite Hd).
  destruct (core_merge_spec _ _ _ _ _ _ Hmerge Hvd Hvc)
    as (href & D' & C' & HD' & HC' & Hh & _ & Hor & Hderef & _).
  assert (C' = C) as -> by congruence.
  assert (href = ref) as ->.
  { destruct Hor as [Heq | [Hno _]]; [congruence | by destruct (Hno ref)]. }
  rewrite Hderef.
  assert ((C ∪ D') !! k = Some v) by (by apply lookup_union_Some_l).
  destruct (_ && _); [by rewrite lookup_insert_ne | done].
Qed.

(** When they are held as a plain object, the merger works on a new
    instance and no stored collection changes. *)
Lemma merger_copies_plain_default_headers cfg w final w' :
  (forall ref, getp (VObj (defaults c)) "headers" <> VHeaders ref) ->
  valid_headers w (getp cfg "headers") ->
  core_merge JSON_stringify c cfg w = (Return final, w') ->
  forall r, (r < length (heap w))%nat -> deref w' r = deref w r.
Proof.
  intros Hplain Hvc Hmerge r Hr.
  assert (Hvd : valid_headers w (getp (VObj (defaults c)) "headers")).
  { destruct (getp (VObj (defaults c)) "headers") eqn:E; simpl; try done.
    by destruct (Hplain ref). }
  destruct (core_merge_spec _ _ _ _ _ _ Hmerge Hvd Hvc)
    as (href & D' & C' & _ & _ & _ & _ & Hor & _ & _ & Hframe).
  destruct Hor as [Heq | [_ Hge]]; [by destruct (Hplain href)|].
  apply Hframe; lia.
Qed.

End MergeTheorems.

(** ** Requests and the default headers *)

Section DefaultsTheorems.

Variable JSON_stringify : JsVal -> string.
Variable URL_resolve : string -> string -> Completion string.
Variable fetch : JsVal -> JsVal -> list HeaderMap -> Completion Response.
Variable c : Client.

(** Once the default headers are a Headers instance (after [setHeader] or
    [removeHeader], or when [createHttp] was given one), every header of a
    call is written into that instance and is still there when the call
    completes, whatever its outcome. *)
Lemma request_writes_into_default_headers cfg w ref C o w' :
  getp (VObj (defaults c)) "headers" = VHeaders ref ->
  (ref < length (heap w))%nat ->
  nullish cfg = false ->
  valid_headers w (getp cfg "headers") ->
  headers_view w (getp cfg "headers") = Return C ->
  core JSON_stringify URL_resolve fetch c cfg w = (o, w') ->
  forall k v, C !! k = Some v -> k <> "content-type" -> deref w' ref !! k = Some v.
Proof.
  intros Hd Hlt Hcfg Hvc HC Hcore k v Hk Hne.
  assert (Hvd : valid_headers w (getp (VObj (defaults c)) "headers")) by (by rewrite Hd).
  assert (HD : headers_view w (getp (VObj (defaults c)) "headers") = Return (deref w ref))
    by (by rewrite Hd).
  destruct (core_merge_returns JSON_stringify c cfg w _ _ Hcfg Hvd HD HC)
    as (final0 & w0 & Hmerge).
  pose proof (merger_writes_into_default_headers _ _ _ _ _ _ _ _ Hd Hlt Hvc HC Hmerge k v Hk Hne)
    as Hleak.
  assert (Hlen : (ref < length (heap w0))%nat).
  { destruct (core_merge_spec _ _ _ _ _ _ Hmerge Hvd Hvc)
      as (href' & _ & _ & _ & _ & _ & Hlt' & Hor & _).
    destruct Hor as [Heq | [Hno _]]; [|by destruct (Hno ref)].
    rewrite Hd in Heq. by injection Heq as ->. }
  revert Hcore. unfold core, core_prepare. unfold bind at 1 2. rewrite Hmerge.
  intros Hrest.
  assert (Hpres : preserves
            (fun w1 =>
               match
                 match core_request_hooks c final0 w1 with
                 | (Return a, w2) =>
                     match a with
                     | Dispatch final =>
                         do final1 <- core_resolve URL_resolve c cfg final; ret (Dispatch final1)
                     | Done v0 => ret (Done v0)
                     end w2
                 | (Throw e, w2) => (Throw e, w2)
                 | (Pending, w2) => (Pending, w2)
                 end
               with
               | (Return a, w2) =>
                   match a with
                   | Dispatch final => core_dispatch fetch c final
                   | Done v0 => ret v0
                   end w2
               | (Throw e, w2) => (Throw e, w2)
               | (Pending, w2) => (Pending, w2)
               end)).
  { change (preserves
              (do step <- (do step <- core_request_hooks c final0;
                           match step with
                           | Done v0 => ret (Done v0)
                           | Dispatch final =>
                               do final1 <- core_resolve URL_resolve c cfg final;
                               ret (Dispatch final1)
                           end);
               match step with
               | Done v0 => ret v0
               | Dispatch final => core_dispatch fetch c final
               end)).
    apply preserves_bind; [|intros [final|v0]; [apply preserves_core_dispatch | frame]].
    apply preserves_bind; [apply preserves_core_request_hooks|]. intros [final|v0]; [|frame].
    apply preserves_bind; [apply preserves_core_resolve | intros; frame]. }
  destruct (Hpres _ _ _ Hrest) as [_ Hsame]. by rewrite Hsame.
Qed.

End DefaultsTheorems.
(** ** The hook registry: how registration and ejection change a run *)

Lemma runFulfilled_from_app hs tl : forall i v w,
  runFulfilled_from i (hs ++ tl) v w
  = match runFulfilled_from i hs v w with
    | (Return v', w') => runFulfilled_from (i + length hs) tl v' w'
    | o => o
    end.
Proof.
  induction hs as [|h hs IH]; intros i v w; simpl.
  - by rewrite Nat.add_0_r.
  - destruct h as [[[f|] onR]|]; simpl.
    + unfold bind, await. rewrite !emit_logged. destruct (f v) as [v'| |]; try done.
      rewrite IH. by rewrite Nat.add_succ_r.
    + rewrite IH. by rewrite Nat.add_succ_r.
    + rewrite IH. by rewrite Nat.add_succ_r.
Qed.

Lemma runRejected_from_app hs tl : forall i e w,
  runRejected_from i (hs ++ tl) e w
  = match runRejected_from i hs e w with
    | (Throw e', w') => runRejected_from (i + length hs) tl e' w'
    | o => o
    end.
Proof.
  induction hs as [|h hs IH]; intros i e w; simpl.
  - by rewrite Nat.add_0_r.
  - destruct h as [[onF [g|]]|]; simpl.
    + unfold bind, try_catch, await. rewrite !emit_logged.
      destruct (g e) as [v|next|]; try done.
      rewrite IH. by rewrite Nat.add_succ_r.
    + rewrite IH. by rewrite Nat.add_succ_r.
    + rewrite IH. by rewrite Nat.add_succ_r.
Qed.

(** X1. Registering a handler puts its success callback at the end of the
    success chain: a run of the new registry is a run of the old one,
    followed, when that run returned, by one call of the new callback on
    the value it returned.  When an earlier callback threw or never
    settled, the new one is not called; a handler registered without a
    success callback leaves the success chain as it was. *)
Theorem use_extends_success_chain
    (onF onR : option Callback) (hs : Interceptors) (v : JsVal) (w : World) :
  runFulfilled (fst (use onF onR hs)) v w
  = match runFulfilled hs v w with
    | (Return v', w') =>
        match onF with
        | Some f => (f v', logged w' [EvOnFulfilled (length hs) v'])
        | None => (Return v', w')
        end
    | o => o
    end.
Proof.
  rewrite use_snoc. simpl fst. unfold runFulfilled, bind. rewrite !emit_logged.
  rewrite runFulfilled_from_app.
  destruct (runFulfilled_from 0 hs v _) as [[v'|e|] w']; try done.
  simpl. destruct onF as [f|]; simpl; [|done].
  unfold bind, await. rewrite emit_logged. by destruct (f v').
Qed.

(** X2. Registering a handler puts its failure callback at the end of the
    failure chain: it is consulted only when every failure callback before
    it threw, on the error the last of them threw, and what it does is the
    outcome of the run.  When an earlier callback returned, the new one is
    not called; a handler registered without a failure callback leaves the
    failure chain as it was. *)
Theorem use_extends_failure_chain
    (onF onR : option Callback) (hs : Interceptors) (e : JsVal) (w : World) :
  runRejected (fst (use onF onR hs)) e w
  = match runRejected hs e w with
    | (Throw e', w') =>
        match onR with
        | Some g => (g e', logged w' [EvOnRejected (length hs) e'])
        | None => (Throw e', w')
        end
    | o => o
    end.
Proof.
  rewrite use_snoc. simpl fst. unfold runRejected, bind. rewrite !emit_logged.
  rewrite runRejected_from_app.
  destruct (runRejected_from 0 hs e _) as [[v|e'|] w']; try done.
  simpl. destruct onR as [g|]; simpl; [|done].
  unfold bind, try_catch, await. rewrite emit_logged. by destruct (g e').
Qed.

Lemma live_from_eject sel hs id i f :
  (i, f) ∈ live_from sel 0 (eject id hs)
  <-> (i, f) ∈ live_from sel 0 hs /\ Z.of_nat i <> id.
Proof.
  rewrite !elem_of_live_from. unfold eject.
  destruct (slot hs id) as [[h0|]|] eqn:Hslot.
  - apply slot_Some in Hslot as [Hid Hl]. split.
    + intros (j & h & -> & Hj & Hsel). simpl.
      destruct (decide (j = Z.to_nat id)) as [->|Hne].
      * rewrite list_lookup_insert_eq in Hj by (by eapply lookup_lt_Some). done.
      * rewrite list_lookup_insert_ne in Hj by done.
        split; [by exists j, h | lia].
    + intros [(j & h & -> & Hj & Hsel) Hne]. simpl in Hne.
      exists j, h. split_and!; [done| |done].
      rewrite list_lookup_insert_ne by lia. done.
  - apply slot_Some in Hslot as [Hid Hl]. split.
    + intros (j & h & -> & Hj & Hsel). split; [by exists j, h|].
      simpl. intros <-. rewrite Nat2Z.id in Hl. congruence.
    + by intros [H _].
  - split.
    + intros (j & h & -> & Hj & Hsel). split; [by exists j, h|].
      simpl. intros <-. unfold slot in Hslot.
      rewrite (proj2 (Z.leb_le 0 (Z.of_nat j))) in Hslot by lia.
      rewrite Nat2Z.id in Hslot. congruence.
    + by intros [H _].
Qed.

(** X3. Ejecting a handle removes the success callback and the failure
    callback of that registration from their chains, and leaves every
    other callback in its slot. *)
Theorem eject_removes_registration (hs : Interceptors) (id : Z) (i : nat) (f : Callback) :
  ((i, f) ∈ live_fulfilled (eject id hs)
   <-> (i, f) ∈ live_fulfilled hs /\ Z.of_nat i <> id)
  /\ ((i, f) ∈ live_rejected (eject id hs)
      <-> (i, f) ∈ live_rejected hs /\ Z.of_nat i <> id).
Proof. split; apply live_from_eject. Qed.
(** ** The helpers [combine] and [makeError] *)

(** X4. Joining a relative reference to a base does not depend on the
    slashes at the joint: a base without a trailing slash joins as the same
    base with one, and a reference joins as the same reference with a
    slash put before it.  (The reference is neither empty nor absolute:
    those are returned without a join.) *)
Theorem combine_ignores_joining_slashes
    (URL_resolve : string -> string -> Completion string) (b rel : string) :
  rel <> "" ->
  isAbs rel = false ->
  (endsWith_slash b = false ->
   combine URL_resolve (VStr (b ++ "/")) rel = combine URL_resolve (VStr b) rel)
  /\ (forall base : JsVal,
        combine URL_resolve base ("/" ++ rel) = combine URL_resolve base rel).
Proof.
  intros Hrel Habs. apply String.eqb_neq in Hrel. split.
  - intros Hslash. unfold combine. rewrite Hrel, Habs, endsWith_slash_app, Hslash. done.
  - intros base. unfold combine. rewrite Hrel, Habs. done.
Qed.

Lemma normalize_structured final e :
  truthy (getp (normalize final e) "isAxiosError") = true.
Proof. unfold normalize. by destruct (truthy (getp e "isAxiosError")) eqn:H. Qed.

Lemma normalize_fixed final E :
  truthy (getp E "isAxiosError") = true -> normalize final E = E.
Proof. intros H. unfold normalize. by rewrite H. Qed.

Section StructuredErrors.

Variable JSON_stringify : JsVal -> string.
Variable URL_resolve : string -> string -> Completion string.
Variable fetch : JsVal -> JsVal -> list HeaderMap -> Completion Response.
Variable c : Client.

(** X5. Whatever the kind of failure, the error offered to the response
    failure chain is a structured one (its [isAxiosError] flag is set), and
    a structured error goes through the [catch] block of any call as it
    is: it is not wrapped a second time. *)
Theorem offered_errors_are_structured
    (cfg : JsVal) (w : World) (E : JsVal) (w2 : World) (armed : bool) (w1 : World) :
  pipeline_failure JSON_stringify URL_resolve fetch c cfg w E w2 armed w1 ->
  truthy (getp E "isAxiosError") = true
  /\ forall final : JsVal, normalize final E = E.
Proof.
  intros Hfail.
  assert (H : truthy (getp E "isAxiosError") = true).
  { destruct Hfail; try done. apply normalize_structured. }
  split; [done|]. intros final. by apply normalize_fixed.
Qed.

End StructuredErrors.
(** ** The request pipeline: the other ways through a call *)

Lemma count_app P (a b : list Event) : count P (a ++ b) = (count P a + count P b)%nat.
Proof. unfold count. by rewrite List.filter_app, length_app. Qed.

Lemma count_none P evs : Forall (fun e => P e = false) evs -> count P evs = 0%nat.
Proof. intros H. unfold count. by rewrite filter_none. Qed.

Lemma hook_not_fetch evs :
  Forall (fun e => is_hook e = true) evs -> Forall (fun e => is_fetch e = false) evs.
Proof. intros H. eapply Forall_impl; [exact H|]. by intros []. Qed.

Lemma hook_not_decode evs :
  Forall (fun e => is_hook e = true) evs -> Forall (fun e => is_decode e = false) evs.
Proof. intros H. eapply Forall_impl; [exact H|]. by intros []. Qed.

Lemma fulfilled_hook evs :
  Forall (fun e => is_fulfilled e = true) evs -> Forall (fun e => is_hook e = true) evs.
Proof. intros H. eapply Forall_impl; [exact H|]. by intros []. Qed.

Lemma decode_events_count r :
  Forall (fun e => is_fetch e = false) (decode_events r)
  /\ Forall (fun e => is_timer e = false) (decode_events r)
  /\ (count is_decode (decode_events r) <= 1)%nat.
Proof.
  unfold decode_events, count.
  destruct (bodiless r); [|destruct (includes _ _)]; simpl;
    split_and!; try (by repeat constructor); lia.
Qed.

Section PipelinePaths.

Variable JSON_stringify : JsVal -> string.
Variable URL_resolve : string -> string -> Completion string.
Variable fetch : JsVal -> JsVal -> list HeaderMap -> Completion Response.
Variable c : Client.

(** What the [try] block logs: the call of the transport, then at most one
    call of a body reader and the response success chain. *)
Lemma core_try_log final w o w' :
  core_try fetch c final w = (o, w') ->
  exists evs,
    log w' = (log w ++ EvFetch (getp final "url") (fetch_init final) :: evs)%list
    /\ Forall (fun e => is_fetch e = false) evs
    /\ Forall (fun e => is_timer e = false) evs
    /\ (count is_decode evs <= 1)%nat.
Proof.
  destruct (transport fetch final w) as [r|e|] eqn:Hr.
  - rewrite (core_try_response _ _ _ _ _ Hr).
    destruct (decode_events_count r) as (Hnf & Hnt & Hdec).
    destruct (parsed_body r) as [parsed|e|]; simpl.
    2-3: intros [= _ <-]; by exists (decode_events r).
    destruct (_ || _); [intros [= _ <-]; by exists (decode_events r)|].
    intros Hrun.
    assert (Happ : appends is_fulfilled
              (do processed <- runFulfilled (res c) (wrap r parsed final);
               member processed "data")).
    { apply appends_bind; [apply appends_runFulfilled_only|].
      intros. apply silent_appends, silent_member. }
    destruct (Happ _ _ _ Hrun) as (evs & Hl & Hall%fulfilled_hook). simpl in Hl.
    exists (decode_events r ++ evs)%list. split_and!.
    + rewrite Hl. by rewrite <- app_assoc.
    + apply Forall_app. split; [done | by apply hook_not_fetch].
    + apply Forall_app. split; [done | by apply hook_not_timer].
    + rewrite count_app, (count_none _ evs) by (by apply hook_not_decode). lia.
  - rewrite (core_try_reject _ _ _ _ _ Hr). intros [= _ <-].
    exists []. split_and!; try done. unfold count. simpl. lia.
  - unfold core_try, bind at 1, do_fetch. rewrite Hr. intros [= _ <-].
    exists []. split_and!; try done. unfold count. simpl. lia.
Qed.

(** A transport that answers the one call made of it as [fetch] does is
    as good as [fetch]: the call consults the transport nowhere else. *)
Lemma core_one_transport_call
    (fetch' : JsVal -> JsVal -> list HeaderMap -> Completion Response)
    (cfg : JsVal) (w : World) (final : JsVal) (w1 : World) :
  core_prepare JSON_stringify URL_resolve c cfg w = (Return (Dispatch final), w1) ->
  fetch' (getp final "url") (fetch_init final) (heap w1)
  = fetch (getp final "url") (fetch_init final) (heap w1) ->
  core JSON_stringify URL_resolve fetch' c cfg w
  = core JSON_stringify URL_resolve fetch c cfg w.
Proof.
  intros Hprep Hsame.
  rewrite (core_reaches_dispatch _ _ fetch' c _ _ _ _ Hprep).
  rewrite (core_reaches_dispatch _ _ fetch c _ _ _ _ Hprep).
  assert (Htry : core_try fetch' c final (dispatch_world (arms_timer final) final w1)
                 = core_try fetch c final (dispatch_world (arms_timer final) final w1)).
  { unfold core_try, bind, do_fetch.
    rewrite (transport_dispatch_world fetch'), (transport_dispatch_world fetch).
    unfold transport. by rewrite Hsame. }
  unfold try_catch. by rewrite Htry.
Qed.

(** The one call of the transport a dispatched call logs. *)
Lemma core_fetch_event cfg w final w1 o w' :
  core_prepare JSON_stringify URL_resolve c cfg w = (Return (Dispatch final), w1) ->
  core JSON_stringify URL_resolve fetch c cfg w = (o, w') ->
  exists evs,
    log w' = (log w ++ evs)%list
    /\ List.filter is_fetch evs = [EvFetch (getp final "url") (fetch_init final)].
Proof.
  intros Hprep Hcore.
  rewrite (core_reaches_dispatch _ _ fetch c _ _ _ _ Hprep) in Hcore.
  destruct (appends_core_prepare _ _ _ _ _ _ _ Hprep) as (evs1 & Hl1 & Hall1%hook_not_fetch).
  set (arm := if arms_timer final
              then [EvSetTimeout (timer_id w1) (getp final "timeout")] else []).
  assert (Harm : log (dispatch_world (arms_timer final) final w1) = (log w1 ++ arm)%list).
  { unfold dispatch_world, armed_world, arm.
    destruct (arms_timer final); simpl; by rewrite ?app_nil_r. }
  assert (Harm0 : List.filter is_fetch arm = []).
  { unfold arm. by destruct (arms_timer final). }
  unfold try_catch in Hcore.
  destruct (core_try fetch c final _) as [o2 w2] eqn:Htry.
  destruct (core_try_log _ _ _ _ Htry) as (evs2 & Hl2 & Hnf2 & _ & _).
  assert (Hrest : exists evs3, log w' = (log w2 ++ evs3)%list /\ List.filter is_fetch evs3 = []).
  { assert (Hfin : forall (o3 : Completion JsVal) w3 evs3,
               log w3 = (log w2 ++ evs3)%list ->
               List.filter is_fetch evs3 = [] ->
               finish_timer (arms_timer final) w1 (o3, w3) = (o, w') ->
               exists evs4, log w' = (log w2 ++ evs4)%list /\ List.filter is_fetch evs4 = []).
    { intros o3 w3 evs3 Hl3 Hf3. unfold finish_timer, disarmed_world.
      destruct (arms_timer final), o3; intros [= _ <-]; simpl; rewrite ?Hl3.
      all: try (by exists evs3).
      all: exists (evs3 ++ [EvClearTimeout (timer_id w1)])%list;
        rewrite List.filter_app, Hf3; split; [by rewrite app_assoc|done]. }
    destruct o2 as [v|e|].
    - apply (Hfin (Return v) w2 [] ltac:(by rewrite app_nil_r) eq_refl Hcore).
    - destruct (recover c (normalize final e) w2) as [o3 w3] eqn:Hrec.
      destruct (appends_recover _ _ _ _ _ Hrec) as (evs3 & Hl3 & Hall3).
      apply (Hfin o3 w3 evs3 Hl3); [by apply filter_none, hook_not_fetch | done].
    - apply (Hfin Pending w2 [] ltac:(by rewrite app_nil_r) eq_refl Hcore). }
  destruct Hrest as (evs3 & Hl3 & Hf3).
  exists (evs1 ++ arm ++ [EvFetch (getp final "url") (fetch_init final)] ++ evs2 ++ evs3)%list.
  split.
  - rewrite Hl3, Hl2, Harm, Hl1. rewrite <- !app_assoc. done.
  - rewrite !List.filter_app, Harm0, Hf3.
    rewrite (filter_none is_fetch evs1), (filter_none is_fetch evs2) by done.
    done.
Qed.

Lemma toHeaders_throws h w e :
  headers_view w h = Throw e -> forall w', toHeaders h w' = (Throw e, w').
Proof.
  intros H w'. destruct h; unfold toHeaders; unfold headers_view in H.
  all: try match type of H with
           | match header_entries ?x with _ => _ end = _ =>
               destruct (header_entries x) as [l|e'|]; [done| |done];
               by injection H as ->
           end.
  done.
Qed.

(** X6. A call fails before any hook when the default headers cannot be
    made a header collection, when the config is [undefined] or [null], and
    when the headers of the call cannot be made a header collection (a
    name or a value the platform refuses).  In each of these three cases
    the call raises that failure as it is: no hook is called, nothing is
    sent, no timer is set, and no header collection that existed is
    written to (these failures come before the merger writes a header). *)
Theorem merge_failure_is_raised_raw (cfg : JsVal) (w : World) (e : JsVal) :
  headers_view w (getp (VObj (defaults c)) "headers") = Throw e
  \/ ((exists D, headers_view w (getp (VObj (defaults c)) "headers") = Return D)
      /\ nullish cfg = true
      /\ e = TypeError ("Cannot read properties of " ++ ToString cfg
                        ++ " (reading 'headers')"))
  \/ ((exists D, headers_view w (getp (VObj (defaults c)) "headers") = Return D)
      /\ nullish cfg = false
      /\ headers_view w (getp cfg "headers") = Throw e) ->
  exists w1,
    core JSON_stringify URL_resolve fetch c cfg w = (Throw e, w1)
    /\ log w1 = log w
    /\ forall r, (r < length (heap w))%nat -> deref w1 r = deref w r.
Proof.
  intros Hcase.
  assert (Hmerge : exists w1, core_merge JSON_stringify c cfg w = (Throw e, w1)).
  { unfold core_merge. unfold bind at 1.
    destruct Hcase as [Hd | [([D HD] & Hcfg & ->) | ([D HD] & Hcfg & Hc)]].
    - rewrite (toHeaders_throws _ _ _ Hd). by exists w.
    - destruct (toHeaders_returns _ _ _ HD) as (href & wa & ->).
      unfold bind at 1, member. rewrite Hcfg. by exists wa.
    - destruct (toHeaders_returns _ _ _ HD) as (href & wa & ->).
      unfold bind at 1, member. rewrite Hcfg. unfold ret at 1. unfold bind at 1.
      rewrite (toHeaders_throws _ _ _ Hc). by exists wa. }
  destruct Hmerge as (w1 & Hmerge). exists w1.
  rewrite core_spec, core_prepare_spec, Hmerge.
  destruct (core_merge_failure_frame _ _ _ _ _ _ Hmerge) as (Hlog & _ & Hsame).
  by split_and!.
Qed.

(** X7. When a request success callback throws [e], the call goes straight
    to the response failure chain with the structured error whose message
    is that of [e] (or "Request interceptor error") and whose config is
    the merged one, and ends as that chain does.  The transport is not
    called and no timer is set: all the call logs are calls of hooks. *)
Theorem request_hook_failure_skips_transport
    (cfg : JsVal) (w : World) (final0 : JsVal) (w0 : World) (e : JsVal) (evs : list Event) :
  core_merge JSON_stringify c cfg w = (Return final0, w0) ->
  success_chain (live_fulfilled (req c)) final0 = (Throw e, evs) ->
  let E := makeError (getp e "message" ?? VStr "Request interceptor error")
             final0 VUndefined VUndefined in
  core JSON_stringify URL_resolve fetch c cfg w
  = recover c E (logged w0 (EvRunFulfilled final0 :: evs))
  /\ (forall o w', core JSON_stringify URL_resolve fetch c cfg w = (o, w') ->
        exists evs', log w' = (log w ++ evs')%list
                     /\ Forall (fun ev => is_hook ev = true) evs'
                     /\ List.filter is_fetch evs' = []
                     /\ List.filter is_timer evs' = []).
Proof.
  intros Hmerge Hchain E.
  assert (Hcore : core JSON_stringify URL_resolve fetch c cfg w
                  = recover c E (logged w0 (EvRunFulfilled final0 :: evs))).
  { rewrite core_spec, core_prepare_spec, Hmerge. simpl. rewrite Hchain. simpl.
    fold E. by destruct (recover c E _) as [[v|e'|] w2]. }
  split; [done|]. intros o w'. rewrite Hcore. intros Hrec.
  destruct (appends_recover _ _ _ _ _ Hrec) as (evs2 & Hl & Hall). simpl in Hl.
  apply silent_core_merge in Hmerge.
  assert (Hhooks : Forall (fun ev => is_hook ev = true)
                     ((EvRunFulfilled final0 :: evs) ++ evs2)).
  { apply Forall_app. split; [|done]. constructor; [done|]. apply fulfilled_hook.
    pose proof (chain_events_fulfilled (live_fulfilled (req c)) final0) as H.
    by rewrite Hchain in H. }
  exists ((EvRunFulfilled final0 :: evs) ++ evs2)%list. split_and!.
  - by rewrite Hl, Hmerge, <- app_assoc.
  - done.
  - by apply filter_none, hook_not_fetch.
  - by apply filter_none, hook_not_timer.
Qed.

(** X8. When the request success chain returns [undefined] or [null] (a
    callback that does not return the config), the call raises the
    TypeError of the first property read on it, as it is: the transport is
    not called and the failure chain is not run. *)
Theorem request_hook_returning_nothing
    (cfg : JsVal) (w : World) (final0 : JsVal) (w0 : World) (v : JsVal) (evs : list Event) :
  core_merge JSON_stringify c cfg w = (Return final0, w0) ->
  success_chain (live_fulfilled (req c)) final0 = (Return v, evs) ->
  nullish v = true ->
  (exists msg, core JSON_stringify URL_resolve fetch c cfg w
               = (Throw (TypeError msg), logged w0 (EvRunFulfilled final0 :: evs)))
  /\ Forall (fun ev => is_fulfilled ev = true) (EvRunFulfilled final0 :: evs).
Proof.
  intros Hmerge Hchain Hv. split.
  - eexists. rewrite core_spec, core_prepare_spec, Hmerge. simpl. rewrite Hchain. simpl.
    by rewrite core_resolve_nullish.
  - constructor; [done|].
    pose proof (chain_events_fulfilled (live_fulfilled (req c)) final0) as H.
    by rewrite Hchain in H.
Qed.

(** X9. When the transport call fails with an error that is neither a
    cancellation nor a structured error, the error offered to the response
    failure chain is the structured error with the message of that error
    ("Network Error" when it has none), the resolved config, and the
    response and status the error may carry; the call ends as the failure
    chain does on it, and raises it when no failure callback is registered
    or each one throws it again. *)
Theorem transport_failure_raises_network_error
    (cfg : JsVal) (w : World) (final : JsVal) (w1 : World) (e : JsVal) :
  core_prepare JSON_stringify URL_resolve c cfg w = (Return (Dispatch final), w1) ->
  transport fetch final w1 = Throw e ->
  is_str (getp e "name") "AbortError" = false ->
  truthy (getp e "isAxiosError") = false ->
  let E := makeError (getp e "message" ?? VStr "Network Error") final
             (getp e "response") (getp (getp e "response") "status") in
  let w2 := fetched (arms_timer final) (fetch_init final) final w1 [] in
  (nullish (getp e "message") = true -> getp E "message" = VStr "Network Error")
  /\ (forall s, getp e "message" = VStr s -> getp E "message" = VStr s)
  /\ getp E "config" = final
  /\ core JSON_stringify URL_resolve fetch c cfg w
     = finish_timer (arms_timer final) w1 (recover c E w2)
  /\ ((forall i f, (i, f) ∈ live_rejected (res c) -> f E = Throw E) ->
      fst (core JSON_stringify URL_resolve fetch c cfg w) = Throw E).
Proof.
  intros Hprep Hr Hname Haxios E w2.
  pose proof (core_transport_failure _ _ fetch c _ _ _ _ _ Hprep Hr) as Hcore.
  assert (HE : normalize final e = E).
  { unfold normalize. by rewrite Haxios, Hname. }
  rewrite HE in Hcore. split_and!; try done.
  - intros Hm. unfold E, coalesce. by rewrite Hm.
  - intros s Hs. unfold E. by rewrite Hs.
  - intros Hrethrow. rewrite Hcore, recover_spec.
    rewrite (failure_chain_rethrown _ E Hrethrow). done.
Qed.

(** X10. When the transport answers with a status in [200, 300) and the
    response success chain returns [processed] on the normalised response,
    the call resolves to the [data] field of [processed]; what it logs
    after the transport call is the body read and that chain, and the
    failure chain is not run.  With no response success callback the call
    resolves to the decoded body. *)
Theorem success_resolves_to_response_data
    (cfg : JsVal) (w : World) (final : JsVal) (w1 : World) (r : Response)
    (parsed processed : JsVal) (evs : list Event) :
  core_prepare JSON_stringify URL_resolve c cfg w = (Return (Dispatch final), w1) ->
  transport fetch final w1 = Return r ->
  parsed_body r = Return parsed ->
  200 <= r_status r < 300 ->
  success_chain (live_fulfilled (res c)) (wrap r parsed final) = (Return processed, evs) ->
  nullish processed = false ->
  core JSON_stringify URL_resolve fetch c cfg w
  = finish_timer (arms_timer final) w1
      (Return (getp processed "data"),
       logged (fetched (arms_timer final) (fetch_init final) final w1 (decode_events r))
         (EvRunFulfilled (wrap r parsed final) :: evs))
  /\ fst (core JSON_stringify URL_resolve fetch c cfg w) = Return (getp processed "data")
  /\ (live_fulfilled (res c) = [] -> getp processed "data" = parsed).
Proof.
  intros Hprep Hr Hparsed Hstatus Hchain Hp.
  assert (Hin : (r_status r <? 200) || (r_status r >=? 300) = false).
  { apply orb_false_iff. split; [apply Z.ltb_ge; lia | rewrite Z.geb_leb; apply Z.leb_gt; lia]. }
  assert (Hcore : core JSON_stringify URL_resolve fetch c cfg w
                  = finish_timer (arms_timer final) w1
                      (Return (getp processed "data"),
                       logged (fetched (arms_timer final) (fetch_init final) final w1
                                 (decode_events r))
                         (EvRunFulfilled (wrap r parsed final) :: evs))).
  { rewrite (core_status_success _ _ fetch c _ _ _ _ _ _ Hprep Hr Hparsed Hin).
    unfold try_catch, bind at 1. rewrite runFulfilled_chain, Hchain. simpl.
    unfold member. by rewrite Hp. }
  split_and!; [done | by rewrite Hcore |].
  intros Hnone. rewrite Hnone in Hchain. by injection Hchain as <- _.
Qed.

(** X11. When the response success chain returns [undefined] or [null] (a
    callback that does not return the response), reading its [data] fails
    inside the [try] block: the failure is offered to the response failure
    chain as a structured error without status and without response, and
    the call ends as that chain does. *)
Theorem response_hook_returning_nothing
    (cfg : JsVal) (w : World) (final : JsVal) (w1 : World) (r : Response)
    (parsed processed : JsVal) (evs : list Event) :
  core_prepare JSON_stringify URL_resolve c cfg w = (Return (Dispatch final), w1) ->
  transport fetch final w1 = Return r ->
  parsed_body r = Return parsed ->
  200 <= r_status r < 300 ->
  success_chain (live_fulfilled (res c)) (wrap r parsed final) = (Return processed, evs) ->
  nullish processed = true ->
  exists msg,
    core JSON_stringify URL_resolve fetch c cfg w
    = finish_timer (arms_timer final) w1
        (recover c (makeError (VStr msg) final VUndefined VUndefined)
           (logged (fetched (arms_timer final) (fetch_init final) final w1 (decode_events r))
              (EvRunFulfilled (wrap r parsed final) :: evs))).
Proof.
  intros Hprep Hr Hparsed Hstatus Hchain Hp.
  assert (Hin : (r_status r <? 200) || (r_status r >=? 300) = false).
  { apply orb_false_iff. split; [apply Z.ltb_ge; lia | rewrite Z.geb_leb; apply Z.leb_gt; lia]. }
  eexists.
  rewrite (core_status_success _ _ fetch c _ _ _ _ _ _ Hprep Hr Hparsed Hin).
  unfold try_catch, bind at 1. rewrite runFulfilled_chain, Hchain. simpl.
  unfold member. rewrite Hp. unfold throw. reflexivity.
Qed.

(** X12. A call that reaches dispatch sets a timer exactly when the
    resolved config has no cancellation token of its own and has a timeout
    (one that is not 0): the timer is set for that timeout and cleared when
    the call settles.  With a token given by the caller, or without a
    timeout, the call sets no timer at all. *)
Theorem timer_set_iff_timeout_without_signal
    (cfg : JsVal) (w : World) (final : JsVal) (w1 : World) (o : Completion JsVal) (w' : World) :
  core_prepare JSON_stringify URL_resolve c cfg w = (Return (Dispatch final), w1) ->
  core JSON_stringify URL_resolve fetch c cfg w = (o, w') ->
  o <> Pending ->
  exists evs,
    log w' = (log w ++ evs)%list
    /\ List.filter is_timer evs
       = if negb (truthy (getp final "signal")) && truthy (getp final "timeout")
         then [EvSetTimeout (timer_id w1) (getp final "timeout"); EvClearTimeout (timer_id w1)]
         else [].
Proof.
  intros Hprep Hcore Hsettled.
  rewrite (core_reaches_dispatch _ _ fetch c _ _ _ _ Hprep) in Hcore.
  destruct (appends_core_prepare _ _ _ _ _ _ _ Hprep) as (evs1 & Hl1 & Hall1%hook_not_timer).
  destruct (try_catch _ _ _) as [o2 w2] eqn:Htry.
  destruct (appends_core_try_catch _ _ _ _ _ _ Htry) as (evs2 & Hl2 & Hall2%call_not_timer).
  fold (arms_timer final).
  unfold finish_timer, dispatch_world, armed_world, disarmed_world in *.
  destruct (arms_timer final).
  - exists (evs1 ++ EvSetTimeout (timer_id w1) (getp final "timeout") :: evs2
            ++ [EvClearTimeout (timer_id w1)])%list.
    assert (w' = logged w2 [EvClearTimeout (timer_id w1)]) as ->.
    { destruct o2; injection Hcore as <- <-; done. }
    split.
    + simpl. rewrite Hl2. simpl. rewrite Hl1. by rewrite <- !app_assoc.
    + rewrite List.filter_app. simpl. rewrite List.filter_app. simpl.
      by rewrite !filter_none.
  - exists (evs1 ++ evs2)%list.
    assert (w' = w2) as -> by (destruct o2; injection Hcore as <- <-; done).
    split; [by rewrite Hl2, Hl1, app_assoc|].
    rewrite List.filter_app. by rewrite !filter_none.
Qed.

(** X13. A call calls the transport at most once (there is no retry), and
    reads a response body at most once, and only in a call that called the
    transport. *)
Theorem transport_called_at_most_once
    (cfg : JsVal) (w : World) (o : Completion JsVal) (w' : World) :
  core JSON_stringify URL_resolve fetch c cfg w = (o, w') ->
  exists evs,
    log w' = (log w ++ evs)%list
    /\ (count is_fetch evs <= 1)%nat
    /\ (count is_decode evs <= count is_fetch evs)%nat.
Proof.
  rewrite core_spec. intros Hcore.
  destruct (core_prepare _ _ _ _ _) as [[[final|v]|e|] w1] eqn:Hprep;
    destruct (appends_core_prepare _ _ _ _ _ _ _ Hprep) as (evs1 & Hl1 & Hall1).
  2-4: injection Hcore as <- <-; exists evs1; split; [done|];
       rewrite !count_none by (by apply hook_not_fetch || by apply hook_not_decode); lia.
  rewrite core_dispatch_spec in Hcore.
  set (arm := if arms_timer final
              then [EvSetTimeout (timer_id w1) (getp final "timeout")] else []).
  assert (Harm : log (armed_world (arms_timer final) (getp final "timeout") w1)
                 = (log w1 ++ arm)%list).
  { unfold armed_world, arm. destruct (arms_timer final); simpl; by rewrite ?app_nil_r. }
  assert (Harm0 : count is_fetch arm = 0%nat /\ count is_decode arm = 0%nat).
  { unfold arm. by destruct (arms_timer final). }
  destruct Harm0 as [Harmf Harmd].
  unfold try_catch in Hcore.
  destruct (core_try fetch c final _) as [o2 w2] eqn:Htry.
  destruct (core_try_log _ _ _ _ Htry) as (evs2 & Hl2 & Hnf2 & _ & Hdec2).
  assert (Hrest : exists evs3,
             log w' = (log w2 ++ evs3)%list
             /\ count is_fetch evs3 = 0%nat /\ count is_decode evs3 = 0%nat).
  { assert (Hfin : forall (o3 : Completion JsVal) w3 evs3,
               log w3 = (log w2 ++ evs3)%list ->
               count is_fetch evs3 = 0%nat -> count is_decode evs3 = 0%nat ->
               finish_timer (arms_timer final) w1 (o3, w3) = (o, w') ->
               exists evs4, log w' = (log w2 ++ evs4)%list
                            /\ count is_fetch evs4 = 0%nat /\ count is_decode evs4 = 0%nat).
    { intros o3 w3 evs3 Hl3 Hf3 Hd3. unfold finish_timer, disarmed_world.
      destruct (arms_timer final), o3; intros [= _ <-]; simpl; rewrite ?Hl3.
      all: try (by exists evs3).
      all: exists (evs3 ++ [EvClearTimeout (timer_id w1)])%list;
        rewrite !count_app, Hf3, Hd3; split_and!; [by rewrite app_assoc|done..]. }
    destruct o2 as [v|e|].
    - apply (Hfin (Return v) w2 [] ltac:(by rewrite app_nil_r) eq_refl eq_refl Hcore).
    - destruct (recover c (normalize final e) w2) as [o3 w3] eqn:Hrec.
      destruct (appends_recover _ _ _ _ _ Hrec) as (evs3 & Hl3 & Hall3).
      apply (Hfin o3 w3 evs3 Hl3); [by apply count_none, hook_not_fetch
                                    | by apply count_none, hook_not_decode | done].
    - apply (Hfin Pending w2 [] ltac:(by rewrite app_nil_r) eq_refl eq_refl Hcore). }
  destruct Hrest as (evs3 & Hl3 & Hf3 & Hd3).
  exists (evs1 ++ arm ++ [EvFetch (getp final "url") (fetch_init final)] ++ evs2 ++ evs3)%list.
  split.
  - rewrite Hl3, Hl2, Harm, Hl1. rewrite <- !app_assoc. done.
  - rewrite !count_app, Harmf, Harmd, Hf3, Hd3.
    rewrite (count_none is_fetch evs1) by (by apply hook_not_fetch).
    rewrite (count_none is_decode evs1) by (by apply hook_not_decode).
    rewrite (count_none is_fetch evs2) by done.
    change (count is_fetch [EvFetch (getp final "url") (fetch_init final)]) with 1%nat.
    change (count is_decode [EvFetch (getp final "url") (fetch_init final)]) with 0%nat.
    lia.
Qed.

End PipelinePaths.
(** ** The config a call resolves: method, fields, content type, URL *)

Lemma not_elem_eqb (k : string) (l : list string) :
  k ∉ l -> Forall (fun x => String.eqb k x = false) l.
Proof.
  intros H. apply Forall_forall. intros x Hx. apply String.eqb_neq. by intros ->.
Qed.

Section ConfigTheorems.

Variable JSON_stringify : JsVal -> string.
Variable URL_resolve : string -> string -> Completion string.
Variable fetch : JsVal -> JsVal -> list HeaderMap -> Completion Response.
Variable c : Client.

(** X14. On a client without request success callbacks, a call that
    reaches dispatch calls the transport once, with the resolved URL and an
    options object [init] in which every field of [{...defaults, ...cfg}]
    other than [method], [credentials], [data], [headers], [url], [signal]
    and [body] is as it is in that object: options of the platform or of a
    framework ([cache], [next], [mode], ...) pass through the pipeline.  A
    field the call names is the one the transport gets, whatever the
    defaults say.  That the transport is called with [init], and nowhere
    else, is stated three times over: it is what [transport] applies
    [fetch] to, the call is the same for every transport that answers this
    one call as [fetch] does, and it is the one transport call logged. *)
Theorem config_passes_through_to_transport
    (cfg : JsVal) (w : World) (final : JsVal) (w1 : World) (k : string) :
  live_fulfilled (req c) = [] ->
  core_prepare JSON_stringify URL_resolve c cfg w = (Return (Dispatch final), w1) ->
  k ∉ ["method"; "credentials"; "data"; "headers"; "url"; "signal"; "body"] ->
  let url := getp final "url" in
  let init := fetch_init final in
  transport fetch final w1 = fetch url init (heap w1)
  /\ (forall fetch' : JsVal -> JsVal -> list HeaderMap -> Completion Response,
        fetch' url init (heap w1) = fetch url init (heap w1) ->
        core JSON_stringify URL_resolve fetch' c cfg w
        = core JSON_stringify URL_resolve fetch c cfg w)
  /\ (forall o w',
        core JSON_stringify URL_resolve fetch c cfg w = (o, w') ->
        exists evs, log w' = (log w ++ evs)%list
                    /\ List.filter is_fetch evs = [EvFetch url init])
  /\ getp init k
     = getp (VObj (spread_into (spread_into [] (defaults c)) (own_props cfg))) k
  /\ (NoDup (own_props cfg).*1 ->
      forall v, lookup_prop k (own_props cfg) = Some v -> getp init k = v).
Proof.
  intros Hlive Hprep Hk url init.
  split_and!.
  { reflexivity. }
  { intros fetch' Hsame. by apply (core_one_transport_call _ _ fetch c fetch' _ _ _ _ Hprep). }
  { intros o w' Hcore. by apply (core_fetch_event _ _ fetch c _ _ _ _ _ _ Hprep Hcore). }
  all: subst url init.
  all: destruct (core_prepare_idle _ _ _ _ _ _ _ Hlive Hprep)
         as (href & body & url & w0 & _ & _ & -> & _).
  all: apply not_elem_eqb in Hk.
  all: apply Forall_cons in Hk as [Hmethod Hk]; apply Forall_cons in Hk as [Hcred Hk].
  all: apply Forall_cons in Hk as [Hdata Hk]; apply Forall_cons in Hk as [Hheaders Hk].
  all: apply Forall_cons in Hk as [Hurl Hk]; apply Forall_cons in Hk as [Hsignal Hk].
  all: apply Forall_cons in Hk as [Hbody _].
  all: assert (Heq : getp (fetch_init (VObj (assign "headers" (VHeaders href)
                                         (assign "url" url (merged_props c cfg href body))))) k
                = getp (VObj (spread_into (spread_into [] (defaults c)) (own_props cfg))) k)
         by (unfold fetch_init; rewrite !getp_assign_ne by done;
             cbn [own_props];
             rewrite spread_copy by (do 2 apply NoDup_assign; apply NoDup_merged_props);
             rewrite !getp_assign_ne by done;
             unfold merged_props; by rewrite !getp_assign_ne by done).
  - done.
  - intros Hnd v Hv. rewrite Heq. unfold getp. cbn [own_props].
    by rewrite lookup_spread_into, lookup_prop_rev, Hv.
Qed.

(** X15. The method of the merged config, the one the request hooks are
    given, is a string in upper case: the method of the call, else the
    default one, else "GET"; and the default method of a client created
    without one is "GET". *)
Theorem merged_method_is_upper_case (cfg : JsVal) (w : World) (final : JsVal) (w' : World) :
  core_merge JSON_stringify c cfg w = (Return final, w') ->
  (exists m,
     getp final "method" = VStr m
     /\ toUpperCase m = m
     /\ (forall s, getp cfg "method" = VStr s -> m = toUpperCase s)
     /\ (nullish (getp cfg "method") = true ->
         forall s, getp (VObj (defaults c)) "method" = VStr s -> m = toUpperCase s)
     /\ (nullish (getp cfg "method") = true ->
         nullish (getp (VObj (defaults c)) "method") = true -> m = "GET"))
  /\ (forall init : JsVal,
        lookup_prop "method" (own_props init) = None ->
        getp (VObj (defaults (createHttp init))) "method" = VStr "GET").
Proof.
  intros Hmerge. destruct (core_merge_shape _ _ _ _ _ _ Hmerge) as (_ & href & body & -> & _).
  split.
  - eexists. split_and!.
    + unfold merged, merged_props. apply getp_assign_eq.
    + apply toUpperCase_idem.
    + intros s Hs. by rewrite Hs.
    + intros Hn s Hs. unfold coalesce at 2. by rewrite Hn, Hs.
    + intros Hn Hd. unfold coalesce. by rewrite Hn, Hd.
  - intros init Hnone. unfold createHttp, getp. cbn [defaults own_props].
    by rewrite lookup_spread_into, (lookup_prop_rev_None _ _ Hnone).
Qed.

(** X16. [withCredentials] asks for credentials: when it is set on the
    call, or set by default and not given on the call, the merged config
    has [credentials: "include"] whatever [credentials] says; when it is
    off (not set at all, or switched off on the call), the merged config
    has the [credentials] of the call, else the default ones. *)
Theorem withCredentials_asks_for_credentials
    (cfg : JsVal) (w : World) (final : JsVal) (w' : World) :
  core_merge JSON_stringify c cfg w = (Return final, w') ->
  (truthy (getp cfg "withCredentials") = true -> getp final "credentials" = VStr "include")
  /\ (nullish (getp cfg "withCredentials") = true ->
      truthy (getp (VObj (defaults c)) "withCredentials") = true ->
      getp final "credentials" = VStr "include")
  /\ (truthy (getp cfg "withCredentials" ?? getp (VObj (defaults c)) "withCredentials") = false ->
      getp final "credentials"
      = getp cfg "credentials" ?? getp (VObj (defaults c)) "credentials").
Proof.
  intros Hmerge. destruct (core_merge_shape _ _ _ _ _ _ Hmerge) as (_ & href & body & -> & _).
  assert (Hc : getp (merged c cfg href body) "credentials"
               = if truthy (getp cfg "withCredentials"
                            ?? getp (VObj (defaults c)) "withCredentials")
                 then VStr "include"
                 else getp cfg "credentials" ?? getp (VObj (defaults c)) "credentials").
  { unfold merged, merged_props. rewrite getp_assign_ne by done. apply getp_assign_eq. }
  rewrite Hc. split_and!.
  - intros Ht. by rewrite (coalesce_left _ _ (truthy_not_nullish _ Ht)), Ht.
  - intros Hn Ht. by rewrite (coalesce_right _ _ Hn), Ht.
  - intros Hf. by rewrite Hf.
Qed.

(** X17. When the merged header collection already has a Content-Type,
    the merger leaves the headers as they are, and encodes a structured
    body as JSON text only if that Content-Type contains
    "application/json"; with another Content-Type the body is handed on as
    the object it is. *)
Theorem merger_respects_existing_content_type
    (cfg : JsVal) (w : World) (D C : HeaderMap) (ct : string) :
  nullish cfg = false ->
  valid_headers w (getp (VObj (defaults c)) "headers") ->
  valid_headers w (getp cfg "headers") ->
  headers_view w (getp (VObj (defaults c)) "headers") = Return D ->
  headers_view w (getp cfg "headers") = Return C ->
  (C ∪ D) !! "content-type" = Some ct ->
  exists final w' href,
    core_merge JSON_stringify c cfg w = (Return final, w')
    /\ getp final "headers" = VHeaders href
    /\ deref w' href = C ∪ D
    /\ getp final "data"
       = if isPlainObj (getp cfg "data") && includes ct "application/json"
         then VStr (JSON_stringify (getp cfg "data"))
         else getp cfg "data".
Proof.
  intros Hcfg Hvd Hvc HD HC Hct.
  destruct (core_merge_returns JSON_stringify c cfg w _ _ Hcfg Hvd HD HC)
    as (final & w' & Hmerge).
  destruct (core_merge_spec _ _ _ _ _ _ Hmerge Hvd Hvc)
    as (href & D' & C' & HD' & HC' & Hh & _ & _ & Hderef & Hdata & _).
  assert (D' = D) as -> by congruence. assert (C' = C) as -> by congruence.
  rewrite Hct in Hderef. rewrite andb_false_r in Hderef.
  rewrite Hderef, Hct in Hdata.
  by exists final, w', href.
Qed.

(** X18. Once the request hooks returned a config with the URL [u], that
    URL is the one the call is sent to, unchanged, when it is absolute
    (whatever base URL is configured) and when no base URL is configured. *)
Theorem url_left_alone
    (cfg : JsVal) (o : Props) (w : World) (final' : JsVal) (w' : World) (u : string) :
  core_resolve URL_resolve c cfg (VObj o) w = (Return final', w') ->
  getp (VObj o) "url" = VStr u ->
  isAbs u = true
  \/ truthy (getp (VObj o) "baseURL" ?? getp (VObj (defaults c)) "baseURL") = false ->
  getp final' "url" = VStr u.
Proof.
  rewrite core_resolve_obj. intros Hres Hu Hcase.
  assert (Hurl : resolved_url URL_resolve c cfg (VObj o) = Return (VStr u)).
  { unfold resolved_url. rewrite Hu. cbn [coalesce nullish].
    destruct Hcase as [Habs | Hbase].
    - destruct (truthy _ && truthy _); [|done].
      unfold combine. cbn [ToString].
      rewrite (proj2 (String.eqb_neq _ _) (isAbs_nonempty _ Habs)). by rewrite Habs.
    - by rewrite Hbase. }
  rewrite Hurl in Hres.
  destruct (toHeaders _ w) as [[h| |] w2]; try done.
  revert Hres. intros [= <- <-]. rewrite getp_assign_ne by done. apply getp_assign_eq.
Qed.

(** X19. After [setBaseURL(b)], on a client without request success
    callbacks, a call whose config has no base URL of its own and has the
    URL [u] calls the transport once, with the URL [u'] as its first
    argument: for a non-empty [b] and a non-empty relative [u], [u'] is
    what the platform resolves [u], without its leading slashes, against
    [b] with a trailing slash; for an empty [b], an empty [u] or an
    absolute [u], [u'] is [u].  (The defaults and the config are objects:
    their property names are distinct.)  A config, as the request hooks
    return it, with a base URL of its own is resolved as if [setBaseURL]
    had not been called. *)
Theorem setBaseURL_joins_relative_urls (b : string) (cfg : JsVal) (w : World) :
  (forall (u : string) (final : JsVal) (w1 : World),
     live_fulfilled (req c) = [] ->
     NoDup (defaults c).*1 ->
     NoDup (own_props cfg).*1 ->
     nullish (getp cfg "baseURL") = true ->
     getp cfg "url" = VStr u ->
     core_prepare JSON_stringify URL_resolve (setBaseURL (VStr b) c) cfg w
     = (Return (Dispatch final), w1) ->
     exists u',
       getp final "url" = VStr u'
       /\ (b <> "" -> u <> "" -> isAbs u = false ->
           URL_resolve (strip_leading_slashes u) (if endsWith_slash b then b else b ++ "/")
           = Return u')
       /\ (b = "" \/ u = "" \/ isAbs u = true -> u' = u)
       /\ transport fetch final w1 = fetch (VStr u') (fetch_init final) (heap w1)
       /\ (forall fetch' : JsVal -> JsVal -> list HeaderMap -> Completion Response,
             fetch' (VStr u') (fetch_init final) (heap w1)
             = fetch (VStr u') (fetch_init final) (heap w1) ->
             core JSON_stringify URL_resolve fetch' (setBaseURL (VStr b) c) cfg w
             = core JSON_stringify URL_resolve fetch (setBaseURL (VStr b) c) cfg w)
       /\ (forall o w',
             core JSON_stringify URL_resolve fetch (setBaseURL (VStr b) c) cfg w = (o, w') ->
             exists evs, log w' = (log w ++ evs)%list
                         /\ List.filter is_fetch evs = [EvFetch (VStr u') (fetch_init final)]))
  /\ (forall o : Props,
        nullish (getp (VObj o) "baseURL") = false ->
        core_resolve URL_resolve (setBaseURL (VStr b) c) cfg (VObj o) w
        = core_resolve URL_resolve c cfg (VObj o) w).
Proof.
  split.
  - intros u final w1 Hlive Hndd Hndc Hnb Hu Hprep.
    set (c' := setBaseURL (VStr b) c) in *.
    assert (Hlive' : live_fulfilled (req c') = []) by done.
    destruct (core_prepare_idle _ _ _ _ _ _ _ Hlive' Hprep)
      as (href & body & url & w0 & _ & Hres & Hfinal & _).
    assert (Hfu : getp final "url" = url).
    { rewrite Hfinal. rewrite getp_assign_ne by done. apply getp_assign_eq. }
    assert (Hmu : getp (merged c' cfg href body) "url" = VStr u).
    { unfold merged, merged_props. rewrite !getp_assign_ne by done.
      unfold getp in Hu |- *. cbn [own_props].
      rewrite lookup_spread_into, lookup_prop_rev by done.
      destruct (lookup_prop "url" (own_props cfg)) as [v|]; [done|].
      by simpl in Hu. }
    assert (Hmb : getp (merged c' cfg href body) "baseURL" ?? getp (VObj (defaults c')) "baseURL"
                  = VStr b).
    { assert (Hd : getp (VObj (defaults c')) "baseURL" = VStr b) by apply getp_assign_eq.
      rewrite Hd. unfold merged, merged_props. rewrite !getp_assign_ne by done.
      unfold getp in Hnb |- *. cbn [own_props].
      rewrite lookup_spread_into, lookup_prop_rev by done.
      destruct (lookup_prop "baseURL" (own_props cfg)) as [v|].
      - simpl in Hnb |- *. by apply coalesce_right.
      - rewrite spread_copy by (by apply NoDup_assign).
        unfold c', setBaseURL. cbn [defaults]. by rewrite lookup_assign_eq. }
    unfold resolved_url in Hres. rewrite Hmb, Hmu in Hres.
    cbn [coalesce nullish truthy ToString] in Hres.
    rewrite <- Hfu in Hres.
    assert (Hcall : forall u',
              getp final "url" = VStr u' ->
              transport fetch final w1 = fetch (VStr u') (fetch_init final) (heap w1)
              /\ (forall fetch' : JsVal -> JsVal -> list HeaderMap -> Completion Response,
                    fetch' (VStr u') (fetch_init final) (heap w1)
                    = fetch (VStr u') (fetch_init final) (heap w1) ->
                    core JSON_stringify URL_resolve fetch' c' cfg w
                    = core JSON_stringify URL_resolve fetch c' cfg w)
              /\ (forall o w',
                    core JSON_stringify URL_resolve fetch c' cfg w = (o, w') ->
                    exists evs, log w' = (log w ++ evs)%list
                                /\ List.filter is_fetch evs
                                   = [EvFetch (VStr u') (fetch_init final)])).
    { intros u' Hu'. rewrite <- Hu'. split_and!.
      - reflexivity.
      - intros fetch' Hsame.
        by apply (core_one_transport_call _ _ fetch c' fetch' _ _ _ _ Hprep).
      - intros o w' Hcore.
        by apply (core_fetch_event _ _ fetch c' _ _ _ _ _ _ Hprep Hcore). }
    destruct (String.eqb b "") eqn:Eb.
    { apply String.eqb_eq in Eb. cbn [negb andb] in Hres. injection Hres as Hres; symmetry in Hres.
      exists u. split_and!; [done | done | done | apply (Hcall u Hres)..]. }
    destruct (String.eqb u "") eqn:Eu.
    { apply String.eqb_eq in Eu. cbn [negb andb] in Hres. injection Hres as Hres; symmetry in Hres.
      exists u. apply String.eqb_neq in Eb.
      split_and!; [done | done | done | apply (Hcall u Hres)..]. }
    cbn [negb andb] in Hres. unfold combine in Hres. rewrite Eu in Hres.
    apply String.eqb_neq in Eb, Eu.
    destruct (isAbs u) eqn:Ea.
    { injection Hres as Hres; symmetry in Hres. exists u.
      split_and!; [done | done | done | apply (Hcall u Hres)..]. }
    destruct (URL_resolve _ _) as [u'| |] eqn:Er; try done.
    injection Hres as Hres; symmetry in Hres. exists u'.
    split_and!; [done | done | | apply (Hcall u' Hres)..].
    intros [? | [? | ?]]; done.
  - intros o Hnb. rewrite !core_resolve_obj. unfold resolved_url.
    by rewrite !(coalesce_left (getp (VObj o) "baseURL")) by done.
Qed.

End ConfigTheorems.
(** ** The facade: header setters and method shortcuts *)

Lemma lower_ascii_token a : is_token_char (lower_ascii a) = is_token_char a.
Proof. destruct a as [[] [] [] [] [] [] [] []]; reflexivity. Qed.

Lemma valid_header_name_lower k : valid_header_name (toLowerCase k) = valid_header_name k.
Proof.
  unfold valid_header_name, toLowerCase. f_equal.
  - by destruct k.
  - induction k as [|a k IH]; simpl; [done|]. by rewrite lower_ascii_token, IH.
Qed.

(** Both setters: the default headers become (or stay) a Headers instance,
    changed by [f]; nothing else in the store changes. *)
Lemma default_headers_update c (f : HeaderMap -> HeaderMap) w D :
  valid_headers w (getp (VObj (defaults c)) "headers") ->
  headers_view w (getp (VObj (defaults c)) "headers") = Return D ->
  exists ref w',
    (do h <- toHeaders (getp (VObj (defaults c)) "headers");
     do _ <- headers_update h f;
     ret (mkClient (assign "headers" (VHeaders h) (defaults c)) (req c) (res c))) w
    = (Return (mkClient (assign "headers" (VHeaders ref) (defaults c)) (req c) (res c)), w')
    /\ deref w' ref = f D
    /\ (ref < length (heap w'))%nat
    /\ log w' = log w
    /\ (forall r, (r < length (heap w))%nat -> r <> ref -> deref w' r = deref w r).
Proof.
  intros Hv HD.
  destruct (toHeaders_returns _ _ _ HD) as (ref & wa & H1).
  destruct (toHeaders_view _ _ _ _ H1 Hv) as (D' & HD' & Hd & Hlt & Hle & Hsame & _).
  assert (D' = D) as -> by congruence.
  exists ref, (mkWorld (<[ref := f (deref wa ref)]> (heap wa)) (log wa)).
  split_and!.
  - unfold bind at 1. rewrite H1. reflexivity.
  - rewrite deref_update_eq by done. by rewrite Hd.
  - simpl. by rewrite length_insert.
  - simpl. by eapply silent_toHeaders.
  - intros r Hr Hne. rewrite (deref_update_ne _ _ _ _ _ (log wa)) by done.
    destruct wa as [ha la]. by apply Hsame.
Qed.

Lemma default_headers_view c ref w :
  headers_view w (getp (VObj (assign "headers" (VHeaders ref) (defaults c))) "headers")
  = Return (deref w ref).
Proof. by rewrite getp_assign_eq. Qed.

(** X20. [setHeader(k, v)] with a name and a value the platform accepts
    makes the default headers a Headers instance that holds what they held
    before and [v] (trimmed) under [k] in lower case, replacing what was
    there under that name; no other default and no hook registration
    changes.  With a name or value the platform refuses it raises a
    TypeError and changes no header collection that existed. *)
Theorem setHeader_sets_default_header
    (c : Client) (k v : string) (w : World) (D : HeaderMap) :
  valid_headers w (getp (VObj (defaults c)) "headers") ->
  headers_view w (getp (VObj (defaults c)) "headers") = Return D ->
  (header_ok k v = true ->
   exists c' w',
     setHeader k v c w = (Return c', w')
     /\ headers_view w' (getp (VObj (defaults c')) "headers")
        = Return (<[toLowerCase k := normalize_value v]> D)
     /\ (forall k', k' <> "headers" ->
           getp (VObj (defaults c')) k' = getp (VObj (defaults c)) k')
     /\ req c' = req c /\ res c' = res c /\ log w' = log w)
  /\ (header_ok k v = false ->
      exists msg w',
        setHeader k v c w = (Throw (TypeError msg), w')
        /\ log w' = log w
        /\ forall r, (r < length (heap w))%nat -> deref w' r = deref w r).
Proof.
  intros Hv HD. split; intros Hok.
  - destruct (default_headers_update c
                (fun m => <[toLowerCase k := normalize_value v]> m) w D Hv HD)
      as (ref & w' & Hrun & Hd & Hlt & Hlog & _).
    eexists _, w'. split_and!.
    + unfold setHeader, headers_set. rewrite Hok. exact Hrun.
    + cbn [defaults]. by rewrite default_headers_view, Hd.
    + intros k' Hk'. cbn [defaults]. apply getp_assign_ne. by apply String.eqb_neq.
    + done.
    + done.
    + done.
  - destruct (toHeaders_returns _ _ _ HD) as (ref & wa & H1).
    pose proof (preserves_toHeaders _ _ _ _ H1) as [_ Hsame].
    eexists _, wa. split_and!.
    + unfold setHeader, headers_set. rewrite Hok. unfold bind at 1. rewrite H1.
      reflexivity.
    + by eapply silent_toHeaders.
    + done.
Qed.

(** X21. [removeHeader(k)] makes the default headers a Headers instance
    that holds what they held before except the header named [k], in
    whatever letter case it was set; no other default and no hook
    registration changes. *)
Theorem removeHeader_removes_default_header
    (c : Client) (k : string) (w : World) (D : HeaderMap) :
  valid_headers w (getp (VObj (defaults c)) "headers") ->
  headers_view w (getp (VObj (defaults c)) "headers") = Return D ->
  valid_header_name k = true ->
  exists c' w',
    removeHeader k c w = (Return c', w')
    /\ headers_view w' (getp (VObj (defaults c')) "headers")
       = Return (delete (toLowerCase k) D)
    /\ (forall k', k' <> "headers" ->
          getp (VObj (defaults c')) k' = getp (VObj (defaults c)) k')
    /\ req c' = req c /\ res c' = res c /\ log w' = log w.
Proof.
  intros Hv HD Hok.
  destruct (default_headers_update c (fun m => delete (toLowerCase k) m) w D Hv HD)
    as (ref & w' & Hrun & Hd & Hlt & Hlog & _).
  eexists _, w'. split_and!.
  - unfold removeHeader, headers_delete. rewrite Hok. exact Hrun.
  - cbn [defaults]. by rewrite default_headers_view, Hd.
  - intros k' Hk'. cbn [defaults]. apply getp_assign_ne. by apply String.eqb_neq.
  - done.
  - done.
  - done.
Qed.

(** X22. [removeHeader] undoes [setHeader]: after [setHeader(k, v)] and
    [removeHeader(k')], where [k'] is [k] up to letter case, the default
    headers hold no header of that name and are otherwise what they were
    before: exactly what they were if they had no such header. *)
Theorem removeHeader_undoes_setHeader
    (c : Client) (k k' v : string) (w : World) (D : HeaderMap) :
  valid_headers w (getp (VObj (defaults c)) "headers") ->
  headers_view w (getp (VObj (defaults c)) "headers") = Return D ->
  header_ok k v = true ->
  toLowerCase k' = toLowerCase k ->
  exists c1 w1 c2 w2,
    setHeader k v c w = (Return c1, w1)
    /\ removeHeader k' c1 w1 = (Return c2, w2)
    /\ headers_view w2 (getp (VObj (defaults c2)) "headers")
       = Return (delete (toLowerCase k) D)
    /\ (D !! toLowerCase k = None ->
        headers_view w2 (getp (VObj (defaults c2)) "headers") = Return D).
Proof.
  intros Hv HD Hok Hcase.
  destruct (default_headers_update c
              (fun m => <[toLowerCase k := normalize_value v]> m) w D Hv HD)
    as (ref & w1 & Hset & Hd1 & Hlt1 & _ & _).
  set (c1 := mkClient (assign "headers" (VHeaders ref) (defaults c)) (req c) (res c)) in *.
  assert (Hv1 : valid_headers w1 (getp (VObj (defaults c1)) "headers")).
  { unfold c1. cbn [defaults]. by rewrite getp_assign_eq. }
  assert (HD1 : headers_view w1 (getp (VObj (defaults c1)) "headers")
                = Return (<[toLowerCase k := normalize_value v]> D)).
  { unfold c1. cbn [defaults]. by rewrite default_headers_view, Hd1. }
  destruct (default_headers_update c1 (fun m => delete (toLowerCase k') m) w1 _ Hv1 HD1)
    as (ref2 & w2 & Hdel & Hd2 & _ & _ & _).
  assert (Hname : valid_header_name k' = true).
  { rewrite <- valid_header_name_lower, Hcase, valid_header_name_lower.
    unfold header_ok in Hok. by apply andb_true_iff in Hok as [? _]. }
  assert (Hview : headers_view w2
                    (getp (VObj (assign "headers" (VHeaders ref2) (defaults c1))) "headers")
                  = Return (delete (toLowerCase k) D)).
  { rewrite default_headers_view, Hd2, Hcase. by rewrite delete_insert_eq. }
  eexists c1, w1, _, w2. split_and!.
  - unfold setHeader, headers_set. rewrite Hok. exact Hset.
  - unfold removeHeader, headers_delete. rewrite Hname. exact Hdel.
  - exact Hview.
  - intros Hnone. cbn [defaults]. rewrite Hview. by rewrite delete_id.
Qed.

Section ShortcutTheorems.

Variable JSON_stringify : JsVal -> string.
Variable URL_resolve : string -> string -> Completion string.
Variable fetch : JsVal -> JsVal -> list HeaderMap -> Completion Response.
Variable c : Client.

Lemma NoDup_shortcut_props (base : Props) :
  NoDup (spread_into [] base).*1.
Proof. apply NoDup_spread_into. constructor. Qed.

Lemma merged_url cfg o href body u :
  cfg = VObj o -> NoDup o.*1 -> lookup_prop "url" o = Some u ->
  getp (merged c cfg href body) "url" = u.
Proof.
  intros -> Hnd Hu. unfold merged, merged_props. rewrite !getp_assign_ne by done.
  unfold getp. cbn [own_props]. by rewrite lookup_spread_into, lookup_prop_rev, Hu.
Qed.

(** X23. A method shortcut is a call of [request] on the config it is
    given with the URL and the method of the shortcut put in (and, for
    [post], [put] and [patch], the body): whatever the config says under
    [url], [method] or [data], the merged config has the URL given to the
    shortcut, the method of the shortcut in upper case, and a body made
    from the body given to the shortcut (that body, or its JSON text). *)
Theorem shortcut_arguments_override_config
    (method : string) (u b cfg : JsVal) (w : World) (final : JsVal) (w' : World) :
  (http_get JSON_stringify URL_resolve fetch c u cfg
   = request JSON_stringify URL_resolve fetch c (shortcut_config "GET" u cfg)
   /\ http_delete JSON_stringify URL_resolve fetch c u cfg
      = request JSON_stringify URL_resolve fetch c (shortcut_config "DELETE" u cfg)
   /\ http_head JSON_stringify URL_resolve fetch c u cfg
      = request JSON_stringify URL_resolve fetch c (shortcut_config "HEAD" u cfg)
   /\ http_options JSON_stringify URL_resolve fetch c u cfg
      = request JSON_stringify URL_resolve fetch c (shortcut_config "OPTIONS" u cfg)
   /\ http_post JSON_stringify URL_resolve fetch c u b cfg
      = request JSON_stringify URL_resolve fetch c (shortcut_body_config "POST" u b cfg)
   /\ http_put JSON_stringify URL_resolve fetch c u b cfg
      = request JSON_stringify URL_resolve fetch c (shortcut_body_config "PUT" u b cfg)
   /\ http_patch JSON_stringify URL_resolve fetch c u b cfg
      = request JSON_stringify URL_resolve fetch c (shortcut_body_config "PATCH" u b cfg))
  /\ (core_merge JSON_stringify c (shortcut_config method u cfg) w = (Return final, w') ->
      getp final "url" = u /\ getp final "method" = VStr (toUpperCase method))
  /\ (core_merge JSON_stringify c (shortcut_body_config method u b cfg) w = (Return final, w') ->
      getp final "url" = u
      /\ getp final "method" = VStr (toUpperCase method)
      /\ (getp final "data" = b \/ getp final "data" = VStr (JSON_stringify b))).
Proof.
  split_and!; [done..| |].
  - intros Hmerge.
    destruct (core_merge_shape _ _ _ _ _ _ Hmerge) as (_ & href & body & -> & _).
    split.
    + eapply merged_url; [reflexivity| |].
      * do 2 apply NoDup_assign. apply NoDup_shortcut_props.
      * rewrite lookup_assign_ne by done. apply lookup_assign_eq.
    + unfold merged, merged_props. rewrite getp_assign_eq.
      unfold shortcut_config. by rewrite getp_assign_eq.
  - intros Hmerge.
    destruct (core_merge_shape _ _ _ _ _ _ Hmerge) as (_ & href & body & -> & Hbody).
    split_and!.
    + eapply merged_url; [reflexivity| |].
      * do 3 apply NoDup_assign. apply NoDup_shortcut_props.
      * rewrite !lookup_assign_ne by done. apply lookup_assign_eq.
    + unfold merged, merged_props. rewrite getp_assign_eq.
      unfold shortcut_body_config. by rewrite getp_assign_eq.
    + assert (Hdata : getp (shortcut_body_config method u b cfg) "data" = b).
      { unfold shortcut_body_config. rewrite getp_assign_ne by done. apply getp_assign_eq. }
      rewrite Hdata in Hbody.
      unfold merged, merged_props. rewrite !getp_assign_ne by done. by rewrite getp_assign_eq.
Qed.

End ShortcutTheorems.
(** ** The earlier revision: registry and pipeline *)

Lemma legacy_length_eject id hs :
  length (Legacy.eject id hs)
  = if id <? 0 then length hs else Nat.max (length hs) (S (Z.to_nat id)).
Proof.
  unfold Legacy.eject. destruct (id <? 0); [done|].
  destruct (Z.to_nat id <? length hs)%nat eqn:Hin.
  - apply Nat.ltb_lt in Hin. rewrite length_insert. lia.
  - apply Nat.ltb_ge in Hin. rewrite !length_app, length_replicate. simpl. lia.
Qed.

Lemma length_eject id hs : length (eject id hs) = length hs.
Proof.
  unfold eject. destruct (slot hs id) as [[h|]|]; [|done..]. apply length_insert.
Qed.

(** X24. In the earlier revision too, a second ejection of a handle leaves
    every run as the first one does, and ejecting a number that names no
    registration leaves every run as it was (though the registry grows by
    empty slots). *)
Theorem legacy_eject_idempotent_and_inert
    (id : Z) (hs : Legacy.Interceptors) (v : JsVal) (w : World) :
  Legacy.run (Legacy.eject id (Legacy.eject id hs)) v w = Legacy.run (Legacy.eject id hs) v w
  /\ (~ (0 <= id < Z.of_nat (length hs)) ->
      Legacy.run (Legacy.eject id hs) v w = Legacy.run hs v w).
Proof.
  split; [by rewrite legacy_eject_eject|].
  intros Hid. unfold Legacy.eject. destruct (id <? 0) eqn:Hneg; [done|].
  apply Z.ltb_ge in Hneg. rewrite (proj2 (Nat.ltb_ge _ _)) by lia.
  unfold Legacy.run, bind. rewrite emit_logged. apply legacy_run_from_grown.
Qed.

(** X25. In the earlier revision, ejecting a number at or past the end of
    the registry grows it up to that slot, so the next handle issued is
    that number plus one: handles are skipped.  In the later revision an
    ejection never changes the length of the registry, and the next handle
    is the one that would have been issued without it. *)
Theorem legacy_eject_past_end_shifts_handles
    (id : Z) (hs : Legacy.Interceptors) (fn : Callback)
    (hs' : Interceptors) (onF onR : option Callback) :
  (Z.of_nat (length hs) <= id -> snd (Legacy.use fn (Legacy.eject id hs)) = id + 1)
  /\ (id < Z.of_nat (length hs) ->
      snd (Legacy.use fn (Legacy.eject id hs)) = snd (Legacy.use fn hs))
  /\ snd (use onF onR (eject id hs')) = snd (use onF onR hs').
Proof.
  split_and!.
  - intros Hid. unfold Legacy.use. simpl. rewrite length_app, legacy_length_eject.
    rewrite (proj2 (Z.ltb_ge _ _)) by lia. simpl. lia.
  - intros Hid. unfold Legacy.use. simpl. rewrite !length_app, legacy_length_eject.
    destruct (id <? 0) eqn:Hneg; [done|]. apply Z.ltb_ge in Hneg. simpl. lia.
  - by rewrite !use_snoc, length_eject.
Qed.

(** X26. In the earlier revision, registering a callback puts it at the
    end of the chain: a run of the new registry is a run of the old one
    followed, when that run returned, by one call of the new callback on
    the value it returned. *)
Theorem legacy_use_extends_chain
    (fn : Callback) (hs : Legacy.Interceptors) (v : JsVal) (w : World) :
  Legacy.run (fst (Legacy.use fn hs)) v w
  = match Legacy.run hs v w with
    | (Return v', w') => (fn v', logged w' [EvOnFulfilled (length hs) v'])
    | o => o
    end.
Proof.
  unfold Legacy.use. simpl fst. unfold Legacy.run, bind. rewrite !emit_logged.
  rewrite legacy_run_from_app.
  destruct (Legacy.run_from 0 hs v _) as [[v'|e|] w']; try done.
  simpl. unfold bind, await. rewrite emit_logged. by destruct (fn v').
Qed.

Lemma appends_legacy_run hs v : appends is_fulfilled (Legacy.run hs v).
Proof.
  intros w o w'. rewrite legacy_run_chain. apply appends_runFulfilled_only.
Qed.

Section LegacyPipelineMore.

Variable JSON_stringify : JsVal -> string.
Variable URL_resolve : string -> string -> Completion string.
Variable fetch : JsVal -> JsVal -> list HeaderMap -> Completion Response.
Variable c : Legacy.Client.

Lemma legacy_decode_body_spec r w :
  Legacy.decode_body r w = (legacy_parsed_body r, logged w [reader_event r]).
Proof.
  unfold Legacy.decode_body, legacy_parsed_body, reader_event, try_catch, bind.
  destruct (includes _ _); rewrite emit_logged; unfold await, ret.
  - by destruct (r_json r).
  - by destruct (r_text r).
Qed.

Lemma legacy_transport_armed final w :
  Legacy.transport fetch final
    (armed_world (Legacy.arms_timer final) (getp final "timeout") w)
  = Legacy.transport fetch final w.
Proof. unfold armed_world. by destruct (Legacy.arms_timer final). Qed.

(** X27. In the earlier revision the body of every answer is read,
    whatever its status: a call answered with a status in [200, 300), 204
    and 205 among them, on a client without response callbacks, calls the
    body reader its content type selects and resolves to what the reader
    gives (to [null] or the empty string when the reader fails). *)
Theorem legacy_success_decodes_every_status
    (final : JsVal) (w : World) (r : Response) (parsed : JsVal) :
  nullish final = false ->
  Legacy.transport fetch final w = Return r ->
  legacy_parsed_body r = Return parsed ->
  200 <= r_status r < 300 ->
  Legacy.res c = [] ->
  Legacy.core_dispatch fetch c final w
  = (Return parsed,
     legacy_settled final w [reader_event r; EvRunFulfilled (Legacy.wrap r parsed final)]).
Proof.
  intros Hfinal Hr Hparsed Hstatus Hres.
  rewrite legacy_core_dispatch_spec by done.
  unfold try_catch, Legacy.core_try, bind at 1, Legacy.do_fetch.
  rewrite legacy_transport_armed, Hr.
  unfold bind at 1.
  fold (logged (armed_world (Legacy.arms_timer final) (getp final "timeout") w)
          [EvFetch (getp final "url") (Legacy.fetch_init final)]).
  rewrite legacy_decode_body_spec, Hparsed, logged_logged.
  assert ((r_status r <? 200) || (r_status r >=? 300) = false) as ->.
  { apply orb_false_iff. split; [apply Z.ltb_ge; lia | rewrite Z.geb_leb; apply Z.leb_gt; lia]. }
  rewrite Hres. unfold Legacy.run, bind, member. rewrite emit_logged, logged_logged. simpl.
  unfold finish_timer, legacy_settled. done.
Qed.

(** X28. In the earlier revision there is no failure chain: a status
    outside [200, 300) is raised to the caller as the status error, and a
    failure of the transport call is raised as it is when it already is a
    structured error (its [isAxiosError] is truthy), and otherwise as a
    structured error without response (the timeout error with status 0 for
    an error named AbortError, else the message of the failure or "Network
    Error"); no response callback is called, and the timer, if set, is
    cleared. *)
Theorem legacy_failures_reach_the_caller (final : JsVal) (w : World) :
  nullish final = false ->
  (forall r parsed,
     Legacy.transport fetch final w = Return r ->
     legacy_parsed_body r = Return parsed ->
     r_status r < 200 \/ 300 <= r_status r ->
     Legacy.core_dispatch fetch c final w
     = (Throw (Legacy.status_error r parsed final),
        legacy_settled final w [reader_event r]))
  /\ (forall e,
        Legacy.transport fetch final w = Throw e ->
        Legacy.core_dispatch fetch c final w
        = (Throw (if truthy (getp e "isAxiosError") then e
                  else if is_str (getp e "name") "AbortError"
                  then makeError
                         (VStr ("timeout of " ++ ToString (getp final "timeout")
                                ++ "ms exceeded"))
                         final VUndefined (VNum 0)
                  else makeError (getp e "message" ?? VStr "Network Error")
                         final VUndefined VUndefined),
           legacy_settled final w [])).
Proof.
  intros Hfinal. split.
  - intros r parsed Hr Hparsed Hstatus.
    rewrite (legacy_status_failure_raised fetch c final w r parsed
               (logged (armed_world (Legacy.arms_timer final) (getp final "timeout") w)
                  [EvFetch (getp final "url") (Legacy.fetch_init final); reader_event r]));
      try done.
    by rewrite legacy_decode_body_spec, Hparsed, logged_logged.
  - intros e Hr.
    rewrite legacy_core_dispatch_spec by done.
    unfold try_catch, Legacy.core_try, bind at 1, Legacy.do_fetch.
    rewrite legacy_transport_armed, Hr.
    unfold throw, Legacy.normalize.
    unfold finish_timer, legacy_settled, logged.
    destruct (truthy (getp e "isAxiosError")); [done|].
    by destruct (is_str (getp e "name") "AbortError").
Qed.

(** X29. In the earlier revision, what a request callback throws is
    raised to the caller as it is: the error is not made a structured one,
    the transport is not called and no timer is set. *)
Theorem legacy_request_hook_failure_is_raised_raw
    (cfg : JsVal) (w : World) (final0 : JsVal) (w0 : World) (e : JsVal) (w1 : World) :
  Legacy.core_merge JSON_stringify URL_resolve c cfg w = (Return final0, w0) ->
  Legacy.run (Legacy.req c) final0 w0 = (Throw e, w1) ->
  Legacy.core JSON_stringify URL_resolve fetch c cfg w = (Throw e, w1)
  /\ exists evs, log w1 = (log w0 ++ evs)%list
                 /\ Forall (fun ev => is_fulfilled ev = true) evs.
Proof.
  intros Hmerge Hrun. split.
  - unfold Legacy.core, Legacy.core_prepare, bind. by rewrite Hmerge, Hrun.
  - by apply (appends_legacy_run _ _ _ _ _ Hrun).
Qed.

(** X30. In the earlier revision, a structured body is always replaced by
    its JSON text, whatever Content-Type the headers name; any other body
    is handed on as it is. *)
Theorem legacy_merger_always_encodes (cfg : JsVal) (w : World) (final : JsVal) (w' : World) :
  Legacy.core_merge JSON_stringify URL_resolve c cfg w = (Return final, w') ->
  getp final "data"
  = if isPlainObj (getp cfg "data")
    then VStr (JSON_stringify (getp cfg "data"))
    else getp cfg "data".
Proof.
  intros H. unfold Legacy.core_merge in H. unfold bind at 1 in H.
  destruct (toHeaders _ w) as [[href| |] wa]; try done.
  unfold bind at 1, member in H. destruct (nullish cfg) eqn:Hn; [done|].
  unfold ret at 1 in H. unfold bind at 1 in H.
  destruct (toHeaders _ wa) as [[cref| |] wb]; try done.
  unfold headers_forEach_set, headers_has, headers_set in H.
  rewrite content_type_name_ok, content_type_ok in H.
  unfold headers_update, headers_read, bind, ret, await in H.
  destruct (truthy _ && truthy _); [destruct (Legacy.combine _ _ _) as [url| |]; try done|].
  all: destruct (isPlainObj (getp cfg "data") && negb _); injection H as <- <-.
  all: rewrite getp_assign_ne by done; by rewrite getp_assign_eq.
Qed.

End LegacyPipelineMore.

(** ** The scenarios of the specification *)

Import Scenario.

(** A request to a URL that answers 404 with [{"error":"missing"}], no
    failure hook registered. *)
Lemma status_failure_scenario :
  fst (core stringify resolve fetch404 http get_missing w0)
  = Throw (status_error resp404 missing final_missing)
  /\ getp (status_error resp404 missing final_missing) "status" = VNum 404
  /\ getp (getp (status_error resp404 missing final_missing) "response") "data" = missing.
Proof.
  destruct (status_failure_raises_structured_error stringify resolve fetch404 http
              get_missing w0 final_missing (reached final_missing) resp404 missing)
    as (_ & Hstatus & _ & Hdata & _ & Hraise).
  - by vm_compute.
  - reflexivity.
  - reflexivity.
  - right. simpl. lia.
  - split_and!; [|exact Hstatus|exact Hdata].
    apply Hraise. intros i f Hin. simpl in Hin. by apply elem_of_nil in Hin.
Defined.

(** The same request with a failure callback that throws an error of its
    own: no callback recovers, and what the caller gets is that error, not
    the status error. *)
Lemma status_failure_replaced_by_hook :
  transport fetch404 final_missing (reached final_missing) = Return resp404
  /\ r_status resp404 = 404
  /\ fst (failure_chain (live_rejected (res http_boom))
            (status_error resp404 missing final_missing)) = Throw boom
  /\ fst (core stringify resolve fetch404 http_boom get_missing w0) = Throw boom
  /\ getp boom "message" = VStr "boom"
  /\ getp boom "message" <> VStr "Request failed with status code 404"
  /\ getp boom "status" <> VNum 404.
Proof. split_and!; try (by vm_compute). Qed.

(** A timeout of 50 ms against a transport that never answers. *)
Lemma timeout_scenario :
  fst (core stringify resolve fetch_never http get_slow w0) = Throw timeout_error
  /\ getp timeout_error "status" = VNum 0
  /\ getp timeout_error "message" = VStr "timeout of 50ms exceeded".
Proof.
  destruct (cancellation_raises_timeout_error stringify resolve fetch_never http
              get_slow w0 final_slow (reached final_slow) AbortError)
    as [Hplain _].
  - by vm_compute.
  - reflexivity.
  - reflexivity.
  - destruct Hplain as (Hstatus & Hmessage & _ & Hraise); [reflexivity|].
    split_and!; [|exact Hstatus|exact Hmessage].
    apply Hraise. intros i f Hin. simpl in Hin. by apply elem_of_nil in Hin.
Defined.

(** Three calls that are cancelled and do not raise the timeout error.
    The slow call on a client with a failure callback that returns
    [{status: 200, data: "fallback"}]: the call resolves, nothing is
    raised.  The slow call against a transport whose AbortError is already
    a structured error with status 7: that error is raised as it is.  A
    call cancelled through the caller's token, which the transport reports
    with the reason of the token, an error named TimeoutError: the error
    raised has the message of the reason and no status. *)
Lemma cancellation_without_timeout_error :
  (transport fetch_never final_slow (reached final_slow) = Throw AbortError
   /\ is_str (getp AbortError "name") "AbortError" = true
   /\ fst (core stringify resolve fetch_never http_fallback get_slow w0)
      = Return (VStr "fallback"))
  /\ (transport fetch_aborted_structured final_slow (reached final_slow)
      = Throw AbortError_structured
      /\ is_str (getp AbortError_structured "name") "AbortError" = true
      /\ fst (core stringify resolve fetch_aborted_structured http get_slow w0)
         = Throw AbortError_structured
      /\ getp AbortError_structured "status" = VNum 7
      /\ getp AbortError_structured "message" = VStr "x")
  /\ (transport fetch_token final_token (reached final_token) = Throw TimeoutReason
      /\ fst (core stringify resolve fetch_token http get_token w0)
         = Throw (makeError (VStr "The operation was aborted due to timeout")
                    final_token VUndefined VUndefined)
      /\ getp (makeError (VStr "The operation was aborted due to timeout")
                 final_token VUndefined VUndefined) "status" = VUndefined).
Proof. split_and!; by vm_compute. Qed.

(** The recovery seen through C3. *)
Lemma fallback_scenario :
  fst (core stringify resolve fetch_never http_fallback get_slow w0) = Return (VStr "fallback")
  /\ exists evs,
       log (snd (core stringify resolve fetch_never http_fallback get_slow w0))
       = (log w0 ++ evs)%list
       /\ List.filter is_run_rejected evs = [EvRunRejected timeout_error].
Proof.
  destruct (failure_offered_once_to_failure_chain stringify resolve fetch_never http_fallback
              get_slow w0 timeout_error
              (fetched true (fetch_init final_slow) final_slow (reached final_slow) [])
              true (reached final_slow))
    as (_ & Hcore & _ & Honce).
  - apply (timeout_failure stringify resolve fetch_never http_fallback get_slow w0
             final_slow (reached final_slow) AbortError);
      by vm_compute.
  - split; [by rewrite Hcore|].
    apply (Honce (fst (core stringify resolve fetch_never http_fallback get_slow w0))).
    by destruct (core _ _ _ _ _ _).
Defined.

(** A 204 answer is not decoded. *)
Lemma bodiless_scenario :
  fst (core stringify resolve fetch204 http get_missing w0) = Return VNull
  /\ exists evs,
       log (snd (core stringify resolve fetch204 http get_missing w0)) = (log w0 ++ evs)%list
       /\ List.filter is_decode evs = [].
Proof.
  destruct (bodiless_status_skips_decoding stringify resolve fetch204 http
              get_missing w0 final_missing (reached final_missing) resp204)
    as (_ & _ & Hcore & Hlog).
  - by vm_compute.
  - reflexivity.
  - by left.
  - split; [by rewrite Hcore|].
    apply (Hlog (fst (core stringify resolve fetch204 http get_missing w0))).
    by destruct (core _ _ _ _ _ _).
Defined.

(** A body that is not the JSON it claims to be. *)
Lemma bad_json_scenario :
  fst (core stringify resolve fetch_bad_json http get_missing w0) = Return VNull.
Proof.
  destruct (decode_failure_degrades stringify resolve fetch_bad_json http
              get_missing w0 final_missing (reached final_missing) resp_bad_json
              (VObj [("name", VStr "SyntaxError"); ("message", VStr "Unexpected token")]))
    as (_ & Hcore & _).
  - by vm_compute.
  - reflexivity.
  - simpl. lia.
  - simpl. lia.
  - reflexivity.
  - rewrite Hcore by (simpl; lia). by vm_compute.
Defined.

(** The timer of the slow call. *)
Lemma timer_scenario :
  exists evs,
    log (snd (core stringify resolve fetch_never http get_slow w0)) = (log w0 ++ evs)%list
    /\ (List.filter is_timer evs = []
        \/ exists id ms pre,
             evs = (pre ++ [EvClearTimeout id])%list
             /\ List.filter is_timer pre = [EvSetTimeout id ms]).
Proof.
  apply (timer_cleared_exactly_once stringify resolve fetch_never http get_slow w0
           (fst (core stringify resolve fetch_never http get_slow w0))).
  - by destruct (core _ _ _ _ _ _).
  - by vm_compute.
Defined.

(** A plain object body on a client without default Content-Type. *)
Lemma merger_scenario :
  exists final w' href,
    core_merge stringify http post_item w0 = (Return final, w')
    /\ getp final "headers" = VHeaders href
    /\ deref w' href !! "content-type" = Some "application/json"
    /\ getp final "data" = VStr (stringify (VObj [("a", VNum 1)])).
Proof.
  destruct (merger_encodes_structured_bodies stringify http post_item w0 ∅ ∅)
    as (final & w' & href & Hmerge & Hheaders & Hplain & _).
  - reflexivity.
  - exact I.
  - exact I.
  - reflexivity.
  - reflexivity.
  - exists final, w', href. destruct Hplain as (_ & Hct & Hdata).
    + reflexivity.
    + by vm_compute.
    + by split_and!.
Defined.

(** Ejecting the second of three hooks: the first and the third run, in
    that order, and keep their slots. *)
Example eject_middle_scenario :
  apply_ops three_hooks_one_ejected []
  = [Some (mkHandler (Some (tag "a")) None); None; Some (mkHandler (Some (tag "c")) None)]
  /\ runFulfilled (apply_ops three_hooks_one_ejected []) (VStr "v") w0
     = (Return (VArr [VStr "c"; VArr [VStr "a"; VStr "v"]]),
        logged w0 [EvRunFulfilled (VStr "v");
                   EvOnFulfilled 0 (VStr "v");
                   EvOnFulfilled 2 (VArr [VStr "a"; VStr "v"])]).
Proof. split; reflexivity. Qed.

(** Ejecting a handle that was never issued. *)
Lemma eject_unissued_scenario :
  runFulfilled (eject 7 (apply_ops three_hooks_one_ejected [])) (VStr "v") w0
  = runFulfilled (apply_ops three_hooks_one_ejected []) (VStr "v") w0
  /\ runRejected (eject 7 (apply_ops three_hooks_one_ejected [])) (VStr "v") w0
     = runRejected (apply_ops three_hooks_one_ejected []) (VStr "v") w0.
Proof.
  apply (eject_idempotent_and_inert_on_unissued
           (apply_ops three_hooks_one_ejected []) 7 (VStr "v") w0).
  simpl. lia.
Defined.

(** The defect behind C8.  After [setHeader], the default headers are a
    Headers instance; [toHeaders] hands that instance to the merger, which
    writes the headers of the call into it.  A header given to one request
    is then among the defaults of every later one. *)
Lemma request_header_leaks_into_defaults :
  setHeader "X-App" "next" http w0 = (Return http_app, w_app)
  /\ default_headers http_app w_app = Return {["x-app" := "next"]}
  /\ default_headers http_app
       (snd (core stringify resolve fetch204 http_app get_traced w_app))
     = Return (<["x-trace" := "1"]> {["x-app" := "next"]})
  /\ default_headers http_app
       (snd (core stringify resolve fetch204 http_app post_item w_app))
     = Return (<["content-type" := "application/json"]> {["x-app" := "next"]}).
Proof. split_and!; by vm_compute. Qed.

(** Before any [setHeader], the default headers are a plain object and a
    request leaves them alone. *)
Lemma request_header_stays_out_of_plain_defaults :
  default_headers http w0 = Return ∅
  /\ default_headers http (snd (core stringify resolve fetch204 http get_traced w0))
     = Return ∅.
Proof. split; by vm_compute. Qed.

(** The earlier revision on the same scenarios: the status error and the
    timeout error reach the caller, and a 204 answer is decoded. *)
Lemma legacy_scenarios :
  fst (Legacy.core stringify resolve fetch404 (Legacy.createHttp VUndefined) get_missing w0)
  = Throw (Legacy.status_error resp404 missing
             (VObj [("method", VStr "GET"); ("headers", VHeaders 0);
                    ("url", VStr "https://api.test/missing");
                    ("credentials", VUndefined); ("data", VUndefined)]))
  /\ fst (Legacy.core stringify resolve fetch_never (Legacy.createHttp VUndefined) get_slow w0)
     = Throw (makeError (VStr "timeout of 50ms exceeded")
                (VObj [("method", VStr "GET"); ("headers", VHeaders 0);
                       ("url", VStr "https://api.test/slow"); ("timeout", VNum 50);
                       ("credentials", VUndefined); ("data", VUndefined)])
                VUndefined (VNum 0))
  /\ List.filter is_decode
       (log (snd (Legacy.core stringify resolve fetch204 (Legacy.createHttp VUndefined)
                    get_missing w0)))
     = [EvText].
Proof. split_and!; by vm_compute. Qed.
(** ** More scenarios *)

(** [combine("https://api.test/v1/", "/users")] and
    [combine("https://api.test/v1", "users")] are the same join. *)
Lemma combine_slashes_scenario :
  combine resolve (VStr "https://api.test/v1/") "/users"
  = combine resolve (VStr "https://api.test/v1") "users".
Proof.
  destruct (combine_ignores_joining_slashes resolve "https://api.test/v1" "users")
    as [Hbase Hrel]; [done|done|].
  rewrite <- Hbase by done. apply (Hrel (VStr "https://api.test/v1/")).
Defined.

(** The timeout error of the slow call is a structured error. *)
Lemma structured_error_scenario :
  truthy (getp timeout_error "isAxiosError") = true
  /\ normalize final_missing timeout_error = timeout_error.
Proof.
  destruct (offered_errors_are_structured stringify resolve fetch_never http
              get_slow w0 timeout_error
              (fetched true (fetch_init final_slow) final_slow (reached final_slow) [])
              true (reached final_slow)) as [H1 H2].
  - apply (timeout_failure stringify resolve fetch_never http get_slow w0
             final_slow (reached final_slow) AbortError);
      by vm_compute.
  - split; [exact H1 | apply H2].
Defined.

(** A header name with a space in it: the call fails before any hook. *)
Lemma bad_header_scenario :
  exists w1,
    core stringify resolve fetch404 http get_bad_header w0
    = (Throw (InvalidHeader "bad name"), w1)
    /\ log w1 = log w0
    /\ forall r, (r < length (heap w0))%nat -> deref w1 r = deref w0 r.
Proof.
  apply (merge_failure_is_raised_raw stringify resolve fetch404 http get_bad_header w0).
  right. right. split_and!; [by exists ∅ | reflexivity | by vm_compute].
Defined.

(** A request callback that throws: the transport is not called. *)
Lemma request_hook_failure_scenario :
  fst (core stringify resolve fetch404 http_req_boom get_missing w0)
  = Throw (makeError (VStr "boom") final_missing VUndefined VUndefined)
  /\ exists evs,
       log (snd (core stringify resolve fetch404 http_req_boom get_missing w0))
       = (log w0 ++ evs)%list
       /\ List.filter is_fetch evs = [].
Proof.
  destruct (request_hook_failure_skips_transport stringify resolve fetch404 http_req_boom
              get_missing w0 final_missing (mkWorld [∅; ∅] []) boom
              [EvOnFulfilled 0 final_missing]) as [Hcore Hlog].
  - by vm_compute.
  - by vm_compute.
  - split; [rewrite Hcore; by vm_compute|].
    destruct (Hlog (fst (core stringify resolve fetch404 http_req_boom get_missing w0))
                (snd (core stringify resolve fetch404 http_req_boom get_missing w0)))
      as (evs & Hl & _ & Hf & _).
    + by destruct (core _ _ _ _ _ _).
    + by exists evs.
Defined.

(** A request callback that returns nothing. *)
Lemma request_hook_forgets_scenario :
  exists msg,
    core stringify resolve fetch404 http_req_forget get_missing w0
    = (Throw (TypeError msg),
       logged (mkWorld [∅; ∅] []) [EvRunFulfilled final_missing; EvOnFulfilled 0 final_missing]).
Proof.
  destruct (request_hook_returning_nothing stringify resolve fetch404 http_req_forget
              get_missing w0 final_missing (mkWorld [∅; ∅] []) VUndefined
              [EvOnFulfilled 0 final_missing]) as [Hcore _].
  - by vm_compute.
  - by vm_compute.
  - reflexivity.
  - exact Hcore.
Defined.

(** A transport that cannot connect. *)
Lemma network_error_scenario :
  fst (core stringify resolve fetch_down http get_missing w0)
  = Throw (makeError (VStr "fetch failed") final_missing VUndefined VUndefined).
Proof.
  destruct (transport_failure_raises_network_error stringify resolve fetch_down http
              get_missing w0 final_missing (reached final_missing) (TypeError "fetch failed"))
    as (_ & _ & _ & _ & Hraise).
  - by vm_compute.
  - reflexivity.
  - reflexivity.
  - reflexivity.
  - apply Hraise. intros i f Hin. simpl in Hin. by apply elem_of_nil in Hin.
Defined.

(** A 200 answer with a JSON body. *)
Lemma success_scenario :
  fst (core stringify resolve fetch_ok http get_missing w0) = Return item.
Proof.
  destruct (success_resolves_to_response_data stringify resolve fetch_ok http
              get_missing w0 final_missing (reached final_missing) resp_ok item
              (wrap resp_ok item final_missing) [])
    as (_ & Hfst & Hdata).
  - by vm_compute.
  - reflexivity.
  - reflexivity.
  - simpl. lia.
  - reflexivity.
  - reflexivity.
  - rewrite Hfst. by rewrite Hdata.
Defined.

(** A response callback that returns nothing. *)
Lemma response_hook_forgets_scenario :
  exists msg,
    fst (core stringify resolve fetch_ok http_res_forget get_missing w0)
    = Throw (makeError (VStr msg) final_missing VUndefined VUndefined).
Proof.
  destruct (response_hook_returning_nothing stringify resolve fetch_ok http_res_forget
              get_missing w0 final_missing (reached final_missing) resp_ok item VUndefined
              [EvOnFulfilled 0 (wrap resp_ok item final_missing)]) as (msg & Hcore).
  - by vm_compute.
  - reflexivity.
  - reflexivity.
  - simpl. lia.
  - by vm_compute.
  - reflexivity.
  - exists msg. rewrite Hcore. by vm_compute.
Defined.

(** The timer of the slow call is set for 50 ms and cleared. *)
Lemma timer_set_scenario :
  exists evs,
    log (snd (core stringify resolve fetch_never http get_slow w0)) = (log w0 ++ evs)%list
    /\ List.filter is_timer evs = [EvSetTimeout 1 (VNum 50); EvClearTimeout 1].
Proof.
  destruct (timer_set_iff_timeout_without_signal stringify resolve fetch_never http
              get_slow w0 final_slow (reached final_slow)
              (fst (core stringify resolve fetch_never http get_slow w0))
              (snd (core stringify resolve fetch_never http get_slow w0)))
    as (evs & Hl & Hf).
  - by vm_compute.
  - by destruct (core _ _ _ _ _ _).
  - by vm_compute.
  - exists evs. split; [exact Hl | exact Hf].
Defined.

(** One call of the transport for the 404 call. *)
Lemma single_fetch_scenario :
  exists evs,
    log (snd (core stringify resolve fetch404 http get_missing w0)) = (log w0 ++ evs)%list
    /\ (count is_fetch evs <= 1)%nat
    /\ (count is_decode evs <= count is_fetch evs)%nat.
Proof.
  apply (transport_called_at_most_once stringify resolve fetch404 http get_missing w0
           (fst (core stringify resolve fetch404 http get_missing w0))).
  by destruct (core _ _ _ _ _ _).
Defined.

(** The [next] option of a call reaches the transport. *)
Lemma cache_option_scenario :
  core_prepare stringify resolve http get_cached w0
  = (Return (Dispatch final_cached), reached final_cached)
  /\ getp (fetch_init final_cached) "next" = cache_option
  /\ exists evs,
       log (snd (core stringify resolve fetch_ok http get_cached w0)) = (log w0 ++ evs)%list
       /\ List.filter is_fetch evs
          = [EvFetch (VStr "https://api.test/posts") (fetch_init final_cached)].
Proof.
  destruct (config_passes_through_to_transport stringify resolve fetch_ok http get_cached w0
              final_cached (reached final_cached) "next") as (_ & _ & Hlog & _ & Hcfg).
  - reflexivity.
  - by vm_compute.
  - apply (bool_decide_unpack _). by vm_compute.
  - split_and!.
    + by vm_compute.
    + apply Hcfg; [|reflexivity]. apply (bool_decide_unpack _). by vm_compute.
    + apply (Hlog (fst (core stringify resolve fetch_ok http get_cached w0))).
      by destruct (core _ _ _ _ _ _).
Defined.

(** The method "post" of a call is merged as "POST". *)
Lemma method_scenario :
  fst (core_merge stringify http post_item w0) = Return merged_post_item
  /\ exists m,
       getp merged_post_item "method" = VStr m
       /\ toUpperCase m = m
       /\ m = toUpperCase "post".
Proof.
  split; [by vm_compute|].
  destruct (merged_method_is_upper_case stringify http post_item w0 merged_post_item
              (snd (core_merge stringify http post_item w0)))
    as [(m & Hm & Hup & Hcfg & _) _].
  - by vm_compute.
  - exists m. split_and!; [exact Hm | exact Hup | by apply Hcfg].
Defined.

(** A structured body sent with [Content-Type: text/plain] is not encoded. *)
Lemma text_body_scenario :
  exists final w' href,
    core_merge stringify http post_text w0 = (Return final, w')
    /\ getp final "headers" = VHeaders href
    /\ deref w' href = {["content-type" := "text/plain"]}
    /\ getp final "data" = VObj [("a", VNum 1)].
Proof.
  destruct (merger_respects_existing_content_type stringify http post_text w0
              ∅ {["content-type" := "text/plain"]} "text/plain")
    as (final & w' & href & Hmerge & Hh & Hd & Hdata).
  - reflexivity.
  - exact I.
  - exact I.
  - reflexivity.
  - by vm_compute.
  - by vm_compute.
  - exists final, w', href. split_and!; [exact Hmerge | exact Hh | |exact Hdata].
    rewrite Hd. by vm_compute.
Defined.

(** An absolute URL is left alone, whatever base URL the client has. *)
Lemma absolute_url_scenario :
  core_resolve resolve (setBaseURL (VStr "https://other.test") http) get_missing
    final_missing (reached final_missing)
  = (Return final_missing, reached final_missing)
  /\ getp final_missing "url" = VStr "https://api.test/missing".
Proof.
  split; [by vm_compute|].
  apply (url_left_alone resolve (setBaseURL (VStr "https://other.test") http) get_missing
           (own_props final_missing) (reached final_missing)
           final_missing (reached final_missing)).
  - by vm_compute.
  - reflexivity.
  - left. reflexivity.
Defined.

(** After [setBaseURL("https://api.test/v1")], the URL "/users" is joined
    under the base, and the transport is called with the joined URL. *)
Lemma base_url_scenario :
  exists u',
    getp final_users "url" = VStr u'
    /\ resolve "users" "https://api.test/v1/" = Return u'
    /\ exists evs,
         log (snd (core stringify resolve fetch_ok http_v1 get_users w0)) = (log w0 ++ evs)%list
         /\ List.filter is_fetch evs = [EvFetch (VStr u') (fetch_init final_users)].
Proof.
  destruct (setBaseURL_joins_relative_urls stringify resolve fetch_ok http
              "https://api.test/v1" get_users w0) as [Hjoin _].
  destruct (Hjoin "/users" final_users (mkWorld [∅; ∅] [EvRunFulfilled merged_users]))
    as (u' & Hu' & Hres & _ & _ & _ & Hlog).
  - reflexivity.
  - apply (bool_decide_unpack _). by vm_compute.
  - apply (bool_decide_unpack _). by vm_compute.
  - reflexivity.
  - reflexivity.
  - by vm_compute.
  - exists u'. split_and!; [exact Hu' | by apply Hres |].
    apply (Hlog (fst (core stringify resolve fetch_ok http_v1 get_users w0))).
    by destruct (core _ _ _ _ _ _).
Defined.

(** [setHeader("X-App", "next")] on a new client. *)
Lemma setHeader_scenario :
  exists c' w',
    setHeader "X-App" "next" http w0 = (Return c', w')
    /\ headers_view w' (getp (VObj (defaults c')) "headers")
       = Return (<["x-app" := "next"]> ∅).
Proof.
  destruct (setHeader_sets_default_header http "X-App" "next" w0 ∅) as [Hok _].
  - exact I.
  - reflexivity.
  - destruct Hok as (c' & w' & Hset & Hview & _); [reflexivity|].
    exists c', w'. split; [exact Hset | exact Hview].
Defined.

(** [removeHeader("x-app")] on the client that has the header. *)
Lemma removeHeader_scenario :
  exists c' w',
    removeHeader "x-app" http_app w_app = (Return c', w')
    /\ headers_view w' (getp (VObj (defaults c')) "headers")
       = Return (delete "x-app" {["x-app" := "next"]}).
Proof.
  destruct (removeHeader_removes_default_header http_app "x-app" w_app {["x-app" := "next"]})
    as (c' & w' & Hdel & Hview & _).
  - simpl. lia.
  - reflexivity.
  - reflexivity.
  - exists c', w'. split; [exact Hdel | exact Hview].
Defined.

(** [setHeader("X-App", "next")] then [removeHeader("x-app")] on a new
    client: no default header is left. *)
Lemma header_round_trip_scenario :
  exists c1 w1 c2 w2,
    setHeader "X-App" "next" http w0 = (Return c1, w1)
    /\ removeHeader "x-app" c1 w1 = (Return c2, w2)
    /\ headers_view w2 (getp (VObj (defaults c2)) "headers") = Return ∅.
Proof.
  destruct (removeHeader_undoes_setHeader http "X-App" "x-app" "next" w0 ∅)
    as (c1 & w1 & c2 & w2 & Hset & Hdel & _ & Hsame).
  - exact I.
  - reflexivity.
  - reflexivity.
  - reflexivity.
  - exists c1, w1, c2, w2. split_and!; [exact Hset | exact Hdel | by apply Hsame].
Defined.

(** [post(u, "hello", { method: "GET", data: "ignored" })] sends "hello"
    with the method POST. *)
Lemma shortcut_scenario :
  fst (core_merge stringify http post_hello w0) = Return merged_post_hello
  /\ getp merged_post_hello "url" = VStr "https://api.test/items"
  /\ getp merged_post_hello "method" = VStr "POST"
  /\ (getp merged_post_hello "data" = VStr "hello"
      \/ getp merged_post_hello "data" = VStr (stringify (VStr "hello"))).
Proof.
  split; [by vm_compute|].
  destruct (shortcut_arguments_override_config stringify resolve fetch404 http
              "POST" (VStr "https://api.test/items") (VStr "hello")
              (VObj [("method", VStr "GET"); ("data", VStr "ignored")]) w0
              merged_post_hello (snd (core_merge stringify http post_hello w0)))
    as (_ & _ & Hbody).
  apply Hbody. by vm_compute.
Defined.

(** The earlier revision: ejecting handle 5 of a registry of one. *)
Lemma legacy_eject_scenario :
  Legacy.run (Legacy.eject 5 [Some (tag "a")]) (VStr "v") w0
  = Legacy.run [Some (tag "a")] (VStr "v") w0.
Proof.
  destruct (legacy_eject_idempotent_and_inert 5 [Some (tag "a")] (VStr "v") w0) as [_ H].
  apply H. simpl. lia.
Defined.

Lemma legacy_handles_scenario :
  snd (Legacy.use (tag "b") (Legacy.eject 5 [Some (tag "a")])) = 6.
Proof.
  destruct (legacy_eject_past_end_shifts_handles 5 [Some (tag "a")] (tag "b") [] None None)
    as (H & _ & _).
  apply H. simpl. lia.
Defined.

(** The earlier revision on the 204 answer: the text reader is called. *)
Lemma legacy_bodiless_scenario :
  Legacy.core_dispatch fetch204 legacy_http legacy_final_missing (mkWorld [∅; ∅] [])
  = (Return (VStr ""),
     mkWorld [∅; ∅]
       [EvFetch (VStr "https://api.test/missing") (Legacy.fetch_init legacy_final_missing);
        EvText;
        EvRunFulfilled (Legacy.wrap resp204 (VStr "") legacy_final_missing)]).
Proof.
  apply (legacy_success_decodes_every_status fetch204 legacy_http legacy_final_missing
           (mkWorld [∅; ∅] []) resp204 (VStr "")).
  - reflexivity.
  - reflexivity.
  - reflexivity.
  - simpl. lia.
  - reflexivity.
Defined.

(** The earlier revision on the 404 call, on the slow call, and on the slow
    call against a transport whose rejection is already a structured error. *)
Lemma legacy_failures_scenario :
  fst (Legacy.core_dispatch fetch404 legacy_http legacy_final_missing (mkWorld [∅; ∅] []))
  = Throw (Legacy.status_error resp404 missing legacy_final_missing)
  /\ fst (Legacy.core_dispatch fetch_never legacy_http legacy_final_slow (mkWorld [∅; ∅] []))
     = Throw (makeError (VStr "timeout of 50ms exceeded") legacy_final_slow
                VUndefined (VNum 0))
  /\ fst (Legacy.core_dispatch fetch_aborted_structured legacy_http legacy_final_slow
            (mkWorld [∅; ∅] []))
     = Throw AbortError_structured.
Proof.
  split_and!.
  - destruct (legacy_failures_reach_the_caller fetch404 legacy_http legacy_final_missing
                (mkWorld [∅; ∅] [])) as [Hstatus _]; [reflexivity|].
    rewrite (Hstatus resp404 missing); [reflexivity..|]. right. simpl. lia.
  - destruct (legacy_failures_reach_the_caller fetch_never legacy_http legacy_final_slow
                (mkWorld [∅; ∅] [])) as [_ Hfail]; [reflexivity|].
    rewrite (Hfail AbortError); reflexivity.
  - destruct (legacy_failures_reach_the_caller fetch_aborted_structured legacy_http
                legacy_final_slow (mkWorld [∅; ∅] [])) as [_ Hfail]; [reflexivity|].
    rewrite (Hfail AbortError_structured); reflexivity.
Defined.

(** The earlier revision: a request callback that throws. *)
Lemma legacy_request_hook_scenario :
  fst (Legacy.core stringify resolve fetch404 legacy_http_boom get_missing w0) = Throw boom.
Proof.
  destruct (legacy_request_hook_failure_is_raised_raw stringify resolve fetch404
              legacy_http_boom get_missing w0 legacy_final_missing (mkWorld [∅; ∅] []) boom
              (mkWorld [∅; ∅] [EvRunFulfilled legacy_final_missing;
                               EvOnFulfilled 0 legacy_final_missing]))
    as [Hcore _].
  - by vm_compute.
  - by vm_compute.
  - by rewrite Hcore.
Defined.

(** The earlier revision encodes a structured body sent as text. *)
Lemma legacy_text_body_scenario :
  fst (Legacy.core_merge stringify resolve legacy_http post_text w0) = Return merged_post_item
  /\ getp merged_post_item "data" = VStr (stringify (VObj [("a", VNum 1)])).
Proof.
  split; [by vm_compute|].
  apply (legacy_merger_always_encodes stringify resolve legacy_http post_text w0
           merged_post_item
           (snd (Legacy.core_merge stringify resolve legacy_http post_text w0))).
  by vm_compute.
Defined.

(** [withCredentials: true] wins over [credentials: "omit"]. *)
Lemma credentials_scenario :
  fst (core_merge stringify http post_with_cookies w0) = Return merged_post_with_cookies
  /\ getp merged_post_with_cookies "credentials" = VStr "include".
Proof.
  split; [by vm_compute|].
  destruct (withCredentials_asks_for_credentials stringify http post_with_cookies w0
              merged_post_with_cookies
              (snd (core_merge stringify http post_with_cookies w0)))
    as (H & _ & _).
  - by vm_compute.
  - by apply H.
Defined.
